(** * Candidate-set loss primitives of [modeling_roberta.py]

    A shallow embedding of the loss computations of the task heads
    [RobertaForTriviaQuestionAnswering], [RobertaForTransE],
    [RobertaForMerge], [RobertaForTogether] and [RobertaForFix].

    Conventions of the embedding:
    - a float tensor entry is an ideal real number ([R]); rounding is not
      modelled.  The two ways a finite input yields a value that is not a
      real number (a reduction over an empty axis, a division by zero) are
      the outcome [NonFin], which every later operation propagates;
    - a Python exception is the outcome [Exn];
    - a 1-D tensor is a [list], a 2-D tensor a list of rows, a 3-D tensor a
      list of matrices; integer tensors hold [Z];
    - the encoder, the projection heads and the embedding tables are
      collaborators: their outputs are inputs of the functions below. *)

From Stdlib Require Import Reals Lra ZArith Lia List Bool Permutation.
Import ListNotations.

Local Open Scope R_scope.

(** ** Outcomes *)

Inductive exn : Type :=
| IndexOutOfRange   (* gather / index outside the indexed axis *)
| ShapeMismatch     (* view, broadcast or cat on incompatible shapes *)
| AssertionFailed   (* assert(False) *)
| MissingArgument.  (* None where a tensor is needed *)

Inductive res (A : Type) : Type :=
| Fin (a : A)
| NonFin
| Exn (e : exn).

Arguments Fin {A} a.
Arguments NonFin {A}.
Arguments Exn {A} e.

Definition bind {A B : Type} (c : res A) (k : A -> res B) : res B :=
  match c with
  | Fin a => k a
  | NonFin => NonFin
  | Exn e => Exn e
  end.

Declare Scope res_scope.
Delimit Scope res_scope with res.
Notation "x <- c ;; k" := (bind c (fun x => k))
  (at level 61, c at next level, right associativity) : res_scope.
Local Open Scope res_scope.

Fixpoint mapM {A B : Type} (f : A -> res B) (l : list A) : res (list B) :=
  match l with
  | [] => Fin []
  | a :: l' => b <- f a ;; bs <- mapM f l' ;; Fin (b :: bs)
  end.

(** ** Tensors as lists *)

Definition vec := list R.
Definition mat := list (list R).

Definition Rsum (l : list R) : R := fold_right Rplus 0 l.

(** [all rows have width w, and there are n of them] *)
Definition shape {A : Type} (n w : nat) (m : list (list A)) : Prop :=
  length m = n /\ Forall (fun r => length r = w) m.

(** [x.mean()]: the mean of no element is NaN. *)
Definition mean (l : list R) : res R :=
  match l with
  | [] => NonFin
  | _ => Fin (Rsum l / INR (length l))
  end.

(** [torch.logsumexp(row, dim=-1)]: minus infinity on an empty axis. *)
Definition logsumexp (row : list R) : res R :=
  match row with
  | [] => NonFin
  | _ => Fin (ln (Rsum (map exp row)))
  end.

(** [n] consecutive rows of width [w] cut from a flat buffer. *)
Fixpoint chunks {A : Type} (w n : nat) (flat : list A) : list (list A) :=
  match n with
  | O => []
  | S n' => firstn w flat :: chunks w n' (skipn w flat)
  end.

(** [m.view(bsz, -1)] on a contiguous 2-D tensor: the row-major buffer is
    cut again into [bsz] rows; the free dimension must be determined. *)
Definition view_rows {A : Type} (bsz : nat) (m : list (list A))
  : res (list (list A)) :=
  let flat := concat m in
  let total := length flat in
  match bsz with
  | O => Exn ShapeMismatch
  | S _ =>
      if Nat.eqb (total mod bsz) 0
      then Fin (chunks (total / bsz) bsz flat)
      else Exn ShapeMismatch
  end.

(** [row.gather(-1, idx)] on one row: every index must lie in [0, len). *)
Definition gather_row (row : list R) (idx : list Z) : res (list R) :=
  mapM (fun i =>
          if (Z.leb 0 i && Z.ltb i (Z.of_nat (length row)))%bool
          then match nth_error row (Z.to_nat i) with
               | Some x => Fin x
               | None => Exn IndexOutOfRange
               end
          else Exn IndexOutOfRange) idx.

(** [logits.gather(dim=-1, index)] on 2-D tensors: the result has the shape
    of [index]; [index] may not have more rows than [logits]. *)
Fixpoint gather (logits : mat) (index : list (list Z)) : res mat :=
  match index, logits with
  | [], _ => Fin []
  | irow :: index', lrow :: logits' =>
      g <- gather_row lrow irow ;;
      gs <- gather logits' index' ;;
      Fin (g :: gs)
  | _ :: _, [] => Exn ShapeMismatch
  end.

(** ** RobertaForTriviaQuestionAnswering *)

Module RobertaForTriviaQuestionAnswering.

(** the value written over the masked slots, [-10000.0] *)
Definition sentinel : R := -10000.

(** [target == ignore_index] *)
Definition target_mask (target : list (list Z)) (ignore_index : Z)
  : list (list bool) :=
  map (map (fun t => Z.eqb t ignore_index)) target.

(** [target * (1 - target_mask.long())] *)
Definition masked_target (target : list (list Z)) (ignore_index : Z)
  : list (list Z) :=
  map (map (fun t => (t * (1 - (if Z.eqb t ignore_index then 1 else 0)))%Z))
      target.

(** [gathered_logits[target_mask] = -10000.0] *)
Definition fill_masked (gathered : mat) (msk : list (list bool)) : mat :=
  map (fun gm : list R * list bool =>
         map (fun xb : R * bool => if snd xb then sentinel else fst xb)
             (combine (fst gm) (snd gm)))
      (combine gathered msk).

(** [loss = -(log_score - log_norm)], elementwise on two vectors of
    [bsz] entries. *)
Definition neg_diff (log_score log_norm : list R) : list R :=
  map (fun sn : R * R => - (fst sn - snd sn)) (combine log_score log_norm).

Definition or_softmax_cross_entropy_loss_one_doc
  (logits : mat) (target : list (list Z)) (ignore_index : Z) : res R :=
  let bsz := length logits in
  let tmask := target_mask target ignore_index in
  let mtarget := masked_target target ignore_index in
  gathered_logits <- gather logits mtarget ;;
  let gathered_logits := fill_masked gathered_logits tmask in
  gathered_logits <- view_rows bsz gathered_logits ;;
  logits <- view_rows bsz logits ;;
  log_score <- mapM logsumexp gathered_logits ;;
  log_norm <- mapM logsumexp logits ;;
  let loss := neg_diff log_score log_norm in
  mean loss.

(** *** The loss as the specification words it *)

(** ln of the sum of the exponentials *)
Definition lse (row : list R) : R := ln (Rsum (map exp row)).

(** ignored slots replaced by the placeholder index 0 *)
Definition placeholder (trow : list Z) : list Z :=
  map (fun t => if Z.eqb t (-1) then 0%Z else t) trow.

(** the row gathered at the (placeholder) indices, then overwritten at the
    ignored slots *)
Definition g_row (row : list R) (trow : list Z) : list R :=
  map (fun tp : Z * Z => if Z.eqb (fst tp) (-1) then sentinel
                 else nth (Z.to_nat (snd tp)) row 0)
      (combine trow (placeholder trow)).

Definition example_loss (row : list R) (trow : list Z) : R :=
  lse row - lse (g_row row trow).

Definition marginal_span_loss (logits : mat) (target : list (list Z)) : R :=
  Rsum (map (fun rt : list R * list Z => example_loss (fst rt) (snd rt))
            (combine logits target))
  / INR (length logits).

(** every entry that is not ignored is a position of the row *)
Definition in_range (L : nat) (target : list (list Z)) : Prop :=
  Forall (Forall (fun t => t = (-1)%Z \/ (0 <= t < Z.of_nat L)%Z)) target.

End RobertaForTriviaQuestionAnswering.

(** ** Scalars under automatic differentiation

    The contrastive heads are trained by back-propagation, and part of what
    they do ([detach]) is visible only in the derivative.  A scalar of
    these heads is therefore a dual number: its value and its derivative
    along one (arbitrary) direction of the trainable inputs.  Every
    operation propagates the derivative by the chain rule; [detach] keeps
    the value and forgets the derivative. *)

Record dual : Type := Dual { val : R; tan : R }.

Definition dconst (x : R) : dual := Dual x 0.
Definition detach (a : dual) : dual := Dual (val a) 0.
Definition dadd (a b : dual) : dual := Dual (val a + val b) (tan a + tan b).
Definition dsub (a b : dual) : dual := Dual (val a - val b) (tan a - tan b).
Definition dneg (a : dual) : dual := Dual (- val a) (- tan a).
Definition dmul (a b : dual) : dual :=
  Dual (val a * val b) (tan a * val b + val a * tan b).
Definition dquot (a b : dual) : dual :=
  Dual (val a / val b) ((tan a * val b - val a * tan b) / (val b * val b)).
Definition dexp (a : dual) : dual := Dual (exp (val a)) (tan a * exp (val a)).
Definition dln (a : dual) : dual := Dual (ln (val a)) (tan a / val a).

(** the derivative of the absolute value, 0 at 0 *)
Definition sgn (x : R) : R :=
  if Rlt_dec 0 x then 1 else if Rlt_dec x 0 then -1 else 0.
Definition dabs (a : dual) : dual := Dual (Rabs (val a)) (tan a * sgn (val a)).

(** [a / b] for a scalar [b]: a zero divisor gives infinity or NaN. *)
Definition ddiv (a b : dual) : res dual :=
  if Req_dec_T (val b) 0 then NonFin else Fin (dquot a b).

Definition dsum (l : list dual) : dual := fold_right dadd (dconst 0) l.

(** [x.mean()] over all the entries *)
Definition dmean (l : list dual) : res dual :=
  match l with
  | [] => NonFin
  | _ => Fin (dquot (dsum l) (dconst (INR (length l))))
  end.

(** [F.logsigmoid(x)] = - ln (1 + exp (- x)) *)
Definition logsigmoid (x : dual) : dual :=
  dneg (dln (dadd (dconst 1) (dexp (dneg x)))).

(** [F.softmax(row, dim=-1)] *)
Definition softmax (row : list dual) : list dual :=
  let z := dsum (map dexp row) in map (fun x => dquot (dexp x) z) row.

(** [torch.logsumexp(row, dim=-1)] *)
Definition dlogsumexp (row : list dual) : res dual :=
  match row with
  | [] => NonFin
  | _ => Fin (dln (dsum (map dexp row)))
  end.

Fixpoint dpow (a : dual) (n : nat) : dual :=
  match n with
  | O => dconst 1
  | S n' => dmul a (dpow a n')
  end.

(** [torch.norm(v, p=p, dim=-1)]: the number of non-zero entries for
    [p = 0], the sum of the absolute values for [p = 1], and the [p]-th
    root of the sum of the [p]-th powers otherwise (derivative 0 at the
    zero vector). *)
Definition norm (p : nat) (v : list dual) : dual :=
  match p with
  | 0%nat =>
      dconst (Rsum (map (fun x => if Req_dec_T (val x) 0 then 0 else 1) v))
  | 1%nat => dsum (map dabs v)
  | _ =>
      let s := dsum (map (fun x => dpow (dabs x) p) v) in
      if Req_dec_T (val s) 0 then dconst 0
      else dexp (dmul (dconst (/ INR p)) (dln s))
  end.

(** *** Elementwise operations with broadcasting *)

(** One axis of a broadcast: equal sizes are zipped, a size-one axis is
    repeated, anything else is an error. *)
Definition bcast {A B C : Type} (f : A -> B -> res C)
  (xs : list A) (ys : list B) : res (list C) :=
  if Nat.eqb (length xs) (length ys)
  then mapM (fun xy : A * B => f (fst xy) (snd xy)) (combine xs ys)
  else match xs, ys with
       | [x], _ => mapM (f x) ys
       | _, [y] => mapM (fun x => f x y) xs
       | _, _ => Exn ShapeMismatch
       end.

Definition op0 (f : dual -> dual -> dual) (a b : dual) : res dual :=
  Fin (f a b).
Definition op1 (f : dual -> dual -> dual) := bcast (op0 f).
Definition op2 (f : dual -> dual -> dual) := bcast (op1 f).
Definition op3 (f : dual -> dual -> dual) := bcast (op2 f).

(** [x.unsqueeze(1)] on a 2-D tensor and [x.unsqueeze(-1)] on a vector *)
Definition unsqueeze1 {A : Type} (m : list (list A)) : list (list (list A)) :=
  map (fun r => [r]) m.
Definition unsqueeze_last {A : Type} (v : list A) : list (list A) :=
  map (fun x => [x]) v.

(** [torch.sum(a * b, dim=-1)] on 2-D tensors *)
Definition rowwise_dot (a b : list (list dual)) : res (list dual) :=
  prod <- op2 dmul a b ;; Fin (map dsum prod).

(** the inner product of two rows of equal length *)
Definition dotv (a b : list dual) : dual :=
  dsum (map (fun xy : dual * dual => dmul (fst xy) (snd xy)) (combine a b)).
Definition dot (a b : list dual) : res dual :=
  if Nat.eqb (length a) (length b) then Fin (dotv a b)
  else Exn ShapeMismatch.

(** [torch.matmul(a, torch.transpose(b, 0, 1))] *)
Definition matmul_nt (a b : list (list dual)) : res (list (list dual)) :=
  mapM (fun ai => mapM (fun bj => dot ai bj) b) a.

(** [torch.cat([a, b], dim=-1)] on 2-D tensors *)
Definition cat_last {A : Type} (a b : list (list A)) : res (list (list A)) :=
  if Nat.eqb (length a) (length b)
  then Fin (map (fun xy : list A * list A => fst xy ++ snd xy) (combine a b))
  else Exn ShapeMismatch.

(** [m.view(bsz, K, -1)] on a contiguous 2-D tensor *)
Definition view3 {A : Type} (bsz K : nat) (m : list (list A))
  : res (list (list (list A))) :=
  rows <- view_rows (bsz * K) m ;; Fin (chunks K bsz rows).

(** [cur_page_ids.unsqueeze(-1) == neg_page_ids.view(-1).unsqueeze(0)],
    as a float tensor; [negate] gives [!=]. *)
Definition page_mask (negate : bool) (cur_page_ids : list Z)
  (neg_page_ids : list (list Z)) : list (list dual) :=
  map (fun c => map (fun n => dconst (if xorb negate (Z.eqb c n) then 1 else 0))
                    (concat neg_page_ids))
      cur_page_ids.

(** [CrossEntropyLoss()(scores, labels)] with [labels = torch.zeros(bsz)]:
    the mean over the rows of [logsumexp(row) - row[0]]. *)
Definition cross_entropy_label0 (scores : list (list dual)) (bsz : nat)
  : res dual :=
  if Nat.eqb (length scores) bsz
  then
    per <- mapM (fun row =>
                   match row with
                   | [] => Exn IndexOutOfRange
                   | x :: _ => l <- dlogsumexp row ;; Fin (dsub l x)
                   end) scores ;;
    dmean per
  else Exn ShapeMismatch.

(** [entity_rep[:n]], [entity_rep[a:b]] and [entity_rep[n:]] *)
Definition upto {A : Type} (n : nat) (l : list A) : list A := firstn n l.
Definition slice {A : Type} (a b : nat) (l : list A) : list A :=
  firstn (b - a) (skipn a l).
Definition from {A : Type} (n : nat) (l : list A) : list A := skipn n l.

(** ** RobertaForTransE *)

Module RobertaForTransE.
Section Forward.

(** The token batch handed to the encoder ([input_ids] with its
    [attention_mask]), and the collaborators of the head: the two embedding
    tables, and [self.rel_head(self.roberta(input_ids, ...)[0])]. *)
Variable tokens : Type.
Variable ent_embeddings : Z -> list dual.
Variable rel_embeddings : Z -> list dual.
Variable roberta_rel_head : tokens -> list (list dual).

(** [self._gamma.item()], [self.bert_ceof] *)
Variable gamma : R.
Definition bert_ceof : R := 5 / 100.

Record inputs : Type := Inputs {
  input_ids : option tokens;
  e1_idx : list Z;
  e2_idx : list Z;
  neg_e1_idxs : option (list (list Z));
  neg_e2_idxs : option (list (list Z));
  relation_idx : option (list Z);
  subsampling_weight : option (list dual)
}.

Inductive output : Type :=
| Scores (negative_score : list (list dual))
| Loss (loss : dual).

(** [gamma - torch.norm(x, p=1, dim=-1)] on one vector *)
Definition score (x : list dual) : dual := dsub (dconst gamma) (norm 1 x).

(** The vectors [p_score] and [n_score] whose norms are taken. *)
Definition residuals (a : inputs)
  : res (list (list dual) * list (list (list dual))) :=
  let h := map ent_embeddings (e1_idx a) in
  let t := map ent_embeddings (e2_idx a) in
  match relation_idx a with
  | Some ridx =>
      let r := map rel_embeddings ridx in
      hr <- op2 dadd h r ;;
      p_score <- op2 dsub hr t ;;
      match neg_e1_idxs a, neg_e2_idxs a with
      | Some n1, _ =>
          let neg_h := map (map ent_embeddings) n1 in
          rt <- op2 dsub r t ;;
          n_score <- op3 dadd neg_h (unsqueeze1 rt) ;;
          Fin (p_score, n_score)
      | None, Some n2 =>
          let neg_t := map (map ent_embeddings) n2 in
          hr' <- op2 dadd h r ;;
          n_score <- op3 dsub (unsqueeze1 hr') neg_t ;;
          Fin (p_score, n_score)
      | None, None => Exn AssertionFailed
      end
  | None =>
      match input_ids a with
      | None => Exn MissingArgument
      | Some ids =>
          let r := map (map (dmul (dconst bert_ceof))) (roberta_rel_head ids) in
          hr <- op2 dadd h r ;;
          p_score <- op2 dsub hr t ;;
          match neg_e2_idxs a with
          | None => Exn MissingArgument
          | Some n2 =>
              let neg_t := map (map ent_embeddings) n2 in
              hr' <- op2 dadd h r ;;
              n_score <- op3 dsub (unsqueeze1 hr') neg_t ;;
              Fin (p_score, n_score)
          end
      end
  end.

(** [(F.softmax(negative_score * 1.0, dim = 1).detach()
      * F.logsigmoid(-negative_score)).sum(dim = 1)] on one row *)
Definition weighted_row (negative_score : list dual) : dual :=
  let w := map detach
               (softmax (map (fun s => dmul s (dconst 1)) negative_score)) in
  dsum (map (fun ws : dual * dual => dmul (fst ws) (snd ws))
            (combine w (map (fun s => logsigmoid (dneg s)) negative_score))).

Definition is_none {A : Type} (o : option A) : bool :=
  match o with None => true | Some _ => false end.

Definition forward (a : inputs) : res output :=
  ps <- residuals a ;;
  let p_score := fst ps in
  let n_score := snd ps in
  let negative_score := map (map score) n_score in
  if (is_none (input_ids a) && is_none (subsampling_weight a))%bool
  then Fin (Scores negative_score)
  else
    let positive_score := map score p_score in
    let negative_score := map weighted_row negative_score in
    let positive_score := map logsigmoid positive_score in
    losses <-
      match subsampling_weight a with
      | Some w =>
          wp <- op1 dmul w positive_score ;;
          pl <- ddiv (dsum wp) (dsum w) ;;
          wn <- op1 dmul w negative_score ;;
          nl <- ddiv (dsum wn) (dsum w) ;;
          Fin (dneg pl, dneg nl)
      | None =>
          pm <- dmean positive_score ;;
          nm <- dmean negative_score ;;
          Fin (dneg pm, dneg nm)
      end ;;
    let positive_sample_loss := fst losses in
    let negative_sample_loss := snd losses in
    Fin (Loss (dquot (dadd positive_sample_loss negative_sample_loss)
                     (dconst 2))).

End Forward.
End RobertaForTransE.

(** ** The listwise loss of [RobertaForMerge], [RobertaForTogether] and
    [RobertaForFix]

    [scores = torch.cat([pos_scores.unsqueeze(-1), neg_scores], dim=-1)],
    [labels = torch.zeros(bsz)], [CrossEntropyLoss()(scores, labels)] *)
Definition listwise_loss (bsz : nat) (pos_scores : list dual)
  (neg_scores : list (list dual)) : res dual :=
  scores <- cat_last (unsqueeze_last pos_scores) neg_scores ;;
  cross_entropy_label0 scores bsz.

(** ** RobertaForMerge *)

Module RobertaForMerge.

(** The loss of the training path ([lm_labels] absent, [is_eval] false).
    [entity_rep] is [self.ent_head(sequence_output[:, -1])], one row per
    sequence of the batch; [tmp] is
    [self.lm_head.decoder(sequence_output[0,0])]. *)
Definition forward (neg_K : nat) (entity_rep : list (list dual))
  (tmp : list dual) : res dual :=
  let bsz := (length entity_rep / (neg_K + 2))%nat in
  let query_rep := upto bsz entity_rep in
  let pos_rep := slice bsz (2 * bsz) entity_rep in
  neg_rep <- view3 bsz neg_K (from (2 * bsz) entity_rep) ;;
  pos_scores <- rowwise_dot query_rep pos_rep ;;
  neg_scores <- op3 dmul (unsqueeze1 query_rep) neg_rep ;;
  let neg_scores := map (map dsum) neg_scores in
  neg_scores <- view_rows bsz neg_scores ;;
  loss <- listwise_loss bsz pos_scores neg_scores ;;
  t <- dmean tmp ;;
  Fin (dadd loss (dmul (dconst 0) t)).

End RobertaForMerge.

(** ** The in-batch and the explicit negative scores of the listwise heads
    (the same statements in [RobertaForFix] and [RobertaForTogether]) *)

Definition in_batch_neg_scores (query_rep neg_rep : list (list dual))
  (cur_page_ids : list Z) (neg_page_ids : list (list Z))
  : res (list (list dual)) :=
  let loss_mask := page_mask false cur_page_ids neg_page_ids in
  neg_scores <- matmul_nt query_rep neg_rep ;;
  op2 dsub neg_scores (map (map (dmul (dconst 10000))) loss_mask).

Definition explicit_neg_scores (bsz neg_K : nat)
  (query_rep neg_rep : list (list dual)) : res (list (list dual)) :=
  neg_rep <- view3 bsz neg_K neg_rep ;;
  neg_scores <- op3 dmul (unsqueeze1 query_rep) neg_rep ;;
  let neg_scores := map (map dsum) neg_scores in
  view_rows bsz neg_scores.

(** ** RobertaForFix *)

Module RobertaForFix.

Record config : Type := Config { neg_K : nat; in_batch : bool }.

(** [__init__]: [self.in_batch = True] *)
Definition init (config_neg_K : nat) : config :=
  {| neg_K := config_neg_K; in_batch := true |}.

(** [entity_rep] is [self.lm_head(sequence_output[:, -1])], one row per
    sequence of [input_ids]. *)
Definition forward (self : config) (entity_rep : list (list dual))
  (cur_page_ids : list Z) (neg_page_ids : list (list Z)) : res dual :=
  let bsz := (length entity_rep / (neg_K self + 2))%nat in
  let query_rep := upto bsz entity_rep in
  let pos_rep := slice bsz (2 * bsz) entity_rep in
  let neg_rep := from (2 * bsz) entity_rep in
  pos_scores <- rowwise_dot query_rep pos_rep ;;
  neg_scores <-
    (if in_batch self
     then in_batch_neg_scores query_rep neg_rep cur_page_ids neg_page_ids
     else explicit_neg_scores bsz (neg_K self) query_rep neg_rep) ;;
  listwise_loss bsz pos_scores neg_scores.

End RobertaForFix.

(** ** RobertaForTogether *)

Module RobertaForTogether.

Record config : Type := Config {
  neg_K : nat;
  in_batch : bool;
  is_detach : bool;
  _gamma : R;
  p : option nat
}.

(** [__init__]: [self.in_batch = True], [self.is_detach = config.detach],
    [self._gamma = 5], [self.p = 1] *)
Definition init (config_neg_K : nat) (config_detach : bool) : config :=
  {| neg_K := config_neg_K; in_batch := true; is_detach := config_detach;
     _gamma := 5; p := Some 1%nat |}.

(** [x.detach()] on a 2-D tensor *)
Definition detach_all (m : list (list dual)) : list (list dual) :=
  map (map detach) m.

(** The negative term of the margin loss with in-batch negatives (the
    body of [if self.in_batch:] under [self.p] not [None]). *)
Definition in_batch_negative_sample_loss (self : config) (p : nat) (bsz : nat)
  (query_rep neg_rep : list (list dual))
  (cur_page_ids : list Z) (neg_page_ids : list (list Z)) : res dual :=
  let loss_mask := page_mask true cur_page_ids neg_page_ids in
  neg_rep <- view_rows (bsz * neg_K self) neg_rep ;;
  neg_scores <- op3 dsub (unsqueeze1 query_rep) [neg_rep] ;;
  let negative_score :=
    map (map (fun v => dsub (dconst (_gamma self)) (norm p v))) neg_scores in
  let valid := dsum (concat loss_mask) in
  negative_score <-
    op2 dmul (map (map (fun s => logsigmoid (dneg s))) negative_score)
        loss_mask ;;
  quotients <- mapM (mapM (fun x => ddiv x valid)) negative_score ;;
  Fin (dneg (dsum (concat quotients))).

(** The negative term with explicit negatives (the [else] branch). *)
Definition explicit_negative_sample_loss (self : config) (p : nat) (bsz : nat)
  (query_rep neg_rep : list (list dual)) : res dual :=
  neg_rep <- view3 bsz (neg_K self) neg_rep ;;
  neg_scores <- op3 dsub (unsqueeze1 query_rep) neg_rep ;;
  let negative_score :=
    map (map (fun v => dsub (dconst (_gamma self)) (norm p v))) neg_scores in
  let negative_score :=
    map (map (fun s => logsigmoid (dneg s))) negative_score in
  m <- dmean (concat negative_score) ;;
  Fin (dneg m).

(** The entity loss [ent_loss] of the training path ([is_eval] false), the
    second component of the returned triple; the first is [ent_loss] plus
    the masked-language-model loss, which the language-model head computes
    from the first [bsz] sequences.  [bsz] is [lm_labels.shape[0]] and
    [entity_rep] is [self.ent_head(sequence_output[bsz:, -1])]. *)
Definition ent_loss (self : config) (bsz : nat)
  (entity_rep : list (list dual))
  (cur_page_ids : list Z) (neg_page_ids : list (list Z)) : res dual :=
  let query_rep := upto bsz entity_rep in
  let pos_rep := detach_all (slice bsz (2 * bsz) entity_rep) in
  let neg_rep := detach_all (from (2 * bsz) entity_rep) in
  let pos_rep := if is_detach self then detach_all pos_rep else pos_rep in
  let neg_rep := if is_detach self then detach_all neg_rep else neg_rep in
  match p self with
  | None =>
      pos_scores <- rowwise_dot query_rep pos_rep ;;
      neg_scores <-
        (if in_batch self
         then in_batch_neg_scores query_rep neg_rep cur_page_ids neg_page_ids
         else explicit_neg_scores bsz (neg_K self) query_rep neg_rep) ;;
      listwise_loss bsz pos_scores neg_scores
  | Some p =>
      negative_sample_loss <-
        (if in_batch self
         then in_batch_negative_sample_loss self p bsz query_rep neg_rep
                cur_page_ids neg_page_ids
         else explicit_negative_sample_loss self p bsz query_rep neg_rep) ;;
      pos_scores <- op2 dsub query_rep pos_rep ;;
      let positive_score :=
        map (fun v => dsub (dconst (_gamma self)) (norm p v)) pos_scores in
      let positive_score := map logsigmoid positive_score in
      m <- dmean positive_score ;;
      let positive_sample_loss := dneg m in
      Fin (dquot (dadd positive_sample_loss negative_sample_loss) (dconst 2))
  end.

End RobertaForTogether.

(** ** Quantities the statements below speak about *)

(** the number of (query, candidate) pairs of the whole batch whose page
    ids differ *)
Definition valid_pairs (cur_page_ids negs : list Z) : nat :=
  length (filter (fun cm : Z * Z => negb (Z.eqb (fst cm) (snd cm)))
                 (list_prod cur_page_ids negs)).

(** the difference of two vectors of one width, entry by entry *)
Definition vsub (a b : list dual) : list dual :=
  map (fun xy : dual * dual => dsub (fst xy) (snd xy)) (combine a b).


(** the mean of a non-empty list *)
Definition dmean_of (l : list dual) : dual :=
  dquot (dsum l) (dconst (INR (length l))).

(** the softmax of the values of a row: real numbers, without derivative *)
Definition softmax_weights (row : list dual) : list R :=
  map (fun s => exp (val s) / Rsum (map (fun x => exp (val x)) row)) row.

(** [(mean_i (- log sigmoid pos_i)
      + mean_i (- sum_j w_ij * log sigmoid (- neg_ij))) / 2] with the
    weights [w_ij] entered as constants *)
Definition self_adversarial_loss (pos : list dual) (neg : list (list dual))
  : dual :=
  dquot
    (dadd
       (dmean_of (map (fun s => dneg (logsigmoid s)) pos))
       (dmean_of
          (map (fun row =>
                  dneg (dsum (map (fun ws : R * dual =>
                                     dmul (dconst (fst ws))
                                          (logsigmoid (dneg (snd ws))))
                                  (combine (softmax_weights row) row))))
               neg)))
    (dconst 2).

(** the sum of two vectors of one width, entry by entry *)
Definition vadd (a b : list dual) : list dual :=
  map (fun xy : dual * dual => dadd (fst xy) (snd xy)) (combine a b).

(** [gamma - ||a + r - b||_1], the translational-distance score of the
    triple (a, r, b) *)
Definition translational_score (gamma : R) (a r b : list dual) : dual :=
  dsub (dconst gamma) (dsum (map dabs (vsub (vadd a r) b))).

(** one example of a knowledge-embedding batch: the ids of the head and
    of the tail entity, the relation (its id when [relation_idx] is given,
    otherwise the vector that the relation head of the encoder returns for
    the example) and the ids of the entities of its negative triples *)
Record triple_sample : Type := Sample {
  head_id : Z;
  tail_id : Z;
  rel_id : Z;
  rel_enc : list dual;
  neg_ids : list Z
}.

(** ** Quantities of the further properties *)

(** a target entry that is neither ignored nor a position of a row of
    length [L] *)
Definition stray (L : nat) (t : Z) : Prop :=
  t <> (-1)%Z /\ (t < 0 \/ Z.of_nat L <= t)%Z.

(** ** RobertaEmbeddings *)

Module RobertaEmbeddings.

(** [self.padding_idx = 1] *)
Definition padding_idx : Z := 1.

(** [create_position_ids_from_inputs_embeds]: [inputs_embeds] has shape
    (batch, sequence, hidden); the ids
    [arange(padding_idx + 1, sequence_length + padding_idx + 1)] are
    repeated for every sequence of the batch. *)
Definition create_position_ids_from_inputs_embeds {A : Type}
  (inputs_embeds : list (list (list A))) : list (list Z) :=
  let bsz := length inputs_embeds in
  let sequence_length :=
    match inputs_embeds with [] => O | s :: _ => length s end in
  let position_ids :=
    map (fun k => (padding_idx + 1 + Z.of_nat k)%Z) (seq 0 sequence_length) in
  repeat position_ids bsz.

End RobertaEmbeddings.

(** ** [CrossEntropyLoss(ignore_index=k)] on real scores

    The mean, over the examples whose target is not [ignore_index], of
    [logsumexp(row) - row[target]]; a target that is neither ignored nor a
    class is an error, and the mean of no example is NaN. *)

Definition ce_term (ignore_index : Z) (row : list R) (t : Z)
  : res (option R) :=
  if Z.eqb t ignore_index then Fin None
  else if (Z.leb 0 t && Z.ltb t (Z.of_nat (length row)))%bool
       then l <- logsumexp row ;; Fin (Some (l - nth (Z.to_nat t) row 0))
       else Exn IndexOutOfRange.

Definition kept {A : Type} (l : list (option A)) : list A :=
  flat_map (fun o => match o with Some x => [x] | None => [] end) l.

Definition cross_entropy (ignore_index : Z) (logits : mat) (target : list Z)
  : res R :=
  if Nat.eqb (length logits) (length target)
  then
    terms <- mapM (fun rt : list R * Z =>
                     ce_term ignore_index (fst rt) (snd rt))
                  (combine logits target) ;;
    mean (kept terms)
  else Exn ShapeMismatch.

(** ** RobertaForQuestionAnswering *)

Module RobertaForQuestionAnswering.

(** [x.clamp_(lo, hi)] on one entry *)
Definition clamp (lo hi x : Z) : Z := Z.min (Z.max x lo) hi.

(** [m.size(1)] of a 2-D tensor *)
Definition size1 {A : Type} (m : list (list A)) : nat :=
  match m with [] => O | r :: _ => length r end.

(** The loss returned when both position vectors are given (one position
    per example).  [start_logits] and [end_logits] are the two halves of
    [self.qa_outputs(sequence_output)]. *)
Definition forward_total_loss (start_logits end_logits : mat)
  (start_positions end_positions : list Z) : res R :=
  let ignored_index := Z.of_nat (size1 start_logits) in
  let start_positions := map (clamp 0 ignored_index) start_positions in
  let end_positions := map (clamp 0 ignored_index) end_positions in
  start_loss <- cross_entropy ignored_index start_logits start_positions ;;
  end_loss <- cross_entropy ignored_index end_logits end_positions ;;
  Fin ((start_loss + end_loss) / 2).

End RobertaForQuestionAnswering.

(** the terms of the span-extraction loss that are kept: the examples
    whose position is below the sequence length, read at the position or
    at 0 when the position is negative *)
Definition qa_terms (L : nat) (logits : mat) (positions : list Z) : list R :=
  map (fun rt : list R * Z =>
         ln (Rsum (map exp (fst rt)))
         - nth (Z.to_nat (Z.max 0 (snd rt))) (fst rt) 0)
      (filter (fun rt : list R * Z => Z.ltb (snd rt) (Z.of_nat L))
              (combine logits positions)).

(** ** RobertaForTriviaQuestionAnswering.forward: the loss on segmented
    logits

    [forward] hands [or_softmax_cross_entropy_loss_one_doc] logits of
    shape (bsz, max_segment, seq_length) and positions of shape
    (bsz, max_segment, T): the gather runs along the last axis of the 3-D
    tensors and [view(bsz, -1)] flattens the segments afterwards. *)

(** [logits.gather(dim=-1, index)] on 3-D tensors *)
Fixpoint gather3 (logits : list mat) (index : list (list (list Z)))
  : res (list mat) :=
  match index, logits with
  | [], _ => Fin []
  | i :: index', l :: logits' =>
      g <- gather l i ;;
      gs <- gather3 logits' index' ;;
      Fin (g :: gs)
  | _ :: _, [] => Exn ShapeMismatch
  end.

Module RobertaForTriviaQuestionAnsweringForward.
Import RobertaForTriviaQuestionAnswering.

Definition or_softmax_cross_entropy_loss_one_doc
  (logits : list mat) (target : list (list (list Z))) (ignore_index : Z)
  : res R :=
  let bsz := length logits in
  let tmask := map (fun t => target_mask t ignore_index) target in
  let mtarget := map (fun t => masked_target t ignore_index) target in
  gathered_logits <- gather3 logits mtarget ;;
  let gathered_logits :=
    map (fun gm : mat * list (list bool) => fill_masked (fst gm) (snd gm))
        (combine gathered_logits tmask) in
  gathered_logits <- view_rows bsz (concat gathered_logits) ;;
  logits <- view_rows bsz (concat logits) ;;
  log_score <- mapM logsumexp gathered_logits ;;
  log_norm <- mapM logsumexp logits ;;
  let loss := neg_diff log_score log_norm in
  mean loss.

(** [total_loss = (start_loss + end_loss) / 2], computed when both
    position tensors are given *)
Definition forward_total_loss (start_logits end_logits : list mat)
  (start_positions end_positions : list (list (list Z))) : res R :=
  start_loss <-
    or_softmax_cross_entropy_loss_one_doc start_logits start_positions (-1) ;;
  end_loss <-
    or_softmax_cross_entropy_loss_one_doc end_logits end_positions (-1) ;;
  Fin ((start_loss + end_loss) / 2).

End RobertaForTriviaQuestionAnsweringForward.

(** the positions of the segments of one example, moved to the
    coordinates of the flattened example: position [t] of segment [s]
    becomes [s * L + t], an ignored slot stays ignored *)
Fixpoint flat_targets_from (L s : nat) (segments : list (list Z)) : list Z :=
  match segments with
  | [] => []
  | trow :: rest =>
      map (fun t => if Z.eqb t (-1) then (-1)%Z
                    else (Z.of_nat (s * L) + t)%Z) trow
      ++ flat_targets_from L (S s) rest
  end.

Definition flat_targets (L : nat) (segments : list (list Z)) : list Z :=
  flat_targets_from L 0 segments.

(** a 3-D tensor of shape (n, s, w) *)
Definition shape3 {A : Type} (n s w : nat) (t : list (list (list A))) : Prop :=
  length t = n /\ Forall (shape s w) t.

(** ** Masked language modelling: RobertaLMHead and the loss over the
    masked tokens *)

(** [torch.nonzero(v).view(-1)] on a 1-D integer tensor: the places of the
    non-zero entries, in increasing order *)
Fixpoint nonzero_from (k : nat) (v : list Z) : list Z :=
  match v with
  | [] => []
  | x :: v' =>
      if Z.eqb x 0 then nonzero_from (S k) v'
      else Z.of_nat k :: nonzero_from (S k) v'
  end.

Definition nonzero (v : list Z) : list Z := nonzero_from 0 v.

(** [torch.index_select(x, 0, index)]: every index must lie in
    [0, len(x)) *)
Definition index_select {A : Type} (x : list A) (index : list Z)
  : res (list A) :=
  mapM (fun i =>
          if (Z.leb 0 i && Z.ltb i (Z.of_nat (length x)))%bool
          then match nth_error x (Z.to_nat i) with
               | Some a => Fin a
               | None => Exn IndexOutOfRange
               end
          else Exn IndexOutOfRange) index.

(** [m.view(-1, w)] on a contiguous 2-D tensor *)
Definition view_width {A : Type} (w : nat) (m : list (list A))
  : res (list (list A)) :=
  let flat := concat m in
  let total := length flat in
  match w with
  | O => Exn ShapeMismatch
  | S _ =>
      if Nat.eqb (total mod w) 0
      then Fin (chunks w (total / w) flat)
      else Exn ShapeMismatch
  end.

Module RobertaLMHead.

(** the scores of all tokens, (batch, sequence, vocabulary), or of the
    selected tokens, (selected, vocabulary) *)
Inductive scores : Type :=
| AllTokens (x : list mat)
| SelectedTokens (x : mat).

Section Forward.

(** [layer_norm(gelu(dense(.)))] and [decoder] act on the last axis: each
    is a function of one token's vector. *)
Variable dense_gelu_layer_norm : list R -> list R.
Variable decoder : list R -> list R.

Definition forward (features : list mat)
  (masked_token_indexes : option (list Z)) : res scores :=
  let x := map (map dense_gelu_layer_norm) features in
  match masked_token_indexes with
  | Some masked_token_indexes =>
      x <- index_select (concat x) masked_token_indexes ;;
      Fin (SelectedTokens (map decoder x))
  | None => Fin (AllTokens (map (map decoder) x))
  end.

End Forward.

(** the rows of a score tensor, as [view(-1, vocab_size)] reads them *)
Definition rows (s : scores) : mat :=
  match s with
  | AllTokens x => concat x
  | SelectedTokens x => x
  end.

End RobertaLMHead.

(** The masked language modelling loss of [RobertaForMerge.forward] and of
    [RobertaForTogether.forward] (the same statements in both; the scores
    computed just before without indexes are overwritten). *)
Section MaskedLM.

Variable dense_gelu_layer_norm : list R -> list R.
Variable decoder : list R -> list R.
Variable vocab_size : nat.

Definition masked_lm_loss (sequence_output : list mat)
  (lm_labels : list (list Z)) : res R :=
  let masked_token_indexes :=
    nonzero (map (fun t => (t + 1)%Z) (concat lm_labels)) in
  prediction_scores <-
    RobertaLMHead.forward dense_gelu_layer_norm decoder sequence_output
      (Some masked_token_indexes) ;;
  target <- index_select (concat lm_labels) masked_token_indexes ;;
  prediction_scores <-
    view_width vocab_size (RobertaLMHead.rows prediction_scores) ;;
  cross_entropy (-1) prediction_scores target.

End MaskedLM.

(** the entries of [xs] that stand where [labels] is not -1 *)
Fixpoint unmasked {A : Type} (xs : list A) (labels : list Z) : list A :=
  match xs, labels with
  | x :: xs', l :: labels' =>
      if Z.eqb l (-1) then unmasked xs' labels'
      else x :: unmasked xs' labels'
  | _, _ => []
  end.

(** ** RobertaForPair: the contrastive entity loss

    [sequence_output] holds one vector per input sequence (the hidden
    state at the mask position), (bsz * K, dim), in row-major order of
    the (bsz, K) layout of [input_ids]. *)

Module RobertaForPair.
Section Forward.

(** [self.sim] on two vectors (the similarity along the last axis,
    broadcast over the others) *)
Variable sim : list R -> list R -> R.

(** [t[:, 0, :]] *)
Definition first_members (t : list mat) : res mat :=
  mapM (fun g : mat =>
          match g with
          | [] => Exn IndexOutOfRange
          | r :: _ => Fin r
          end) t.

Definition entity_loss (bsz K : nat) (sequence_output : mat) : res R :=
  sequence_output_reshape <- view3 bsz K sequence_output ;;
  z1 <- first_members sequence_output_reshape ;;
  let z3 := concat (map (fun g : mat => from 1 g) sequence_output_reshape) in
  let cos_sim := map (fun x => map (fun y => sim x y) z3) z1 in
  let labels :=
    map (fun i => (Z.of_nat i * (Z.of_nat K - 1))%Z) (seq 0 bsz) in
  cross_entropy (-1) cos_sim labels.

End Forward.
End RobertaForPair.

(** ** RobertaForWikihopMulti *)

(** real tensors: [a * b], and [a / b] where a zero divisor gives an
    infinity or NaN *)
Definition rmul (a b : R) : res R := Fin (a * b).
Definition rdiv (a b : R) : res R :=
  if Req_dec_T b 0 then NonFin else Fin (a / b).

(** the sum of a 2-D tensor of width [w] over its first axis *)
Definition sum_rows (w : nat) (m : mat) : list R :=
  map (fun j => Rsum (map (fun r => nth j r 0) m)) (seq 0 w).

Module RobertaForWikihopMulti.
Import RobertaForTriviaQuestionAnswering.

(** [gathered_logits], the candidate scores returned by [forward]:
    [logits] is [self.qa_outputs(sequence_output)] seen as
    (bsz, max_segment, seq_length), [cand_positions] is (bsz, candidates)
    and [instance_mask] is (bsz, max_segment). *)
Definition forward_scores (max_segment : nat) (logits : list mat)
  (cand_positions : list (list Z)) (instance_mask : mat) : res mat :=
  let ignore_index := (-1)%Z in
  let num_cands :=
    match cand_positions with [] => O | c :: _ => length c end in
  let target := map (fun c => repeat c max_segment) cand_positions in
  let tmask := map (fun t => target_mask t ignore_index) target in
  let mtarget := map (fun t => masked_target t ignore_index) target in
  gathered_logits <- gather3 logits mtarget ;;
  let gathered_logits :=
    map (fun gm : mat * list (list bool) => fill_masked (fst gm) (snd gm))
        (combine gathered_logits tmask) in
  weighted <-
    bcast (bcast (bcast rmul)) gathered_logits
          (map (@unsqueeze_last R) instance_mask) ;;
  let summed := map (sum_rows num_cands) weighted in
  bcast (bcast rdiv) summed (unsqueeze_last (map Rsum instance_mask)).

End RobertaForWikihopMulti.

(** the score of a candidate position [t] of one example: the mean,
    weighted by the instance mask, of what the position reads in each
    segment (the sentinel where the slot is ignored) *)
Definition candidate_score (segments : mat) (mask : list R) (t : Z) : R :=
  Rsum (map (fun rm : list R * R =>
               (if Z.eqb t (-1) then RobertaForTriviaQuestionAnswering.sentinel
                else nth (Z.to_nat t) (fst rm) 0) * snd rm)
            (combine segments mask))
  / Rsum mask.

(** ** RobertaForQuestionAnsweringHotpotSeg: the total loss

    Its [or_softmax_cross_entropy_loss_one_doc] is the one of
    [RobertaForTriviaQuestionAnswering].  [sent_logits] is [None] when
    [sent_start_mapping] is not given, and otherwise holds two scores per
    sentence, (bsz * max_segment, sentences, 2). *)

Module RobertaForQuestionAnsweringHotpotSeg.

Definition forward_total_loss (start_logits end_logits : list mat)
  (start_positions end_positions : list (list (list Z)))
  (sent_logits : option (list mat)) (sent_labels : option (list (list Z)))
  : res R :=
  start_loss <-
    RobertaForTriviaQuestionAnsweringForward.or_softmax_cross_entropy_loss_one_doc
      start_logits start_positions (-1) ;;
  end_loss <-
    RobertaForTriviaQuestionAnsweringForward.or_softmax_cross_entropy_loss_one_doc
      end_logits end_positions (-1) ;;
  match sent_logits with
  | None => Exn MissingArgument
  | Some sent_logits =>
      sent_logits <- view_width 2 (concat sent_logits) ;;
      match sent_labels with
      | None => Exn MissingArgument
      | Some sent_labels =>
          sent_loss <- cross_entropy (-1) sent_logits (concat sent_labels) ;;
          Fin ((start_loss + end_loss) / 2 + sent_loss)
      end
  end.

End RobertaForQuestionAnsweringHotpotSeg.

(** * Facts *)

(** ** The monad and the tensor helpers *)

Lemma mapM_Fin {A B : Type} (f : A -> res B) (g : A -> B) (l : list A) :
  Forall (fun a => f a = Fin (g a)) l -> mapM f l = Fin (map g l).
Proof.
  induction 1 as [|a l Ha _ IH]; simpl; [reflexivity|].
  now rewrite Ha, IH.
Qed.

Lemma mapM_length {A B : Type} (f : A -> res B) (l : list A) (bs : list B) :
  mapM f l = Fin bs -> length bs = length l.
Proof.
  revert bs; induction l as [|a l IH]; simpl; intros bs H.
  - now inversion H.
  - destruct (f a); simpl in H; try discriminate.
    destruct (mapM f l) as [bs'| |]; simpl in H; try discriminate.
    inversion H; subst; simpl; f_equal; now apply IH.
Qed.

Lemma shape_cons {A : Type} (n w : nat) (r : list A) (m : list (list A)) :
  shape (S n) w (r :: m) <-> length r = w /\ shape n w m.
Proof.
  unfold shape; simpl; split.
  - intros [Hn Hall]; inversion Hall; subst; repeat split; auto.
  - intros [Hr [Hn Hall]]; split; [now f_equal | now constructor].
Qed.

Lemma shape_nil_inv {A : Type} (n w : nat) : @shape A n w [] -> n = O.
Proof. now intros [H _]. Qed.

Lemma concat_shape_length {A : Type} (n w : nat) (m : list (list A)) :
  shape n w m -> length (concat m) = (n * w)%nat.
Proof.
  revert n; induction m as [|r m IH]; intros n H.
  - apply shape_nil_inv in H; now subst.
  - destruct n as [|n]; [destruct H; discriminate|].
    apply shape_cons in H as [Hr Hm].
    simpl; rewrite length_app, (IH _ Hm); lia.
Qed.

Lemma chunks_concat {A : Type} (n w : nat) (m : list (list A)) :
  shape n w m -> chunks w n (concat m) = m.
Proof.
  revert n; induction m as [|r m IH]; intros n H.
  - apply shape_nil_inv in H; now subst.
  - destruct n as [|n]; [destruct H; discriminate|].
    apply shape_cons in H as [Hr Hm]; simpl.
    rewrite <- Hr at 1 3.
    rewrite firstn_app, Nat.sub_diag, firstn_all, firstn_O, app_nil_r.
    rewrite skipn_app, Nat.sub_diag, skipn_all; simpl.
    now rewrite (IH _ Hm).
Qed.

(** On a tensor that already has [bsz] rows, [view(bsz, -1)] changes
    nothing. *)
Lemma view_rows_id {A : Type} (n w : nat) (m : list (list A)) :
  (0 < n)%nat -> shape n w m -> view_rows n m = Fin m.
Proof.
  intros Hn H; unfold view_rows.
  destruct n as [|n']; [lia|].
  rewrite (concat_shape_length _ _ _ H), (Nat.mul_comm (S n') w).
  rewrite Nat.Div0.mod_mul, Nat.eqb_refl.
  rewrite Nat.div_mul by lia.
  now rewrite (chunks_concat _ _ _ H).
Qed.

Lemma Rsum_exp_pos (row : list R) : row <> [] -> 0 < Rsum (map exp row).
Proof.
  destruct row as [|x row]; [congruence|intros _].
  revert x; induction row as [|y row IH]; intros x; simpl.
  - pose proof (exp_pos x); lra.
  - pose proof (exp_pos x); specialize (IH y); simpl in IH; lra.
Qed.

Lemma Rsum_app (l1 l2 : list R) : Rsum (l1 ++ l2) = Rsum l1 + Rsum l2.
Proof. induction l1; simpl; [lra | rewrite IHl1; lra]. Qed.

Lemma Rsum_perm (l1 l2 : list R) : Permutation l1 l2 -> Rsum l1 = Rsum l2.
Proof. induction 1; simpl; lra. Qed.

(** ** The marginal span loss *)

Section SpanLoss.
Import RobertaForTriviaQuestionAnswering.

Lemma logsumexp_lse (row : list R) :
  row <> [] -> logsumexp row = Fin (lse row).
Proof. destruct row; [congruence | reflexivity]. Qed.

(** One row of the numerator: the gather succeeds and, once the ignored
    slots are overwritten, gives the row [g_row] of the specification. *)
Lemma gather_row_g_row (L : nat) (row : list R) (trow : list Z) :
  length row = L -> (0 < L)%nat ->
  Forall (fun t => t = (-1)%Z \/ (0 <= t < Z.of_nat L)%Z) trow ->
  exists g,
    gather_row row
      (map (fun t => (t * (1 - (if Z.eqb t (-1) then 1 else 0)))%Z) trow)
      = Fin g
    /\ map (fun xb : R * bool => if snd xb then sentinel else fst xb)
           (combine g (map (fun t => Z.eqb t (-1)) trow))
       = g_row row trow.
Proof.
  intros HL Hpos Hall.
  induction Hall as [|t trow Ht _ [g [Hg Hfill]]].
  - exists []; split; reflexivity.
  - exists (nth (Z.to_nat (if Z.eqb t (-1) then 0 else t)) row 0 :: g).
    unfold gather_row in *. cbn [map mapM]. rewrite Hg. split.
    + destruct Ht as [->|Ht]; cbn [Z.eqb Pos.eqb].
      * replace (-1 * (1 - 1))%Z with 0%Z by lia.
        rewrite HL.
        replace (0 <=? 0)%Z with true by reflexivity.
        replace (0 <? Z.of_nat L)%Z with true by (symmetry; apply Z.ltb_lt; lia).
        destruct row as [|x row]; [simpl in HL; lia|]. reflexivity.
      * destruct (Z.eqb_spec t (-1)) as [E|_]; [lia|].
        replace (t * (1 - 0))%Z with t by lia.
        rewrite HL.
        replace (0 <=? t)%Z with true by (symmetry; apply Z.leb_le; lia).
        replace (t <? Z.of_nat L)%Z with true by (symmetry; apply Z.ltb_lt; lia).
        cbn [andb].
        destruct (nth_error row (Z.to_nat t)) as [x|] eqn:E.
        -- cbn [bind]. now rewrite (nth_error_nth _ _ _ E).
        -- apply nth_error_None in E. lia.
    + unfold g_row, placeholder in *. cbn [map combine fst snd].
      rewrite Hfill. reflexivity.
Qed.

(** The whole numerator tensor. *)
Lemma gather_fill (N L : nat) (logits : mat) (target : list (list Z)) :
  shape N L logits -> length target = N -> (0 < L)%nat ->
  in_range L target ->
  exists g,
    gather logits (masked_target target (-1)) = Fin g
    /\ fill_masked g (target_mask target (-1))
       = map (fun rt : list R * list Z => g_row (fst rt) (snd rt))
             (combine logits target).
Proof.
  intros Hs Ht Hpos Hr. revert N target Hs Ht Hr.
  induction logits as [|row logits IH]; intros N target Hs Ht Hr.
  - apply shape_nil_inv in Hs; subst.
    destruct target; [|discriminate]. exists []; split; reflexivity.
  - destruct N as [|N]; [destruct Hs; discriminate|].
    apply shape_cons in Hs as [Hrow Hs].
    destruct target as [|trow target]; [discriminate|].
    inversion Hr as [|? ? Htrow Hr']; subst.
    destruct (gather_row_g_row _ row trow eq_refl Hpos Htrow) as [g [Hg Hf]].
    destruct (IH _ target Hs ltac:(simpl in Ht; lia) Hr') as [gs [Hgs Hfs]].
    exists (g :: gs). unfold masked_target, target_mask, fill_masked in *.
    cbn [map gather combine fst snd]. rewrite Hg, Hgs. cbn [bind].
    split; [reflexivity|]. now rewrite Hf, Hfs.
Qed.

Lemma g_row_length (row : list R) (trow : list Z) :
  length (g_row row trow) = length trow.
Proof.
  unfold g_row, placeholder.
  now rewrite length_map, length_combine, length_map, Nat.min_id.
Qed.

Lemma mean_neg_diff (logits : mat) (target : list (list Z)) :
  length target = length logits -> logits <> [] ->
  mean (neg_diff
          (map lse (map (fun rt : list R * list Z => g_row (fst rt) (snd rt))
                        (combine logits target)))
          (map lse logits))
  = Fin (marginal_span_loss logits target).
Proof.
  intros Hlen Hne.
  assert (E : neg_diff
          (map lse (map (fun rt : list R * list Z => g_row (fst rt) (snd rt))
                        (combine logits target)))
          (map lse logits)
          = map (fun rt : list R * list Z => example_loss (fst rt) (snd rt))
                (combine logits target)).
  { clear Hne. revert target Hlen.
    induction logits as [|row logits IH]; intros [|trow target] Hlen;
      try discriminate; [reflexivity|].
    unfold neg_diff in *. cbn [map combine fst snd].
    rewrite IH by (simpl in Hlen; lia).
    f_equal. unfold example_loss. lra. }
  rewrite E. unfold mean, marginal_span_loss.
  destruct logits as [|row logits]; [congruence|].
  destruct target as [|trow target]; [discriminate|].
  cbn [combine map]. rewrite !length_cons, length_map, length_combine.
  simpl in Hlen. replace (Nat.min (length logits) (length target))
    with (length logits) by lia.
  reflexivity.
Qed.

End SpanLoss.

Section SpanLossValue.
Import RobertaForTriviaQuestionAnswering.

Lemma g_rows_shape (N T : nat) (logits : mat) (target : list (list Z)) :
  length logits = N -> shape N T target ->
  shape N T (map (fun rt : list R * list Z => g_row (fst rt) (snd rt))
                 (combine logits target)).
Proof.
  intros Hl [Ht Hall]; split.
  - rewrite length_map, length_combine; lia.
  - apply Forall_forall; intros g Hin.
    apply in_map_iff in Hin as [[row trow] [<- Hin]].
    apply in_combine_r in Hin. rewrite g_row_length.
    now apply (proj1 (Forall_forall _ _) Hall).
Qed.

Lemma nonempty_rows {A : Type} (N w : nat) (m : list (list A)) :
  (0 < w)%nat -> shape N w m -> Forall (fun r => r <> []) m.
Proof.
  intros Hw [_ Hall]. eapply Forall_impl; [|exact Hall].
  intros r Hr ->. simpl in Hr. lia.
Qed.

Lemma mapM_logsumexp (m : mat) :
  Forall (fun r => r <> []) m -> mapM logsumexp m = Fin (map lse m).
Proof.
  intros H. apply mapM_Fin. eapply Forall_impl; [|exact H].
  intros r Hr. now apply logsumexp_lse.
Qed.

(** The value of the source function on well-shaped input. *)
Lemma or_softmax_value (N L T : nat) (logits : mat) (target : list (list Z)) :
  (0 < N)%nat -> (0 < L)%nat -> (0 < T)%nat ->
  shape N L logits -> shape N T target -> in_range L target ->
  or_softmax_cross_entropy_loss_one_doc logits target (-1)
  = Fin (marginal_span_loss logits target).
Proof.
  intros HN HL HT Hlog Htar Hr.
  unfold or_softmax_cross_entropy_loss_one_doc.
  destruct (gather_fill N L logits target Hlog (proj1 Htar) HL Hr)
    as [g [Hg Hfill]].
  rewrite Hg. cbn [bind]. rewrite Hfill.
  pose proof (g_rows_shape N T logits target (proj1 Hlog) Htar) as Hgs.
  rewrite (proj1 Hlog).
  rewrite (view_rows_id N T _ HN Hgs). cbn [bind].
  rewrite (view_rows_id N L _ HN Hlog). cbn [bind].
  rewrite (mapM_logsumexp _ (nonempty_rows N T _ HT Hgs)). cbn [bind].
  rewrite (mapM_logsumexp _ (nonempty_rows N L _ HL Hlog)). cbn [bind].
  apply mean_neg_diff.
  - destruct Hlog, Htar; lia.
  - destruct Hlog as [Hlen _]. destruct logits; [simpl in Hlen; lia|congruence].
Qed.

Lemma Rsum_exp_repeat (s : R) (T : nat) :
  Rsum (map exp (repeat s T)) = INR T * exp s.
Proof.
  induction T as [|T IH]; [simpl; lra|].
  rewrite S_INR. cbn [repeat map Rsum fold_right].
  change (fold_right Rplus 0 (map exp (repeat s T)))
    with (Rsum (map exp (repeat s T))).
  rewrite IH. lra.
Qed.

Lemma g_row_all_ignored (row : list R) (trow : list Z) :
  Forall (fun t => t = (-1)%Z) trow ->
  g_row row trow = repeat sentinel (length trow).
Proof.
  unfold g_row, placeholder.
  induction 1 as [|t trow -> _ IH]; [reflexivity|].
  cbn [map combine fst length repeat]. now rewrite IH.
Qed.

(** The numerator of a row without any valid target. *)
Lemma lse_all_ignored (row : list R) (trow : list Z) :
  trow <> [] -> Forall (fun t => t = (-1)%Z) trow ->
  lse (g_row row trow) = ln (INR (length trow)) - 10000.
Proof.
  intros Hne Hall. rewrite (g_row_all_ignored _ _ Hall).
  unfold lse. rewrite Rsum_exp_repeat.
  assert (0 < INR (length trow)).
  { apply lt_0_INR. destruct trow; [congruence|simpl; lia]. }
  rewrite ln_mult by (auto; apply exp_pos).
  rewrite ln_exp. unfold sentinel. lra.
Qed.

End SpanLossValue.

(** ** Statements on the marginal span loss *)

Section SpanLossTheorems.
Import RobertaForTriviaQuestionAnswering.

(** Side conditions of [or_softmax_value] on literal tensors. *)
Ltac span_side :=
  first [ lia
        | split; [reflexivity | repeat constructor]
        | repeat constructor; lia ].



(** C6: a target row made only of [ignore_index] raises nothing and keeps
    the loss a real number: the numerator of that example is
    [ln T_max - 10000], the logsumexp of a row of sentinels (negative as
    long as [T_max < exp 10000]), and the example contributes
    [logsumexp(row) + 10000 - ln T_max] to the mean. *)
Theorem all_ignored_row_gives_finite_loss
  (N L T : nat) (logits : mat) (target : list (list Z)) :
  (0 < N)%nat -> (0 < L)%nat -> (0 < T)%nat ->
  shape N L logits -> shape N T target -> in_range L target ->
  exists v : R,
    or_softmax_cross_entropy_loss_one_doc logits target (-1) = Fin v
    /\ v = Rsum (map (fun rt : list R * list Z =>
                        lse (fst rt) - lse (g_row (fst rt) (snd rt)))
                     (combine logits target)) / INR N
    /\ forall (i : nat) (row : list R) (trow : list Z),
         nth_error logits i = Some row ->
         nth_error target i = Some trow ->
         Forall (fun t => t = (-1)%Z) trow ->
         lse (g_row row trow) = ln (INR T) - 10000
         /\ (INR T < exp 10000 -> lse (g_row row trow) < 0)
         /\ lse row - lse (g_row row trow) = lse row + 10000 - ln (INR T).
Proof.
  intros HN HL HT Hlog Htar Hr.
  eexists; split; [apply (or_softmax_value N L T); assumption|].
  split.
  - unfold marginal_span_loss, example_loss. now rewrite (proj1 Hlog).
  - intros i row trow _ Htrow Hall.
    assert (Hlen : length trow = T).
    { destruct Htar as [_ Hw].
      apply (proj1 (Forall_forall _ _) Hw). eapply nth_error_In; eauto. }
    assert (Hne : trow <> []) by (intros ->; simpl in Hlen; lia).
    rewrite (lse_all_ignored row trow Hne Hall), Hlen.
    split; [lra | split; [|lra]].
    intros Hsmall.
    assert (ln (INR T) < ln (exp 10000)).
    { apply ln_increasing; [apply lt_0_INR; lia | exact Hsmall]. }
    rewrite ln_exp in H. lra.
Qed.

Lemma all_ignored_row_gives_finite_loss_witness :
  exists v : R,
    or_softmax_cross_entropy_loss_one_doc
      [[5; 1; 1; 1]; [2; 0; 3; 1]] [[-1; -1]; [2; 3]]%Z (-1) = Fin v
    /\ v = Rsum (map (fun rt : list R * list Z =>
                        lse (fst rt) - lse (g_row (fst rt) (snd rt)))
                     (combine [[5; 1; 1; 1]; [2; 0; 3; 1]]
                              [[-1; -1]; [2; 3]]%Z)) / INR 2
    /\ forall (i : nat) (row : list R) (trow : list Z),
         nth_error [[5; 1; 1; 1]; [2; 0; 3; 1]] i = Some row ->
         nth_error [[-1; -1]; [2; 3]]%Z i = Some trow ->
         Forall (fun t => t = (-1)%Z) trow ->
         lse (g_row row trow) = ln (INR 2) - 10000
         /\ (INR 2 < exp 10000 -> lse (g_row row trow) < 0)
         /\ lse row - lse (g_row row trow) = lse row + 10000 - ln (INR 2).
Proof.
  apply (all_ignored_row_gives_finite_loss 2 4 2); try lia.
  - split; [reflexivity | repeat constructor].
  - split; [reflexivity | repeat constructor].
  - repeat constructor; lia.
Defined.

(** C7: on the single row [5, 4, 1, 1], the loss with the two gold
    positions 0 and 1 has the numerator [logsumexp([5, 4])]; with one of
    them alone the numerator is [logsumexp([5, -10000])] or
    [logsumexp([4, -10000])] when the missing slot is padded with
    [ignore_index], and [logsumexp([5])] or [logsumexp([4])] when the
    target row has width one.  The two-gold numerator is strictly above
    each of the four, and the two-gold loss strictly below each of the
    four losses. *)
Theorem two_gold_positions_lower_the_loss :
  let row := [5; 4; 1; 1] in
  or_softmax_cross_entropy_loss_one_doc [row] [[0; 1]]%Z (-1)
    = Fin (lse row - lse [5; 4])
  /\ or_softmax_cross_entropy_loss_one_doc [row] [[0; -1]]%Z (-1)
    = Fin (lse row - lse [5; -10000])
  /\ or_softmax_cross_entropy_loss_one_doc [row] [[1; -1]]%Z (-1)
    = Fin (lse row - lse [4; -10000])
  /\ or_softmax_cross_entropy_loss_one_doc [row] [[0]]%Z (-1)
    = Fin (lse row - lse [5])
  /\ or_softmax_cross_entropy_loss_one_doc [row] [[1]]%Z (-1)
    = Fin (lse row - lse [4])
  /\ lse [5; -10000] < lse [5; 4] /\ lse [4; -10000] < lse [5; 4]
  /\ lse [5] < lse [5; 4] /\ lse [4] < lse [5; 4]
  /\ lse row - lse [5; 4] < lse row - lse [5; -10000]
  /\ lse row - lse [5; 4] < lse row - lse [4; -10000]
  /\ lse row - lse [5; 4] < lse row - lse [5]
  /\ lse row - lse [5; 4] < lse row - lse [4].
Proof.
  intros row.
  assert (Hval : forall (T : nat) (trow : list Z),
            (0 < T)%nat -> length trow = T ->
            Forall (fun t => t = (-1)%Z \/ (0 <= t < Z.of_nat 4)%Z) trow ->
            or_softmax_cross_entropy_loss_one_doc [row] [trow] (-1)
            = Fin (lse row - lse (g_row row trow))).
  { intros T trow HT Hlen Hr.
    rewrite (or_softmax_value 1 4 T); try lia.
    - unfold marginal_span_loss, example_loss.
      cbn [combine map fst snd Rsum fold_right length INR]. f_equal. lra.
    - split; [reflexivity | repeat constructor].
    - split; [reflexivity | repeat constructor; exact Hlen].
    - repeat constructor. exact Hr. }
  assert (G : forall trow, g_row row trow
                = map (fun t => if Z.eqb t (-1) then sentinel
                                else nth (Z.to_nat t) row 0) trow).
  { intros trow. unfold g_row, placeholder.
    induction trow as [|t trow IH]; [reflexivity|].
    cbn [map combine fst snd]. rewrite IH. f_equal.
    destruct (Z.eqb t (-1)); reflexivity. }
  pose proof (exp_pos 5) as H5. pose proof (exp_pos 4) as H4.
  pose proof (exp_pos (-10000)) as Hs.
  assert (Hs4 : exp (-10000) < exp 4) by (apply exp_increasing; lra).
  assert (H45 : exp 4 < exp 5) by (apply exp_increasing; lra).
  assert (N1 : lse [5; -10000] < lse [5; 4]).
  { unfold lse. cbn [map Rsum fold_right]. apply ln_increasing; lra. }
  assert (N2 : lse [4; -10000] < lse [5; 4]).
  { unfold lse. cbn [map Rsum fold_right]. apply ln_increasing; lra. }
  assert (N3 : lse [5] < lse [5; 4]).
  { unfold lse. cbn [map Rsum fold_right]. apply ln_increasing; lra. }
  assert (N4 : lse [4] < lse [5; 4]).
  { unfold lse. cbn [map Rsum fold_right]. apply ln_increasing; lra. }
  split; [rewrite (Hval 2%nat) by (repeat constructor; lia);
          now rewrite G|].
  split; [rewrite (Hval 2%nat) by (repeat constructor; lia);
          now rewrite G|].
  split; [rewrite (Hval 2%nat) by (repeat constructor; lia);
          now rewrite G|].
  split; [rewrite (Hval 1%nat) by (repeat constructor; lia);
          now rewrite G|].
  split; [rewrite (Hval 1%nat) by (repeat constructor; lia);
          now rewrite G|].
  repeat split; try assumption; lra.
Qed.

(** C10: gold indices are not deduplicated.  When a valid index [t] fills
    two slots of the target row of an example, the gather returns the
    logit [x = row[t]] twice, the numerator is [logsumexp([x, x])], that is
    [x + ln 2], and the loss [logsumexp(row) - x - ln 2] is strictly
    negative as soon as [exp x] outweighs the other logits of the row. *)
Theorem duplicated_gold_index_gives_negative_loss
  (row : list R) (t : Z) :
  (0 <= t < Z.of_nat (length row))%Z ->
  Rsum (map exp row) < 2 * exp (nth (Z.to_nat t) row 0) ->
  let x := nth (Z.to_nat t) row 0 in
  gather [row] (masked_target [[t; t]] (-1)) = Fin [[x; x]]
  /\ or_softmax_cross_entropy_loss_one_doc [row] [[t; t]] (-1)
     = Fin (lse row - lse [x; x])
  /\ lse [x; x] = x + ln 2
  /\ lse row - lse [x; x] < 0.
Proof.
  intros Ht Hdom x.
  assert (HL : (0 < length row)%nat) by lia.
  assert (Hne : Z.eqb t (-1) = false) by (apply Z.eqb_neq; lia).
  assert (Hlse : lse [x; x] = x + ln 2).
  { unfold lse. cbn [map Rsum fold_right].
    replace (exp x + (exp x + 0)) with (2 * exp x) by lra.
    rewrite ln_mult by (try apply exp_pos; lra). rewrite ln_exp. lra. }
  split; [|split; [|split]].
  - unfold masked_target. cbn [map gather]. rewrite Hne.
    replace (t * (1 - 0))%Z with t by lia.
    unfold gather_row. cbn [mapM].
    replace ((0 <=? t)%Z && (t <? Z.of_nat (length row))%Z)%bool with true
      by (symmetry; apply andb_true_iff; split;
          [apply Z.leb_le | apply Z.ltb_lt]; lia).
    rewrite (nth_error_nth' row 0) by lia. reflexivity.
  - rewrite (or_softmax_value 1 (length row) 2); try lia.
    + unfold marginal_span_loss, example_loss.
      cbn [combine map fst snd Rsum fold_right length INR].
      unfold g_row, placeholder. cbn [map combine fst snd]. rewrite Hne.
      fold x. f_equal. lra.
    + split; [reflexivity | repeat constructor].
    + split; [reflexivity | repeat constructor].
    + repeat constructor; lia.
  - exact Hlse.
  - rewrite Hlse. unfold lse.
    assert (Hpos : 0 < Rsum (map exp row)).
    { apply Rsum_exp_pos. destruct row; [simpl in HL; lia | discriminate]. }
    pose proof (ln_increasing _ _ Hpos Hdom) as Hln.
    rewrite ln_mult in Hln by (try apply exp_pos; lra).
    rewrite ln_exp in Hln. fold x in Hln. lra.
Qed.

Lemma duplicated_gold_index_gives_negative_loss_witness :
  gather [[3; 1]] (masked_target [[0; 0]]%Z (-1)) = Fin [[3; 3]]
  /\ or_softmax_cross_entropy_loss_one_doc [[3; 1]] [[0; 0]]%Z (-1)
     = Fin (lse [3; 1] - lse [3; 3])
  /\ lse [3; 3] = 3 + ln 2
  /\ lse [3; 1] - lse [3; 3] < 0.
Proof.
  apply (duplicated_gold_index_gives_negative_loss [3; 1] 0%Z).
  - simpl. lia.
  - cbn [map Rsum fold_right nth Z.to_nat].
    assert (exp 1 < exp 3) by (apply exp_increasing; lra). lra.
Defined.

End SpanLossTheorems.

(** ** Dual numbers and broadcasting *)

Lemma dual_eq (a b : dual) : val a = val b -> tan a = tan b -> a = b.
Proof. destruct a, b; simpl; intros -> ->; reflexivity. Qed.

Lemma dadd_comm (a b : dual) : dadd a b = dadd b a.
Proof. apply dual_eq; simpl; lra. Qed.

Lemma dadd_assoc (a b c : dual) : dadd a (dadd b c) = dadd (dadd a b) c.
Proof. apply dual_eq; simpl; lra. Qed.

Lemma dsum_perm (l l' : list dual) : Permutation l l' -> dsum l = dsum l'.
Proof.
  induction 1 as [| x l l' _ IH | x y l | l l' l'' _ IH1 _ IH2]; simpl.
  - reflexivity.
  - now rewrite IH.
  - now rewrite !dadd_assoc, (dadd_comm y x).
  - now rewrite IH1.
Qed.

Lemma detach_idem (a : dual) : detach (detach a) = detach a.
Proof. reflexivity. Qed.

Lemma detach_all_idem (m : list (list dual)) :
  RobertaForTogether.detach_all (RobertaForTogether.detach_all m)
  = RobertaForTogether.detach_all m.
Proof.
  unfold RobertaForTogether.detach_all. rewrite map_map.
  apply map_ext; intros r. rewrite map_map. now apply map_ext.
Qed.

Lemma mapM_ext {A B : Type} (f g : A -> res B) (l : list A) :
  (forall a, In a l -> f a = g a) -> mapM f l = mapM g l.
Proof.
  induction l as [|a l IH]; intros H; simpl; [reflexivity|].
  rewrite (H a (or_introl eq_refl)), IH; [reflexivity|].
  intros b Hb; apply H; now right.
Qed.

Lemma bcast_same {A B C : Type} (f : A -> B -> res C) xs ys :
  length xs = length ys ->
  bcast f xs ys = mapM (fun xy : A * B => f (fst xy) (snd xy)) (combine xs ys).
Proof. intros H; unfold bcast. now rewrite H, Nat.eqb_refl. Qed.

Lemma bcast_one_r {A B C : Type} (f : A -> B -> res C) xs (y : B) :
  bcast f xs [y] = mapM (fun x => f x y) xs.
Proof.
  unfold bcast. destruct xs as [|x [|x' xs]]; try reflexivity.
Qed.

Lemma bcast_one_l {A B C : Type} (f : A -> B -> res C) (x : A) ys :
  bcast f [x] ys = mapM (f x) ys.
Proof.
  unfold bcast. destruct ys as [|y [|y' ys]]; try reflexivity.
Qed.

(** ** The listwise loss *)

(** C4: the listwise softmax cross-entropy, with logits
    [positive_score :: negative_scores] and gold label 0, does not change
    (in value or in derivative) when the negative scores of each query are
    permuted. *)
Theorem listwise_loss_permutation_invariant
  (bsz : nat) (pos_scores : list dual) (neg_scores neg_scores' : list (list dual)) :
  Forall2 (@Permutation dual) neg_scores neg_scores' ->
  listwise_loss bsz pos_scores neg_scores
  = listwise_loss bsz pos_scores neg_scores'.
Proof.
  intros Hperm. unfold listwise_loss, cat_last.
  rewrite <- (Forall2_length Hperm).
  destruct (Nat.eqb _ _); [|reflexivity]. cbn [bind].
  unfold cross_entropy_label0. rewrite !length_map, !length_combine.
  rewrite <- (Forall2_length Hperm).
  destruct (Nat.eqb _ _); [|reflexivity].
  f_equal. unfold unsqueeze_last.
  revert pos_scores. induction Hperm as [|n n' ns ns' Hn _ IH];
    intros [|x pos_scores]; try reflexivity.
  cbn [map combine mapM fst snd app]. rewrite IH.
  unfold dlogsumexp. cbn [map dsum fold_right].
  change (fold_right dadd (dconst 0)) with dsum.
  now rewrite (dsum_perm _ _ (Permutation_map dexp Hn)).
Qed.

Lemma listwise_loss_permutation_invariant_witness :
  listwise_loss 2 [dconst 1; dconst 2]
    [[dconst 3; dconst 4; dconst 5]; [dconst 6; dconst 7; dconst 8]]
  = listwise_loss 2 [dconst 1; dconst 2]
    [[dconst 5; dconst 3; dconst 4]; [dconst 7; dconst 6; dconst 8]].
Proof.
  apply listwise_loss_permutation_invariant.
  constructor; [|constructor; [|constructor]].
  - apply Permutation_sym. apply (Permutation_cons_app [dconst 3; dconst 4] []).
    apply Permutation_refl.
  - apply perm_swap.
Defined.

(** ** The detach flag of RobertaForTogether *)

(** C8 (the code departs from it): [is_detach] changes nothing.  Whatever
    the flag, the entity loss and its derivative are those of the batch
    whose rows after the queries (the positives and the negatives) are
    constants: no derivative reaches them even with the flag unset. *)
Theorem is_detach_flag_is_dead
  (K : nat) (ib : bool) (g : R) (p : option nat) (bsz : nat)
  (entity_rep : list (list dual))
  (cur_page_ids : list Z) (neg_page_ids : list (list Z)) :
  RobertaForTogether.ent_loss (RobertaForTogether.Config K ib false g p)
    bsz entity_rep cur_page_ids neg_page_ids
  = RobertaForTogether.ent_loss (RobertaForTogether.Config K ib true g p)
    bsz entity_rep cur_page_ids neg_page_ids
  /\ RobertaForTogether.ent_loss (RobertaForTogether.Config K ib false g p)
    bsz entity_rep cur_page_ids neg_page_ids
  = RobertaForTogether.ent_loss (RobertaForTogether.Config K ib false g p)
    bsz (upto bsz entity_rep
         ++ RobertaForTogether.detach_all (from bsz entity_rep))
    cur_page_ids neg_page_ids.
Proof.
  split.
  - unfold RobertaForTogether.ent_loss.
    cbn [RobertaForTogether.is_detach RobertaForTogether.p
         RobertaForTogether.in_batch RobertaForTogether.neg_K
         RobertaForTogether._gamma].
    now rewrite !detach_all_idem.
  - unfold RobertaForTogether.ent_loss.
    cbn [RobertaForTogether.is_detach RobertaForTogether.p
         RobertaForTogether.in_batch RobertaForTogether.neg_K
         RobertaForTogether._gamma].
    set (E' := upto bsz entity_rep
               ++ RobertaForTogether.detach_all (from bsz entity_rep)).
    assert (Hq : upto bsz E' = upto bsz entity_rep).
    { unfold E', upto, from.
      destruct (Nat.le_gt_cases bsz (length entity_rep)) as [Hle|Hgt].
      - rewrite firstn_app, length_firstn, Nat.min_l by exact Hle.
        rewrite Nat.sub_diag, firstn_O, app_nil_r. now rewrite firstn_firstn, Nat.min_id.
      - rewrite skipn_all2 by lia. cbn. rewrite app_nil_r.
        now rewrite firstn_firstn, Nat.min_id. }
    assert (Hrest : from bsz E'
                    = RobertaForTogether.detach_all (from bsz entity_rep)).
    { unfold E', upto, from.
      destruct (Nat.le_gt_cases bsz (length entity_rep)) as [Hle|Hgt].
      - rewrite skipn_app, length_firstn, Nat.min_l by exact Hle.
        rewrite Nat.sub_diag. cbn [skipn].
        rewrite skipn_all2; [reflexivity|]. rewrite length_firstn; lia.
      - rewrite (skipn_all2 entity_rep) by lia. cbn. rewrite app_nil_r.
        apply skipn_all2. rewrite length_firstn; lia. }
    assert (Hp : RobertaForTogether.detach_all (slice bsz (2 * bsz) E')
                 = RobertaForTogether.detach_all
                     (slice bsz (2 * bsz) entity_rep)).
    { unfold slice. change (skipn bsz E') with (from bsz E').
      rewrite Hrest. unfold RobertaForTogether.detach_all, from.
      rewrite firstn_map, map_map.
      rewrite (map_ext (fun r => map detach (map detach r)) (map detach));
        [reflexivity|].
      intros r; rewrite map_map; now apply map_ext. }
    assert (Hn : RobertaForTogether.detach_all (from (2 * bsz) E')
                 = RobertaForTogether.detach_all (from (2 * bsz) entity_rep)).
    { unfold from. replace (2 * bsz)%nat with (bsz + bsz)%nat by lia.
      rewrite <- !skipn_skipn. change (skipn bsz E') with (from bsz E').
      rewrite Hrest. unfold RobertaForTogether.detach_all, from.
      rewrite skipn_map, map_map.
      rewrite (map_ext (fun r => map detach (map detach r)) (map detach));
        [reflexivity|].
      intros r; rewrite map_map; now apply map_ext. }
    now rewrite Hq, Hp, Hn.
Qed.

Lemma combine_map {A B A' B' : Type} (f : A -> A') (g : B -> B') l l' :
  combine (map f l) (map g l')
  = map (fun xy : A * B => (f (fst xy), g (snd xy))) (combine l l').
Proof.
  revert l'; induction l as [|a l IH]; intros [|b l']; simpl; try reflexivity.
  now rewrite IH.
Qed.

Lemma combine_map_l {A B A' : Type} (f : A -> A') (l : list A) (l' : list B) :
  combine (map f l) l'
  = map (fun xy : A * B => (f (fst xy), snd xy)) (combine l l').
Proof.
  revert l'; induction l as [|a l IH]; intros [|b l']; simpl; try reflexivity.
  now rewrite IH.
Qed.

Lemma combine_map_r {A B B' : Type} (g : B -> B') (l : list A) (l' : list B) :
  combine l (map g l')
  = map (fun xy : A * B => (fst xy, g (snd xy))) (combine l l').
Proof.
  revert l'; induction l as [|a l IH]; intros [|b l']; simpl; try reflexivity.
  now rewrite IH.
Qed.

Lemma nth_error_combine {A B : Type} (l : list A) (l' : list B) i a b :
  nth_error l i = Some a -> nth_error l' i = Some b ->
  nth_error (combine l l') i = Some (a, b).
Proof.
  revert l l'; induction i as [|i IH]; intros [|x l] [|y l'] Ha Hb;
    simpl in *; try discriminate.
  - now inversion Ha; inversion Hb.
  - now apply IH.
Qed.

Lemma op1_zip (f : dual -> dual -> dual) (xs ys : list dual) :
  length xs = length ys ->
  op1 f xs ys
  = Fin (map (fun xy : dual * dual => f (fst xy) (snd xy)) (combine xs ys)).
Proof.
  intros H. unfold op1. rewrite (bcast_same _ _ _ H).
  apply mapM_Fin. apply Forall_forall. reflexivity.
Qed.

Lemma op2_zip (f : dual -> dual -> dual) (A B : list (list dual)) :
  length A = length B ->
  (forall a b, In (a, b) (combine A B) -> length a = length b) ->
  op2 f A B
  = Fin (map (fun ab : list dual * list dual =>
                map (fun xy : dual * dual => f (fst xy) (snd xy))
                    (combine (fst ab) (snd ab)))
             (combine A B)).
Proof.
  intros H Hin. unfold op2. rewrite (bcast_same _ _ _ H).
  apply mapM_Fin. apply Forall_forall. intros [a b] Hab.
  apply (op1_zip f). now apply Hin.
Qed.

Lemma dot_dotv (a b : list dual) :
  length a = length b -> dot a b = Fin (dotv a b).
Proof. intros H. unfold dot. now rewrite H, Nat.eqb_refl. Qed.

Lemma matmul_nt_value (d : nat) (a b : list (list dual)) :
  Forall (fun r => length r = d) a -> Forall (fun r => length r = d) b ->
  matmul_nt a b = Fin (map (fun ai => map (dotv ai) b) a).
Proof.
  intros Ha Hb. unfold matmul_nt. apply mapM_Fin.
  eapply Forall_impl; [|exact Ha]. intros ai Hai.
  apply mapM_Fin. eapply Forall_impl; [|exact Hb]. intros bj Hbj.
  apply dot_dotv. congruence.
Qed.

(** The in-batch score matrix in closed form: the raw inner product, minus
    10000 where the page ids agree. *)
Lemma in_batch_neg_scores_value (d : nat) (query_rep neg_rep : list (list dual))
  (cur_page_ids : list Z) (neg_page_ids : list (list Z)) :
  Forall (fun r => length r = d) query_rep ->
  Forall (fun r => length r = d) neg_rep ->
  length cur_page_ids = length query_rep ->
  length (concat neg_page_ids) = length neg_rep ->
  in_batch_neg_scores query_rep neg_rep cur_page_ids neg_page_ids
  = Fin (map (fun qc : list dual * Z =>
                map (fun nm : list dual * Z =>
                       dsub (dotv (fst qc) (fst nm))
                            (dmul (dconst 10000)
                               (dconst (if Z.eqb (snd qc) (snd nm)
                                        then 1 else 0))))
                    (combine neg_rep (concat neg_page_ids)))
             (combine query_rep cur_page_ids)).
Proof.
  intros Hq Hn Hc Hm. unfold in_batch_neg_scores.
  rewrite (matmul_nt_value d) by assumption. cbn [bind].
  unfold page_mask. rewrite !map_map.
  rewrite op2_zip.
  - f_equal. rewrite combine_map, map_map.
    apply map_ext. intros [qi c]. cbn [fst snd].
    rewrite (map_map _ (dmul (dconst 10000))).
    rewrite combine_map, map_map. apply map_ext. intros [nj m].
    cbn [fst snd xorb]. reflexivity.
  - rewrite !length_map. lia.
  - intros a b Hab. rewrite combine_map in Hab.
    apply in_map_iff in Hab as [[qi c] [E _]]. inversion E; subst.
    rewrite !length_map. lia.
Qed.

(** ** False-negative masking of the in-batch scores *)

(** C3, as the code has it: in the in-batch regime the score of a pair
    whose page ids agree is the raw inner product minus 10000 (same
    derivative as the raw score); the score of any other pair is the raw
    inner product.  The masked entry is therefore never the raw score, but
    it is not one fixed value either. *)
Theorem in_batch_mask_subtracts_10000
  (d : nat) (query_rep neg_rep : list (list dual))
  (cur_page_ids : list Z) (neg_page_ids : list (list Z)) :
  Forall (fun r => length r = d) query_rep ->
  Forall (fun r => length r = d) neg_rep ->
  length cur_page_ids = length query_rep ->
  length (concat neg_page_ids) = length neg_rep ->
  exists neg_scores,
    in_batch_neg_scores query_rep neg_rep cur_page_ids neg_page_ids
      = Fin neg_scores
    /\ forall i j qi nj c m,
         nth_error query_rep i = Some qi ->
         nth_error neg_rep j = Some nj ->
         nth_error cur_page_ids i = Some c ->
         nth_error (concat neg_page_ids) j = Some m ->
         exists row s raw,
           nth_error neg_scores i = Some row /\ nth_error row j = Some s
           /\ dot qi nj = Fin raw
           /\ (c = m -> val s = val raw - 10000 /\ tan s = tan raw
                        /\ val s <> val raw)
           /\ (c <> m -> val s = val raw /\ tan s = tan raw).
Proof.
  intros Hq Hn Hc Hm. eexists. split.
  - apply (in_batch_neg_scores_value d); assumption.
  - intros i j qi nj c m Hqi Hnj Hci Hmj.
    exists (map (fun nm : list dual * Z =>
                   dsub (dotv qi (fst nm))
                        (dmul (dconst 10000)
                           (dconst (if Z.eqb c (snd nm) then 1 else 0))))
                (combine neg_rep (concat neg_page_ids))).
    exists (dsub (dotv qi nj)
                 (dmul (dconst 10000) (dconst (if Z.eqb c m then 1 else 0)))).
    exists (dotv qi nj).
    split; [|split; [|split; [|split]]].
    + rewrite nth_error_map, (nth_error_combine _ _ _ _ _ Hqi Hci).
      reflexivity.
    + rewrite nth_error_map, (nth_error_combine _ _ _ _ _ Hnj Hmj).
      reflexivity.
    + apply dot_dotv.
      pose proof (proj1 (Forall_forall _ _) Hq qi (nth_error_In _ _ Hqi)).
      pose proof (proj1 (Forall_forall _ _) Hn nj (nth_error_In _ _ Hnj)).
      congruence.
    + intros ->. rewrite Z.eqb_refl. cbn [val tan dsub dmul dconst].
      repeat split; lra.
    + intros Hne. destruct (Z.eqb_spec c m) as [E|_]; [contradiction|].
      cbn [val tan dsub dmul dconst]. split; lra.
Qed.

Lemma in_batch_mask_subtracts_10000_witness :
  exists neg_scores,
    in_batch_neg_scores [[dconst 1; dconst 2]]
      [[dconst 0; dconst 1]; [dconst 1; dconst 0]; [dconst 3; dconst 4]]
      [7%Z] [[8; 9; 7]%Z]
      = Fin neg_scores
    /\ forall i j qi nj c m,
         nth_error [[dconst 1; dconst 2]] i = Some qi ->
         nth_error [[dconst 0; dconst 1]; [dconst 1; dconst 0];
                    [dconst 3; dconst 4]] j = Some nj ->
         nth_error [7%Z] i = Some c ->
         nth_error (concat [[8; 9; 7]%Z]) j = Some m ->
         exists row s raw,
           nth_error neg_scores i = Some row /\ nth_error row j = Some s
           /\ dot qi nj = Fin raw
           /\ (c = m -> val s = val raw - 10000 /\ tan s = tan raw
                        /\ val s <> val raw)
           /\ (c <> m -> val s = val raw /\ tan s = tan raw).
Proof.
  apply (in_batch_mask_subtracts_10000 2).
  - repeat constructor.
  - repeat constructor.
  - reflexivity.
  - reflexivity.
Defined.

(** C3, as stated, fails: with [identifier[2] == identifier[0]] the entry
    for query 0 and candidate 2, whose raw score is 11, is -9989 and not
    the constant -10000. *)
Lemma in_batch_masked_entry_is_not_the_sentinel :
  exists s0 s1 s2,
    in_batch_neg_scores [[dconst 1; dconst 2]]
      [[dconst 0; dconst 1]; [dconst 1; dconst 0]; [dconst 3; dconst 4]]
      [7%Z] [[8; 9; 7]%Z]
    = Fin [[s0; s1; s2]]
    /\ val s2 = -9989 /\ val s2 <> -10000.
Proof.
  do 3 eexists. split.
  - rewrite (in_batch_neg_scores_value 2); try reflexivity;
      repeat constructor.
  - cbn [val tan dsub dmul dconst dotv dsum map combine fold_right fst snd
         dadd Z.eqb Pos.eqb].
    split; lra.
Qed.

(** ** Slices *)

Lemma Forall_firstn' {A : Type} (P : A -> Prop) (n : nat) (l : list A) :
  Forall P l -> Forall P (firstn n l).
Proof.
  intros H; revert n; induction H as [|a l Ha _ IH]; intros [|n]; simpl;
    constructor; auto.
Qed.

Lemma Forall_skipn' {A : Type} (P : A -> Prop) (n : nat) (l : list A) :
  Forall P l -> Forall P (skipn n l).
Proof.
  intros H; revert n; induction H as [|a l Ha H IH]; intros [|n]; simpl;
    auto.
Qed.

(** [bsz = B // (K + 2)] leaves room for the queries and the positives. *)
Lemma floor_bsz_bound (B K : nat) :
  (2 * (B / (K + 2)) <= B)%nat.
Proof.
  pose proof (Nat.Div0.mul_div_le B (K + 2)). nia.
Qed.

(** The three slices of a flat batch, whatever its length. *)
Lemma layout_slices {A : Type} (K : nat) (entity_rep : list A) :
  let B := length entity_rep in
  let bsz := (B / (K + 2))%nat in
  length (upto bsz entity_rep) = bsz
  /\ length (slice bsz (2 * bsz) entity_rep) = bsz
  /\ length (from (2 * bsz) entity_rep) = (bsz * K + B mod (K + 2))%nat
  /\ upto bsz entity_rep ++ slice bsz (2 * bsz) entity_rep
       ++ from (2 * bsz) entity_rep = entity_rep.
Proof.
  intros B bsz. pose proof (floor_bsz_bound B K) as Hb. fold bsz in Hb.
  unfold upto, slice, from.
  repeat split.
  - rewrite length_firstn. fold B. lia.
  - rewrite length_firstn, length_skipn. fold B. lia.
  - rewrite length_skipn. fold B.
    pose proof (Nat.div_mod_eq B (K + 2)). fold bsz in H. nia.
  - replace (2 * bsz - bsz)%nat with bsz by lia.
    replace (2 * bsz)%nat with (bsz + bsz)%nat by lia.
    rewrite <- (skipn_skipn bsz bsz entity_rep).
    rewrite (firstn_skipn bsz (skipn bsz entity_rep)).
    apply firstn_skipn.
Qed.

(** ** The listwise loss on well-shaped scores *)

Lemma listwise_loss_succeeds (bsz : nat) (pos_scores : list dual)
  (neg_scores : list (list dual)) :
  (0 < bsz)%nat -> length pos_scores = bsz -> length neg_scores = bsz ->
  exists l, listwise_loss bsz pos_scores neg_scores = Fin l.
Proof.
  intros Hb Hp Hn. unfold listwise_loss, cat_last, unsqueeze_last.
  rewrite length_map, Hp, Hn, Nat.eqb_refl. cbn [bind].
  unfold cross_entropy_label0.
  rewrite length_map, length_combine, length_map, Hp, Hn, Nat.min_id,
    Nat.eqb_refl.
  rewrite (mapM_Fin _ (fun row => dsub (dln (dsum (map dexp row)))
                                       (hd (dconst 0) row))).
  - cbn [bind]. unfold dmean.
    destruct pos_scores as [|x ps]; [simpl in Hp; lia|].
    destruct neg_scores as [|n ns]; [simpl in Hn; lia|].
    cbn [map combine]. eexists; reflexivity.
  - apply Forall_forall. intros row Hrow.
    apply in_map_iff in Hrow as [[a b] [<- Hab]].
    apply in_combine_l in Hab. apply in_map_iff in Hab as [x [<- _]].
    reflexivity.
Qed.

Lemma rowwise_dot_succeeds (d : nat) (a b : list (list dual)) :
  length a = length b ->
  Forall (fun r => length r = d) a -> Forall (fun r => length r = d) b ->
  exists s, rowwise_dot a b = Fin s /\ length s = length a.
Proof.
  intros Hl Ha Hb. unfold rowwise_dot. rewrite op2_zip.
  - cbn [bind]. eexists; split; [reflexivity|].
    rewrite !length_map, length_combine. lia.
  - exact Hl.
  - intros x y Hxy.
    pose proof (proj1 (Forall_forall _ _) Ha x (in_combine_l _ _ _ _ Hxy)).
    pose proof (proj1 (Forall_forall _ _) Hb y (in_combine_r _ _ _ _ Hxy)).
    congruence.
Qed.

(** With in-batch negatives [RobertaForFix.forward] goes through on a batch
    of any length that holds at least one query. *)
Lemma fix_forward_succeeds (K d : nat) (entity_rep : list (list dual))
  (cur_page_ids : list Z) (neg_page_ids : list (list Z)) :
  let B := length entity_rep in
  let bsz := (B / (K + 2))%nat in
  (0 < bsz)%nat ->
  Forall (fun r => length r = d) entity_rep ->
  length cur_page_ids = bsz ->
  length (concat neg_page_ids) = (B - 2 * bsz)%nat ->
  exists l,
    RobertaForFix.forward (RobertaForFix.init K) entity_rep
      cur_page_ids neg_page_ids = Fin l.
Proof.
  intros B bsz Hb Hd Hc Hm.
  destruct (layout_slices K entity_rep) as [Lq [Lp [Ln _]]].
  fold B in Lq, Lp, Ln. fold bsz in Lq, Lp, Ln.
  unfold RobertaForFix.forward.
  cbn [RobertaForFix.init RobertaForFix.neg_K RobertaForFix.in_batch].
  fold B. fold bsz.
  destruct (rowwise_dot_succeeds d (upto bsz entity_rep)
              (slice bsz (2 * bsz) entity_rep)) as [ps [Hps Lps]].
  { lia. }
  { now apply Forall_firstn'. }
  { now apply Forall_firstn', Forall_skipn'. }
  rewrite Hps. cbn [bind].
  rewrite (in_batch_neg_scores_value d).
  - cbn [bind]. apply listwise_loss_succeeds; [exact Hb | lia |].
    rewrite length_map, length_combine. lia.
  - now apply Forall_firstn'.
  - now apply Forall_skipn'.
  - lia.
  - unfold from. rewrite length_skipn. fold B. lia.
Qed.

(** ** The batch layout *)

Lemma rowwise_dot_value (d : nat) (a b : list (list dual)) :
  length a = length b ->
  Forall (fun r => length r = d) a -> Forall (fun r => length r = d) b ->
  rowwise_dot a b
  = Fin (map (fun ab : list dual * list dual => dotv (fst ab) (snd ab))
             (combine a b)).
Proof.
  intros Hl Ha Hb. unfold rowwise_dot. rewrite op2_zip.
  - cbn [bind]. now rewrite map_map.
  - exact Hl.
  - intros x y Hxy.
    pose proof (proj1 (Forall_forall _ _) Ha x (in_combine_l _ _ _ _ Hxy)).
    pose proof (proj1 (Forall_forall _ _) Hb y (in_combine_r _ _ _ _ Hxy)).
    congruence.
Qed.

Lemma length_chunks_rows {A : Type} (w n : nat) (l : list A) :
  length (chunks w n l) = n.
Proof.
  revert l. induction n as [|n IH]; intros l; [reflexivity|].
  cbn [chunks length]. now rewrite IH.
Qed.

(** [RobertaForMerge.forward] on a flat batch whose length is no multiple
    of [K + 2], with rows of width two or more: either the negatives
    cannot be viewed as (bsz, K, -1), or the view is wider than the
    queries and the product cannot broadcast. *)
Lemma merge_forward_rejects_surplus_rows
  (K d : nat) (entity_rep : list (list dual)) (tmp : list dual) :
  let B := length entity_rep in
  let bsz := (B / (K + 2))%nat in
  (0 < bsz)%nat -> (2 <= d)%nat ->
  Forall (fun r => length r = d) entity_rep ->
  B mod (K + 2) <> 0%nat ->
  RobertaForMerge.forward K entity_rep tmp = Exn ShapeMismatch.
Proof.
  intros B bsz Hb Hd Hw Hmod.
  destruct (layout_slices K entity_rep) as [Lq [Lp [Ln _]]].
  fold B in Lq, Lp, Ln. fold bsz in Lq, Lp, Ln.
  unfold RobertaForMerge.forward. fold B. fold bsz.
  unfold view3, view_rows.
  destruct (bsz * K)%nat as [|n'] eqn:En; [reflexivity|].
  set (flat := concat (from (2 * bsz) entity_rep)).
  assert (Hflat : length flat = ((S n' + B mod (K + 2)) * d)%nat).
  { unfold flat. apply concat_shape_length. split; [exact Ln|].
    now apply Forall_skipn'. }
  destruct (Nat.eqb_spec (length flat mod S n') 0) as [Hdiv|Hdiv];
    [|reflexivity].
  cbn [bind].
  set (w' := (length flat / S n')%nat).
  assert (Hw' : (length flat = S n' * w')%nat).
  { unfold w'. pose proof (Nat.div_mod_eq (length flat) (S n')). lia. }
  assert (Hwd : (d < w')%nat) by nia.
  assert (HK : (0 < K)%nat) by (destruct K; lia).
  rewrite (rowwise_dot_value d).
  2:{ lia. }
  2:{ now apply Forall_firstn'. }
  2:{ now apply Forall_firstn', Forall_skipn'. }
  cbn [bind]. unfold op3, bcast, unsqueeze1.
  rewrite length_map, Lq, length_chunks_rows, Nat.eqb_refl.
  (* the first query against its first candidate *)
  destruct (upto bsz entity_rep) as [|q0 Q] eqn:EQ; [simpl in Lq; lia|].
  assert (Hq0 : length q0 = d).
  { assert (Hin : In q0 (upto bsz entity_rep)) by (rewrite EQ; now left).
    unfold upto in Hin.
    exact (proj1 (Forall_forall _ _) (Forall_firstn' _ bsz _ Hw) q0 Hin). }
  clearbody bsz.
  destruct bsz as [|b']; [lia|]. destruct K as [|k']; [lia|].
  cbn [chunks firstn map combine mapM fst snd].
  assert (Hr0 : length (firstn w' flat) = w').
  { rewrite length_firstn. nia. }
  unfold op2 at 1, bcast at 1.
  destruct (firstn k' (chunks w' n' (skipn w' flat))) as [|g G] eqn:EG.
  - (* K = 1: the candidate row is zipped with the query *)
    cbn [length Nat.eqb combine mapM fst snd].
    unfold op1 at 1, bcast at 1. rewrite Hq0, Hr0.
    destruct (Nat.eqb_spec d w') as [E|_]; [lia|].
    destruct q0 as [|x1 [|x2 q0]]; try (simpl in Hq0; lia).
    destruct (firstn w' flat) as [|y1 [|y2 r0]];
      try (simpl in Hr0; lia).
    reflexivity.
  - cbn [length Nat.eqb mapM].
    unfold op1 at 1, bcast at 1. rewrite Hq0, Hr0.
    destruct (Nat.eqb_spec d w') as [E|_]; [lia|].
    destruct q0 as [|x1 [|x2 q0]]; try (simpl in Hq0; lia).
    destruct (firstn w' flat) as [|y1 [|y2 r0]];
      try (simpl in Hr0; lia).
    reflexivity.
Qed.

(** C5, as the code has it: the layout is never checked.  On a flat batch
    of any length B the heads take [bsz = B // (K + 2)], the first [bsz]
    rows as queries, the next [bsz] as positives and all the remaining
    rows, [bsz * K] plus the [B mod (K + 2)] surplus ones, as negatives.
    With in-batch negatives [RobertaForFix.forward] returns the listwise
    loss of exactly these rows: query [i] against positive [i] and against
    every remaining row, surplus included.  [RobertaForMerge.forward], on
    rows of width two or more, stops on a batch whose length is no
    multiple of [K + 2], but with the shape error of [view] or of the
    broadcast product, not with a layout check. *)
Theorem layout_is_floor_division_without_check
  (K d : nat) (entity_rep : list (list dual))
  (cur_page_ids : list Z) (neg_page_ids : list (list Z))
  (tmp : list dual) :
  let B := length entity_rep in
  let bsz := (B / (K + 2))%nat in
  let query_rep := firstn bsz entity_rep in
  let pos_rep := firstn bsz (skipn bsz entity_rep) in
  let neg_rep := skipn (2 * bsz) entity_rep in
  (0 < bsz)%nat ->
  Forall (fun r => length r = d) entity_rep ->
  length cur_page_ids = bsz ->
  length (concat neg_page_ids) = (B - 2 * bsz)%nat ->
  length neg_rep = (bsz * K + B mod (K + 2))%nat
  /\ RobertaForFix.forward (RobertaForFix.init K) entity_rep
       cur_page_ids neg_page_ids
     = listwise_loss bsz
         (map (fun qp : list dual * list dual => dotv (fst qp) (snd qp))
              (combine query_rep pos_rep))
         (map (fun qc : list dual * Z =>
                 map (fun nm : list dual * Z =>
                        dsub (dotv (fst qc) (fst nm))
                             (dmul (dconst 10000)
                                (dconst (if Z.eqb (snd qc) (snd nm)
                                         then 1 else 0))))
                     (combine neg_rep (concat neg_page_ids)))
              (combine query_rep cur_page_ids))
  /\ (exists l,
        RobertaForFix.forward (RobertaForFix.init K) entity_rep
          cur_page_ids neg_page_ids = Fin l)
  /\ ((2 <= d)%nat -> B mod (K + 2) <> 0%nat ->
      RobertaForMerge.forward K entity_rep tmp = Exn ShapeMismatch).
Proof.
  intros B bsz query_rep pos_rep neg_rep Hb Hd Hc Hm.
  destruct (layout_slices K entity_rep) as [Lq [Lp [Ln _]]].
  fold B in Lq, Lp, Ln. fold bsz in Lq, Lp, Ln.
  assert (Eslice : slice bsz (2 * bsz) entity_rep = pos_rep).
  { unfold slice, pos_rep. now replace (2 * bsz - bsz)%nat with bsz by lia. }
  split; [exact Ln|]. split; [|split].
  - unfold RobertaForFix.forward.
    cbn [RobertaForFix.init RobertaForFix.neg_K RobertaForFix.in_batch].
    fold B. fold bsz. rewrite Eslice.
    change (upto bsz entity_rep) with query_rep.
    change (from (2 * bsz) entity_rep) with neg_rep.
    rewrite (rowwise_dot_value d).
    2:{ unfold upto in Lq. rewrite <- Eslice. unfold query_rep. lia. }
    2:{ now apply Forall_firstn'. }
    2:{ now apply Forall_firstn', Forall_skipn'. }
    cbn [bind].
    rewrite (in_batch_neg_scores_value d).
    + reflexivity.
    + now apply Forall_firstn'.
    + now apply Forall_skipn'.
    + unfold upto in Lq. unfold query_rep. lia.
    + unfold from in Ln. unfold neg_rep. rewrite length_skipn. fold B. lia.
  - now apply (fix_forward_succeeds K d).
  - intros Hd2 Hmod.
    now apply (merge_forward_rejects_surplus_rows K d).
Qed.

Lemma layout_is_floor_division_without_check_witness :
  let entity_rep :=
    [[dconst 1; dconst 0]; [dconst 1; dconst 1]; [dconst 0; dconst 1];
     [dconst 2; dconst 1]] in
  let query_rep := firstn 1 entity_rep in
  let pos_rep := firstn 1 (skipn 1 entity_rep) in
  let neg_rep := skipn 2 entity_rep in
  length neg_rep = 2%nat
  /\ RobertaForFix.forward (RobertaForFix.init 1) entity_rep
       [5%Z] [[6; 7]%Z]
     = listwise_loss 1
         (map (fun qp : list dual * list dual => dotv (fst qp) (snd qp))
              (combine query_rep pos_rep))
         (map (fun qc : list dual * Z =>
                 map (fun nm : list dual * Z =>
                        dsub (dotv (fst qc) (fst nm))
                             (dmul (dconst 10000)
                                (dconst (if Z.eqb (snd qc) (snd nm)
                                         then 1 else 0))))
                     (combine neg_rep (concat [[6; 7]%Z])))
              (combine query_rep [5%Z]))
  /\ (exists l,
        RobertaForFix.forward (RobertaForFix.init 1) entity_rep
          [5%Z] [[6; 7]%Z] = Fin l)
  /\ ((2 <= 2)%nat -> (4 mod 3 <> 0)%nat ->
      RobertaForMerge.forward 1 entity_rep [dconst 0] = Exn ShapeMismatch).
Proof.
  apply (layout_is_floor_division_without_check 1 2
           [[dconst 1; dconst 0]; [dconst 1; dconst 1]; [dconst 0; dconst 1];
            [dconst 2; dconst 1]] [5%Z] [[6; 7]%Z] [dconst 0]).
  - simpl; lia.
  - repeat constructor.
  - reflexivity.
  - reflexivity.
Defined.

(** C5, as stated, fails: a flat batch of 4 rows with K = 1 (4 is no
    multiple of K + 2 = 3) raises nothing; the head returns a loss. *)
Lemma malformed_batch_is_not_rejected :
  let entity_rep :=
    [[dconst 1; dconst 0]; [dconst 1; dconst 1]; [dconst 0; dconst 1];
     [dconst 2; dconst 1]] in
  (forall bsz : nat, length entity_rep <> (bsz * (1 + 2))%nat)
  /\ exists l,
       RobertaForFix.forward (RobertaForFix.init 1) entity_rep
         [5%Z] [[6; 7]%Z] = Fin l.
Proof.
  split.
  - intros bsz. simpl. lia.
  - apply (fix_forward_succeeds 1 2).
    + simpl; lia.
    + repeat constructor.
    + reflexivity.
    + reflexivity.
Qed.

(** [RobertaForMerge.forward] coerces as well: with rows of width one,
    a flat batch of 4 rows and K = 1, the two surplus-laden negative rows
    are viewed as one candidate of width two and broadcast against the
    query. *)
Lemma merge_forward_coerces_malformed_batch :
  exists l,
    RobertaForMerge.forward 1
      [[dconst 1]; [dconst 1]; [dconst 1]; [dconst 1]] [dconst 0] = Fin l.
Proof.
  eexists.
  lazy -[Rplus Rmult Rminus Rdiv Ropp Rinv exp ln IZR INR Rabs].
  reflexivity.
Qed.

(** ** The margin loss with in-batch negatives *)

Lemma dsum_app (l1 l2 : list dual) :
  dsum (l1 ++ l2) = dadd (dsum l1) (dsum l2).
Proof.
  induction l1 as [|x l1 IH]; simpl.
  - apply dual_eq; simpl; lra.
  - rewrite IH. apply dadd_assoc.
Qed.

Lemma valid_pairs_cons (c : Z) (cur negs : list Z) :
  valid_pairs (c :: cur) negs
  = (length (filter (fun m => negb (Z.eqb c m)) negs)
     + valid_pairs cur negs)%nat.
Proof.
  unfold valid_pairs. cbn [list_prod].
  rewrite filter_app, length_app. f_equal.
  induction negs as [|m negs IH]; [reflexivity|].
  cbn [map filter fst snd]. destruct (negb (Z.eqb c m)); simpl; now rewrite IH.
Qed.

(** [valid = loss_mask.sum()] counts the pairs whose page ids differ. *)
Lemma valid_is_the_pair_count (cur_page_ids : list Z)
  (neg_page_ids : list (list Z)) :
  dsum (concat (page_mask true cur_page_ids neg_page_ids))
  = dconst (INR (valid_pairs cur_page_ids (concat neg_page_ids))).
Proof.
  unfold page_mask. generalize (concat neg_page_ids) as negs. intros negs.
  induction cur_page_ids as [|c cur IH].
  - reflexivity.
  - cbn [map concat]. rewrite dsum_app, valid_pairs_cons, plus_INR.
    assert (E : dsum (map (fun n => dconst (if xorb true (Z.eqb c n)
                                            then 1 else 0)) negs)
                = dconst (INR (length (filter (fun m => negb (Z.eqb c m))
                                              negs)))).
    { clear IH. induction negs as [|m negs IHn]; [reflexivity|].
      cbn [map dsum fold_right filter]. change (fold_right dadd (dconst 0))
        with dsum. rewrite IHn.
      destruct (Z.eqb c m); cbn [xorb negb].
      - apply dual_eq; cbn [val tan dadd dconst]; lra.
      - cbn [length]. rewrite S_INR.
        apply dual_eq; cbn [val tan dadd dconst]; lra. }
    rewrite E, IH. apply dual_eq; cbn [val tan dadd dconst]; lra.
Qed.

Lemma mapM_map {A B C : Type} (f : B -> res C) (g : A -> B) (l : list A) :
  mapM f (map g l) = mapM (fun a => f (g a)) l.
Proof. induction l as [|a l IH]; simpl; [reflexivity | now rewrite IH]. Qed.

(** [query_rep.unsqueeze(1) - neg_rep.unsqueeze(0)]: every query against
    every candidate. *)
Lemma all_pairs_difference (d : nat) (query_rep neg_rep : list (list dual)) :
  Forall (fun r => length r = d) query_rep ->
  Forall (fun r => length r = d) neg_rep ->
  op3 dsub (unsqueeze1 query_rep) [neg_rep]
  = Fin (map (fun qi => map (fun nj => vsub qi nj) neg_rep) query_rep).
Proof.
  intros Hq Hn. unfold op3, unsqueeze1.
  rewrite bcast_one_r, mapM_map.
  apply mapM_Fin. eapply Forall_impl; [|exact Hq]. intros qi Hqi.
  unfold op2. rewrite bcast_one_l.
  apply mapM_Fin. eapply Forall_impl; [|exact Hn]. intros nj Hnj.
  apply (op1_zip dsub). congruence.
Qed.




(** ** The self-adversarial margin loss of RobertaForTransE *)

Lemma val_dsum_dexp (f : dual -> dual) (row : list dual) :
  (forall s, val (f s) = val s) ->
  val (dsum (map (fun x => dexp (f x)) row))
  = Rsum (map (fun x => exp (val x)) row).
Proof.
  intros Hf. induction row as [|s row IH]; [reflexivity|].
  cbn [map dsum fold_right Rsum val dadd dexp].
  change (fold_right dadd (dconst 0)) with dsum.
  change (fold_right Rplus 0) with Rsum.
  now rewrite IH, Hf.
Qed.

(** The detached softmax is the softmax of the values, as constants. *)
Lemma detached_softmax (row : list dual) :
  map detach (softmax (map (fun s => dmul s (dconst 1)) row))
  = map dconst (softmax_weights row).
Proof.
  unfold softmax, softmax_weights. cbv zeta. rewrite !map_map.
  apply map_ext. intros s. unfold detach at 1. unfold dquot at 1.
  cbn [val]. unfold dconst at 2. f_equal.
  rewrite (val_dsum_dexp (fun s => dmul s (dconst 1)))
    by (intros x; cbn [val dmul dconst]; lra).
  cbn [val dexp dmul dconst]. now rewrite Rmult_1_r.
Qed.

Lemma weighted_row_constants (row : list dual) :
  RobertaForTransE.weighted_row row
  = dsum (map (fun ws : R * dual =>
                 dmul (dconst (fst ws)) (logsigmoid (dneg (snd ws))))
              (combine (softmax_weights row) row)).
Proof.
  unfold RobertaForTransE.weighted_row.
  rewrite detached_softmax, combine_map, map_map. reflexivity.
Qed.

Lemma dsum_map_dneg {A : Type} (f : A -> dual) (l : list A) :
  dsum (map (fun x => dneg (f x)) l) = dneg (dsum (map f l)).
Proof.
  induction l as [|x l IH]; cbn [map dsum fold_right].
  - apply dual_eq; cbn [val tan dneg dconst]; lra.
  - change (fold_right dadd (dconst 0)) with dsum. rewrite IH.
    apply dual_eq; cbn [val tan dneg dadd]; lra.
Qed.

Lemma dneg_dquot (s : dual) (n : R) :
  dneg (dquot s (dconst n)) = dquot (dneg s) (dconst n).
Proof.
  apply dual_eq; cbn [val tan dneg dquot dconst]; unfold Rdiv; ring.
Qed.

(** [- x.mean()] is the mean of the opposites. *)
Lemma dneg_mean {A : Type} (f : A -> dual) (l : list A) :
  dneg (dquot (dsum (map f l)) (dconst (INR (length (map f l)))))
  = dmean_of (map (fun x => dneg (f x)) l).
Proof.
  unfold dmean_of. now rewrite dneg_dquot, <- dsum_map_dneg, !length_map.
Qed.

Lemma dmean_nonempty (l : list dual) :
  l <> [] -> dmean l = Fin (dquot (dsum l) (dconst (INR (length l)))).
Proof. destruct l; [congruence | reflexivity]. Qed.

Lemma length_vadd (a b : list dual) :
  length (vadd a b) = Nat.min (length a) (length b).
Proof. unfold vadd. now rewrite length_map, length_combine. Qed.

(** The residual vectors of the encoder branch ([relation_idx] absent,
    tail negatives): [h + 0.05 r - t] for the positive triple and
    [h + 0.05 r - t'] for each negative tail [t']. *)
Lemma residuals_encoder_branch
  (tokens : Type) (ent rel : Z -> list dual)
  (head : tokens -> list (list dual)) (d : nat)
  (ids : tokens) (e1 e2 : list Z) (n1 : option (list (list Z)))
  (n2 : list (list Z)) (w : option (list dual)) :
  (forall i, length (ent i) = d) ->
  Forall (fun r => length r = d) (head ids) ->
  length (head ids) = length e1 -> length e2 = length e1 ->
  length n2 = length e1 ->
  let r := fun x : list dual => map (dmul (dconst RobertaForTransE.bert_ceof)) x in
  RobertaForTransE.residuals tokens ent rel head
    (RobertaForTransE.Inputs tokens (Some ids) e1 e2 n1 (Some n2) None w)
  = Fin (map (fun x : (Z * list dual) * Z =>
                vsub (vadd (ent (fst (fst x))) (r (snd (fst x))))
                     (ent (snd x)))
             (combine (combine e1 (head ids)) e2),
         map (fun x : (Z * list dual) * list Z =>
                map (fun j => vsub (vadd (ent (fst (fst x))) (r (snd (fst x))))
                                   (ent j))
                    (snd x))
             (combine (combine e1 (head ids)) n2)).
Proof.
  intros Hent Hhead Lh L2 Ln r.
  unfold RobertaForTransE.residuals.
  cbn [RobertaForTransE.relation_idx RobertaForTransE.input_ids
       RobertaForTransE.e1_idx RobertaForTransE.e2_idx
       RobertaForTransE.neg_e2_idxs].
  assert (Hhr : op2 dadd (map ent e1)
                  (map (map (dmul (dconst RobertaForTransE.bert_ceof))) (head ids))
                = Fin (map (fun x : Z * list dual => vadd (ent (fst x)) (r (snd x)))
                           (combine e1 (head ids)))).
  { rewrite op2_zip.
    - now rewrite combine_map, map_map.
    - rewrite !length_map. lia.
    - intros a b Hab. rewrite combine_map in Hab.
      apply in_map_iff in Hab as [[i x] [E Hin]]. inversion E; subst.
      rewrite length_map, Hent. symmetry.
      apply (proj1 (Forall_forall _ _) Hhead). now apply in_combine_r in Hin. }
  rewrite Hhr. cbn [bind].
  assert (Hw : forall x : Z * list dual, In x (combine e1 (head ids)) ->
                 length (vadd (ent (fst x)) (r (snd x))) = d).
  { intros [i x] Hin. cbn [fst snd]. unfold r.
    rewrite length_vadd, length_map, Hent.
    rewrite (proj1 (Forall_forall _ _) Hhead x); [lia|].
    now apply in_combine_r in Hin. }
  rewrite op2_zip.
  2:{ rewrite !length_map, length_combine. lia. }
  2:{ intros a b Hab. rewrite combine_map in Hab.
      apply in_map_iff in Hab as [[x j] [E Hin]]. inversion E; subst.
      rewrite Hw, Hent; [reflexivity|]. now apply in_combine_l in Hin. }
  cbn [bind]. unfold op3, unsqueeze1.
  rewrite bcast_same by (rewrite !length_map, length_combine; lia).
  rewrite !combine_map, !map_map.
  rewrite combine_map_l, map_map.
  rewrite (mapM_map _ _ (combine (combine e1 (head ids)) n2)).
  rewrite (mapM_Fin _ (fun x : (Z * list dual) * list Z =>
             map (fun j => vsub (vadd (ent (fst (fst x))) (r (snd (fst x))))
                                (ent j)) (snd x))).
  - reflexivity.
  - apply Forall_forall. intros [x js] Hin. cbn [fst snd].
    unfold op2. rewrite bcast_one_l, mapM_map.
    apply mapM_Fin. apply Forall_forall. intros j _.
    apply (op1_zip dsub). rewrite Hw, Hent; [reflexivity|].
    now apply in_combine_l in Hin.
Qed.

(** ** The residual vectors of RobertaForTransE, example by example *)

Lemma mapM_combine_maps {X A B C : Type} (F : A -> B -> res C) (G : X -> C)
  (a : X -> A) (b : X -> B) (l : list X) :
  (forall x, In x l -> F (a x) (b x) = Fin (G x)) ->
  mapM (fun p : A * B => F (fst p) (snd p)) (combine (map a l) (map b l))
  = Fin (map G l).
Proof.
  induction l as [|x l IH]; intros H; [reflexivity|].
  cbn [map combine mapM fst snd].
  rewrite (H x (or_introl eq_refl)), IH; [reflexivity|].
  intros y Hy. apply H. now right.
Qed.

Lemma bcast_maps {X A B C : Type} (F : A -> B -> res C) (G : X -> C)
  (a : X -> A) (b : X -> B) (l : list X) :
  (forall x, In x l -> F (a x) (b x) = Fin (G x)) ->
  bcast F (map a l) (map b l) = Fin (map G l).
Proof.
  intros H. rewrite bcast_same by (now rewrite !length_map).
  now apply mapM_combine_maps.
Qed.

Lemma op1_vadd (a b : list dual) :
  length a = length b -> op1 dadd a b = Fin (vadd a b).
Proof. intros H. now rewrite (op1_zip dadd a b H). Qed.

Lemma op1_vsub (a b : list dual) :
  length a = length b -> op1 dsub a b = Fin (vsub a b).
Proof. intros H. now rewrite (op1_zip dsub a b H). Qed.

Lemma length_vsub (a b : list dual) :
  length (vsub a b) = Nat.min (length a) (length b).
Proof. unfold vsub. now rewrite length_map, length_combine. Qed.

(** [n + (r - t)] and [(n + r) - t] are the same vector, in value and in
    derivative. *)
Lemma vadd_vsub_assoc (n r t : list dual) :
  vadd n (vsub r t) = vsub (vadd n r) t.
Proof.
  revert r t. induction n as [|x n IH]; intros [|y r] [|z t];
    try reflexivity.
  unfold vadd, vsub in *. cbn [combine map fst snd]. rewrite IH.
  f_equal. apply dual_eq; cbn [val tan dadd dsub]; lra.
Qed.

Section TransEResiduals.

Variable tokens : Type.
Variables ent rel : Z -> list dual.
Variable head : tokens -> list (list dual).
Variable d : nat.

Hypothesis ent_width : forall i, length (ent i) = d.
Hypothesis rel_width : forall i, length (rel i) = d.

Lemma transe_positive_residuals {X : Type} (h r t : X -> list dual)
  (l : list X) :
  (forall x, In x l ->
     length (h x) = d /\ length (r x) = d /\ length (t x) = d) ->
  (hr <- op2 dadd (map h l) (map r l) ;; op2 dsub hr (map t l))
  = Fin (map (fun x => vsub (vadd (h x) (r x)) (t x)) l).
Proof.
  intros H. unfold op2.
  rewrite (bcast_maps (op1 dadd) (fun x => vadd (h x) (r x))).
  2:{ intros x Hx. destruct (H x Hx) as [Eh [Er _]].
      apply op1_vadd. congruence. }
  cbn [bind].
  apply (bcast_maps (op1 dsub) (fun x => vsub (vadd (h x) (r x)) (t x))
                    (fun x => vadd (h x) (r x)) t).
  intros x Hx. destruct (H x Hx) as [Eh [Er Et]].
  apply op1_vsub. rewrite length_vadd. lia.
Qed.

Lemma transe_tail_residuals {X : Type} (a : X -> list dual)
  (negs : X -> list Z) (l : list X) :
  (forall x, In x l -> length (a x) = d) ->
  op3 dsub (unsqueeze1 (map a l)) (map (map ent) (map negs l))
  = Fin (map (fun x => map (fun j => vsub (a x) (ent j)) (negs x)) l).
Proof.
  intros H. unfold op3, unsqueeze1. rewrite !map_map.
  apply (bcast_maps (op2 dsub)
           (fun x => map (fun j => vsub (a x) (ent j)) (negs x))
           (fun x => [a x]) (fun x => map ent (negs x))).
  intros x Hx. unfold op2. rewrite bcast_one_l, mapM_map.
  apply mapM_Fin. apply Forall_forall. intros j _.
  apply op1_vsub. now rewrite (H x Hx), ent_width.
Qed.

Lemma transe_head_residuals {X : Type} (b : X -> list dual)
  (negs : X -> list Z) (l : list X) :
  (forall x, In x l -> length (b x) = d) ->
  op3 dadd (map (map ent) (map negs l)) (unsqueeze1 (map b l))
  = Fin (map (fun x => map (fun j => vadd (ent j) (b x)) (negs x)) l).
Proof.
  intros H. unfold op3, unsqueeze1. rewrite !map_map.
  apply (bcast_maps (op2 dadd)
           (fun x => map (fun j => vadd (ent j) (b x)) (negs x))
           (fun x => map ent (negs x)) (fun x => [b x])).
  intros x Hx. unfold op2. rewrite bcast_one_r, mapM_map.
  apply mapM_Fin. apply Forall_forall. intros j _.
  apply op1_vadd. now rewrite (H x Hx), ent_width.
Qed.

(** The vectors whose norms [forward] takes, on a batch given example by
    example: [h + r - t] for the positive triple; for the negatives
    [n + (r - t)] when the head is replaced and [(h + r) - n] when the
    tail is. *)
Lemma transe_residuals_value (batch : list triple_sample)
  (oids : option tokens) (ridx : option (list Z))
  (n1 n2 : option (list (list Z))) (w : option (list dual))
  (corrupt_head : bool) :
  match ridx with
  | Some l => l = map rel_id batch
  | None => exists ids, oids = Some ids
                        /\ head ids = map rel_enc batch
                        /\ Forall (fun s => length (rel_enc s) = d) batch
  end ->
  (ridx <> None /\ n1 = Some (map neg_ids batch) /\ corrupt_head = true)
  \/ (ridx <> None /\ n1 = None /\ n2 = Some (map neg_ids batch)
      /\ corrupt_head = false)
  \/ (ridx = None /\ n2 = Some (map neg_ids batch)
      /\ corrupt_head = false) ->
  let rv := fun s : triple_sample =>
    match ridx with
    | Some _ => rel (rel_id s)
    | None => map (dmul (dconst RobertaForTransE.bert_ceof)) (rel_enc s)
    end in
  RobertaForTransE.residuals tokens ent rel head
    (RobertaForTransE.Inputs tokens oids (map head_id batch)
       (map tail_id batch) n1 n2 ridx w)
  = Fin (map (fun s => vsub (vadd (ent (head_id s)) (rv s))
                            (ent (tail_id s))) batch,
         map (fun s =>
                map (fun j =>
                       if corrupt_head
                       then vadd (ent j) (vsub (rv s) (ent (tail_id s)))
                       else vsub (vadd (ent (head_id s)) (rv s)) (ent j))
                    (neg_ids s))
             batch).
Proof.
  intros Hrel Hneg rv.
  unfold RobertaForTransE.residuals.
  cbn [RobertaForTransE.relation_idx RobertaForTransE.input_ids
       RobertaForTransE.e1_idx RobertaForTransE.e2_idx
       RobertaForTransE.neg_e1_idxs RobertaForTransE.neg_e2_idxs].
  rewrite !map_map.
  destruct ridx as [l|].
  - (* the relation is looked up in the embedding table *)
    subst l. rewrite map_map.
    assert (Hw : forall s, In s batch ->
              length (ent (head_id s)) = d /\ length (rel (rel_id s)) = d
              /\ length (ent (tail_id s)) = d)
      by (intros s _; now rewrite !ent_width, rel_width).
    pose proof (transe_positive_residuals
                  (fun s => ent (head_id s)) (fun s => rel (rel_id s))
                  (fun s => ent (tail_id s)) batch Hw) as Hp.
    destruct (op2 dadd (map (fun s => ent (head_id s)) batch)
                (map (fun s => rel (rel_id s)) batch)) as [hr| |] eqn:Ehr;
      cbn [bind] in Hp; try discriminate.
    cbn [bind]. rewrite Hp. cbn [bind].
    destruct Hneg as [[_ [-> ->]] | [[_ [-> [-> ->]]] | [Hc _]]];
      [| |congruence].
    + (* the head is replaced *)
      unfold op2 at 1.
      rewrite (bcast_maps (op1 dsub)
                 (fun s => vsub (rel (rel_id s)) (ent (tail_id s)))).
      2:{ intros s _. apply op1_vsub. now rewrite rel_width, ent_width. }
      cbn [bind].
      rewrite (transe_head_residuals
                 (fun s => vsub (rel (rel_id s)) (ent (tail_id s)))).
      2:{ intros s _. rewrite length_vsub, rel_width, ent_width. lia. }
      reflexivity.
    + (* the tail is replaced *)
      cbn [bind].
      assert (Ehr' : hr = map (fun s => vadd (ent (head_id s))
                                             (rel (rel_id s))) batch).
      { unfold op2 in Ehr.
        rewrite (bcast_maps (op1 dadd)
                   (fun s => vadd (ent (head_id s)) (rel (rel_id s))))
          in Ehr.
        - now inversion Ehr.
        - intros s _. apply op1_vadd. now rewrite ent_width, rel_width. }
      rewrite Ehr'.
      rewrite (transe_tail_residuals
                 (fun s => vadd (ent (head_id s)) (rel (rel_id s)))).
      2:{ intros s _. rewrite length_vadd, ent_width, rel_width. lia. }
      reflexivity.
  - (* the relation comes from the encoder *)
    destruct Hrel as [ids [-> [Hhead Henc]]].
    destruct Hneg as [[Hc _] | [[Hc _] | [_ [-> ->]]]]; try congruence.
    rewrite Hhead, map_map.
    assert (Hw : forall s, In s batch ->
              length (ent (head_id s)) = d
              /\ length (map (dmul (dconst RobertaForTransE.bert_ceof))
                             (rel_enc s)) = d
              /\ length (ent (tail_id s)) = d).
    { intros s Hs. rewrite !ent_width, length_map.
      now rewrite (proj1 (Forall_forall _ _) Henc s Hs). }
    pose proof (transe_positive_residuals
                  (fun s => ent (head_id s))
                  (fun s => map (dmul (dconst RobertaForTransE.bert_ceof))
                                (rel_enc s))
                  (fun s => ent (tail_id s)) batch Hw) as Hp.
    destruct (op2 dadd (map (fun s => ent (head_id s)) batch)
                (map (fun s =>
                        map (dmul (dconst RobertaForTransE.bert_ceof))
                            (rel_enc s)) batch)) as [hr| |] eqn:Ehr;
      cbn [bind] in Hp; try discriminate.
    cbn [bind]. rewrite Hp. cbn [bind].
    assert (Ehr' : hr = map (fun s =>
                     vadd (ent (head_id s))
                          (map (dmul (dconst RobertaForTransE.bert_ceof))
                               (rel_enc s))) batch).
    { unfold op2 in Ehr.
      rewrite (bcast_maps (op1 dadd)
                 (fun s => vadd (ent (head_id s))
                             (map (dmul (dconst RobertaForTransE.bert_ceof))
                                  (rel_enc s)))) in Ehr.
      - now inversion Ehr.
      - intros s Hs. apply op1_vadd. destruct (Hw s Hs) as [-> [-> _]].
        reflexivity. }
    rewrite Ehr'.
    rewrite (transe_tail_residuals
               (fun s => vadd (ent (head_id s))
                           (map (dmul (dconst RobertaForTransE.bert_ceof))
                                (rel_enc s)))).
    2:{ intros s Hs. rewrite length_vadd.
        destruct (Hw s Hs) as [-> [-> _]]. lia. }
    reflexivity.
Qed.

(** the scores of the residual vectors are the translational-distance
    scores of the triples *)
Lemma transe_scores_of_residuals (gamma : R) (batch : list triple_sample)
  (rv : triple_sample -> list dual) (corrupt_head : bool) :
  map (map (RobertaForTransE.score gamma))
      (map (fun s =>
              map (fun j =>
                     if corrupt_head
                     then vadd (ent j) (vsub (rv s) (ent (tail_id s)))
                     else vsub (vadd (ent (head_id s)) (rv s)) (ent j))
                  (neg_ids s))
           batch)
  = map (fun s =>
           map (fun j =>
                  if corrupt_head
                  then translational_score gamma (ent j) (rv s)
                         (ent (tail_id s))
                  else translational_score gamma (ent (head_id s)) (rv s)
                         (ent j))
               (neg_ids s))
        batch.
Proof.
  rewrite map_map. apply map_ext. intros s. rewrite map_map.
  apply map_ext. intros j.
  unfold RobertaForTransE.score, translational_score. cbn [norm].
  destruct corrupt_head; [now rewrite vadd_vsub_assoc | reflexivity].
Qed.

End TransEResiduals.

(** * Further properties of the modelled code *)

(** ** The marginal span loss: errors and bounds *)

Section SpanLossMore.
Import RobertaForTriviaQuestionAnswering.

Lemma gather_row_stray (row : list R) (trow : list Z) :
  Exists (stray (length row)) trow ->
  gather_row row
    (map (fun t => (t * (1 - (if Z.eqb t (-1) then 1 else 0)))%Z) trow)
  = Exn IndexOutOfRange.
Proof.
  unfold gather_row.
  induction 1 as [t trow [Hne Hout] | t trow _ IH]; cbn [map mapM].
  - destruct (Z.eqb_spec t (-1)) as [E|_]; [contradiction|].
    replace (t * (1 - 0))%Z with t by lia.
    replace ((0 <=? t)%Z && (t <? Z.of_nat (length row))%Z)%bool with false.
    + reflexivity.
    + symmetry. apply andb_false_iff.
      destruct Hout; [left; apply Z.leb_gt | right; apply Z.ltb_ge]; lia.
  - rewrite IH.
    destruct ((0 <=? _)%Z && _)%bool; [|reflexivity].
    destruct (nth_error row _); reflexivity.
Qed.

Lemma gather_row_outcome (row : list R) (idx : list Z) :
  (exists g, gather_row row idx = Fin g)
  \/ gather_row row idx = Exn IndexOutOfRange.
Proof.
  unfold gather_row. induction idx as [|i idx IH]; cbn [mapM].
  - left; eexists; reflexivity.
  - destruct ((0 <=? i)%Z && _)%bool; [|now right].
    destruct (nth_error row _); [|now right]. cbn [bind].
    destruct IH as [[g ->] | ->]; [left; eexists; reflexivity | now right].
Qed.

Lemma gather_stray (L : nat) (logits : mat) (target : list (list Z)) :
  Forall (fun r => length r = L) logits ->
  length target = length logits ->
  Exists (Exists (stray L)) target ->
  gather logits (masked_target target (-1)) = Exn IndexOutOfRange.
Proof.
  intros Hw Hlen Hex. revert logits Hw Hlen.
  induction Hex as [trow target Hbad | trow target _ IH];
    intros [|row logits] Hw Hlen; try discriminate;
    inversion Hw as [|? ? Hrow Hw']; subst;
    unfold masked_target in *; cbn [map gather].
  - now rewrite gather_row_stray.
  - rewrite (IH logits Hw' ltac:(simpl in Hlen; lia)).
    destruct (gather_row_outcome row
                (map (fun t => (t * (1 - (if Z.eqb t (-1) then 1 else 0)))%Z)
                     trow)) as [[g ->] | ->]; reflexivity.
Qed.

(** X1: a target entry other than [ignore_index] that is negative or not
    below the row length makes the loss raise an index error, wherever it
    stands in the batch. *)
Theorem span_loss_rejects_stray_target
  (L : nat) (logits : mat) (target : list (list Z)) :
  Forall (fun r => length r = L) logits ->
  length target = length logits ->
  Exists (Exists (fun t => t <> (-1)%Z /\ (t < 0 \/ Z.of_nat L <= t)%Z))
         target ->
  or_softmax_cross_entropy_loss_one_doc logits target (-1)
  = Exn IndexOutOfRange.
Proof.
  intros Hw Hlen Hex. unfold or_softmax_cross_entropy_loss_one_doc.
  now rewrite (gather_stray L logits target Hw Hlen Hex).
Qed.

Lemma span_loss_rejects_stray_target_witness :
  or_softmax_cross_entropy_loss_one_doc
    [[5; 1; 1; 1]; [2; 0; 3; 1]] [[0; -1]; [2; 4]]%Z (-1)
  = Exn IndexOutOfRange.
Proof.
  apply (span_loss_rejects_stray_target 4).
  - repeat constructor.
  - reflexivity.
  - apply Exists_cons_tl, Exists_cons_hd, Exists_cons_tl, Exists_cons_hd.
    split; lia.
Defined.

Lemma exp_le_Rsum (x : R) (row : list R) :
  In x row -> exp x <= Rsum (map exp row).
Proof.
  induction row as [|y row IH]; [contradiction|].
  intros [->|Hin]; cbn [map Rsum fold_right].
  - assert (0 <= fold_right Rplus 0 (map exp row)).
    { destruct row as [|z row]; [simpl; lra|].
      left. apply (Rsum_exp_pos (z :: row)). discriminate. }
    lra.
  - specialize (IH Hin). pose proof (exp_pos y). unfold Rsum in IH. lra.
Qed.

Lemma Rsum_le_bound (c : R) (l : list R) :
  Forall (fun x => x <= c) l -> Rsum l <= INR (length l) * c.
Proof.
  induction 1 as [|x l Hx _ IH]; [simpl; lra|].
  rewrite length_cons, S_INR. cbn [Rsum fold_right].
  unfold Rsum in IH. lra.
Qed.

Lemma Rsum_ge_bound (c : R) (l : list R) :
  Forall (fun x => c <= x) l -> INR (length l) * c <= Rsum l.
Proof.
  induction 1 as [|x l Hx _ IH]; [simpl; lra|].
  rewrite length_cons, S_INR. cbn [Rsum fold_right].
  unfold Rsum in IH. lra.
Qed.

Lemma exp_increasing_le (x y : R) : x <= y -> exp x <= exp y.
Proof.
  intros [H| ->]; [left; now apply exp_increasing | right; reflexivity].
Qed.

(** Every gathered value is dominated by the normaliser of its row. *)
Lemma g_row_dominated (L : nat) (row : list R) (trow : list Z) :
  length row = L -> (0 < L)%nat ->
  Forall (fun x => -10000 <= x) row ->
  Forall (fun t => t = (-1)%Z \/ (0 <= t < Z.of_nat L)%Z) trow ->
  Forall (fun g => g <= Rsum (map exp row)) (map exp (g_row row trow)).
Proof.
  intros HL Hpos Hlow Hr. unfold g_row, placeholder.
  induction Hr as [|t trow Ht _ IH]; [constructor|].
  cbn [map combine fst snd]. constructor; [|exact IH].
  destruct Ht as [->|Ht]; cbn [Z.eqb Pos.eqb].
  - destruct row as [|x row]; [simpl in HL; lia|].
    inversion Hlow as [|? ? Hx _]; subst.
    apply Rle_trans with (exp x).
    + apply exp_increasing_le. unfold sentinel. exact Hx.
    + apply exp_le_Rsum. now left.
  - destruct (Z.eqb_spec t (-1)) as [E|_]; [lia|].
    apply exp_le_Rsum. apply nth_In. lia.
Qed.

Lemma example_loss_lower_bound (L : nat) (row : list R) (trow : list Z) :
  length row = L -> (0 < L)%nat -> trow <> [] ->
  Forall (fun x => -10000 <= x) row ->
  Forall (fun t => t = (-1)%Z \/ (0 <= t < Z.of_nat L)%Z) trow ->
  - ln (INR (length trow)) <= example_loss row trow.
Proof.
  intros HL Hpos Hne Hlow Hr. unfold example_loss, lse.
  pose proof (Rsum_le_bound _ _ (g_row_dominated L row trow HL Hpos Hlow Hr))
    as Hsum.
  rewrite length_map, g_row_length in Hsum.
  assert (HZ : 0 < Rsum (map exp row)).
  { apply Rsum_exp_pos. intros ->. simpl in HL. lia. }
  assert (HG : 0 < Rsum (map exp (g_row row trow))).
  { apply Rsum_exp_pos. intros E.
    apply (f_equal (@length R)) in E. rewrite g_row_length in E.
    destruct trow; [congruence|discriminate]. }
  assert (HT : 0 < INR (length trow)).
  { apply lt_0_INR. destruct trow; [congruence|simpl; lia]. }
  assert (Hln : ln (Rsum (map exp (g_row row trow)))
                <= ln (INR (length trow)) + ln (Rsum (map exp row))).
  { rewrite <- ln_mult by assumption.
    destruct Hsum as [Hlt|Heq].
    - left. now apply ln_increasing.
    - right. now rewrite Heq. }
  lra.
Qed.

(** X2: with logits that are not below the sentinel, no choice of targets
    brings the loss under [- ln T_max]; the duplicated targets of C10 reach
    this bound. *)
Theorem span_loss_lower_bound
  (N L T : nat) (logits : mat) (target : list (list Z)) :
  (0 < N)%nat -> (0 < L)%nat -> (0 < T)%nat ->
  shape N L logits -> shape N T target -> in_range L target ->
  Forall (Forall (fun x => -10000 <= x)) logits ->
  exists v : R,
    or_softmax_cross_entropy_loss_one_doc logits target (-1) = Fin v
    /\ - ln (INR T) <= v.
Proof.
  intros HN HL HT Hlog Htar Hr Hlow.
  eexists; split; [apply (or_softmax_value N L T); assumption|].
  unfold marginal_span_loss.
  assert (Hall : Forall (fun x => - ln (INR T) <= x)
                   (map (fun rt : list R * list Z =>
                           example_loss (fst rt) (snd rt))
                        (combine logits target))).
  { apply Forall_forall. intros x Hx.
    apply in_map_iff in Hx as [[row trow] [<- Hin]]. cbn [fst snd].
    pose proof (in_combine_l _ _ _ _ Hin) as Hrow.
    pose proof (in_combine_r _ _ _ _ Hin) as Htrow.
    pose proof (proj1 (Forall_forall _ _) (proj2 Htar) _ Htrow) as HlenT.
    rewrite <- HlenT.
    apply (example_loss_lower_bound L).
    - exact (proj1 (Forall_forall _ _) (proj2 Hlog) _ Hrow).
    - exact HL.
    - intros ->. simpl in HlenT. lia.
    - exact (proj1 (Forall_forall _ _) Hlow _ Hrow).
    - exact (proj1 (Forall_forall _ _) Hr _ Htrow). }
  apply Rsum_ge_bound in Hall.
  rewrite length_map, length_combine in Hall.
  destruct Hlog as [HlenL _], Htar as [HlenT _].
  rewrite HlenL, HlenT, Nat.min_id in Hall.
  assert (0 < INR N) by (apply lt_0_INR; lia).
  rewrite HlenL.
  apply Rmult_le_reg_l with (INR N); [assumption|].
  replace (INR N * (Rsum (map (fun rt : list R * list Z =>
                                 example_loss (fst rt) (snd rt))
                              (combine logits target)) / INR N))
    with (Rsum (map (fun rt : list R * list Z =>
                       example_loss (fst rt) (snd rt))
                    (combine logits target)))
    by (field; lra).
  exact Hall.
Qed.

Lemma span_loss_lower_bound_witness :
  exists v : R,
    or_softmax_cross_entropy_loss_one_doc
      [[5; 1; 1; 1]; [2; 0; 3; 1]] [[0; 0]; [2; -1]]%Z (-1) = Fin v
    /\ - ln (INR 2) <= v.
Proof.
  apply (span_loss_lower_bound 2 4 2); try lia.
  - split; [reflexivity | repeat constructor].
  - split; [reflexivity | repeat constructor].
  - repeat constructor; lia.
  - repeat constructor; lra.
Defined.


(** A sum over distinct indices below [n] is at most the sum over all the
    indices below [n], for non-negative terms. *)
Lemma Rsum_distinct_indices (f : nat -> R) (n : nat) (idx : list nat) :
  (forall i, 0 <= f i) -> NoDup idx -> Forall (fun i => (i < n)%nat) idx ->
  Rsum (map f idx) <= Rsum (map f (seq 0 n)).
Proof.
  intros Hf. revert idx. induction n as [|n IH]; intros idx Hnd Hlt.
  - destruct idx as [|i idx]; [simpl; lra|].
    inversion Hlt; subst; lia.
  - rewrite seq_S, map_app, Rsum_app. cbn [Nat.add map Rsum fold_right].
    destruct (in_dec Nat.eq_dec n idx) as [Hin|Hnin].
    + apply in_split in Hin as [l1 [l2 ->]].
      rewrite map_app, Rsum_app. cbn [map Rsum fold_right].
      apply NoDup_remove in Hnd as [Hnd Hnotin].
      assert (Hlt' : Forall (fun i => (i < n)%nat) (l1 ++ l2)).
      { apply Forall_forall. intros i Hi.
        assert (i <> n) by (intros ->; contradiction).
        assert (In i (l1 ++ n :: l2)).
        { apply in_app_or in Hi. apply in_or_app.
          destruct Hi; [now left | right; now right]. }
        pose proof (proj1 (Forall_forall _ _) Hlt i H0). simpl in H1. lia. }
      specialize (IH _ Hnd Hlt'). rewrite map_app, Rsum_app in IH.
      unfold Rsum in *. lra.
    + assert (Hlt' : Forall (fun i => (i < n)%nat) idx).
      { apply Forall_forall. intros i Hi.
        assert (i <> n) by (intros ->; contradiction).
        pose proof (proj1 (Forall_forall _ _) Hlt i Hi). simpl in H0. lia. }
      specialize (IH _ Hnd Hlt'). pose proof (Hf n). lra.
Qed.

Lemma map_nth_seq (row : list R) :
  map (fun i => nth i row 0) (seq 0 (length row)) = row.
Proof.
  induction row as [|x row IH]; [reflexivity|].
  cbn [length seq map nth]. rewrite <- seq_shift, map_map. now rewrite IH.
Qed.

(** With valid targets only, [g_row] is the row read at the targets. *)
Lemma g_row_valid (row : list R) (trow : list Z) :
  Forall (fun t => (0 <= t)%Z) trow ->
  g_row row trow = map (fun i => nth i row 0) (map Z.to_nat trow).
Proof.
  unfold g_row, placeholder.
  induction 1 as [|t trow Ht _ IH]; [reflexivity|].
  cbn [map combine fst snd]. rewrite IH.
  destruct (Z.eqb_spec t (-1)) as [E|_]; [lia | reflexivity].
Qed.

Lemma example_loss_nonneg (row : list R) (trow : list Z) :
  row <> [] -> trow <> [] -> NoDup trow ->
  Forall (fun t => (0 <= t < Z.of_nat (length row))%Z) trow ->
  0 <= example_loss row trow.
Proof.
  intros Hrow Hne Hnd Hr. unfold example_loss, lse.
  assert (Hpos : Forall (fun t => (0 <= t)%Z) trow).
  { eapply Forall_impl; [|exact Hr]. intros t Ht. cbn in Ht. lia. }
  rewrite (g_row_valid row trow Hpos), map_map.
  assert (Hle : Rsum (map (fun i => exp (nth i row 0)) (map Z.to_nat trow))
                <= Rsum (map exp row)).
  { replace (map exp row)
      with (map (fun i => exp (nth i row 0)) (seq 0 (length row)))
      by (now rewrite <- (map_map (fun i => nth i row 0) exp), map_nth_seq).
    apply Rsum_distinct_indices.
    - intros i. left. apply exp_pos.
    - clear Hne Hr. induction Hnd as [|t trow Hnin Hnd IH]; [constructor|].
      inversion Hpos as [|? ? Ht Hpos']; subst.
      cbn [map]. constructor; [|now apply IH].
      intros Hin. apply in_map_iff in Hin as [t' [Heq Hin]].
      pose proof (proj1 (Forall_forall _ _) Hpos' t' Hin) as Ht'.
      cbn in Ht'. assert (t' = t) by lia. subst. contradiction.
    - apply Forall_forall. intros i Hi.
      apply in_map_iff in Hi as [t [<- Hin]].
      pose proof (proj1 (Forall_forall _ _) Hr t Hin) as Ht. cbn in Ht. lia. }
  assert (HG : 0 < Rsum (map (fun i => exp (nth i row 0))
                             (map Z.to_nat trow))).
  { rewrite <- (map_map (fun i => nth i row 0) exp).
    apply Rsum_exp_pos. destruct trow; [congruence|discriminate]. }
  assert (ln (Rsum (map (fun i => exp (nth i row 0)) (map Z.to_nat trow)))
          <= ln (Rsum (map exp row))).
  { destruct Hle as [Hlt|Heq];
      [left; now apply ln_increasing | right; now rewrite Heq]. }
  lra.
Qed.

(** X3: when the targets of every example are valid positions without
    repetition (no ignored slot), the loss is not negative. *)
Theorem span_loss_nonneg_on_distinct_targets
  (N L T : nat) (logits : mat) (target : list (list Z)) :
  (0 < N)%nat -> (0 < L)%nat -> (0 < T)%nat ->
  shape N L logits -> shape N T target ->
  Forall (fun trow => NoDup trow
                      /\ Forall (fun t => (0 <= t < Z.of_nat L)%Z) trow)
         target ->
  exists v : R,
    or_softmax_cross_entropy_loss_one_doc logits target (-1) = Fin v
    /\ 0 <= v.
Proof.
  intros HN HL HT Hlog Htar Hdist.
  assert (Hr : in_range L target).
  { eapply Forall_impl; [|exact Hdist]. intros trow [_ H].
    eapply Forall_impl; [|exact H]. intros t Ht. now right. }
  eexists; split; [apply (or_softmax_value N L T); assumption|].
  unfold marginal_span_loss.
  assert (Hall : Forall (fun x => 0 <= x)
                   (map (fun rt : list R * list Z =>
                           example_loss (fst rt) (snd rt))
                        (combine logits target))).
  { apply Forall_forall. intros x Hx.
    apply in_map_iff in Hx as [[row trow] [<- Hin]]. cbn [fst snd].
    pose proof (in_combine_l _ _ _ _ Hin) as Hrow.
    pose proof (in_combine_r _ _ _ _ Hin) as Htrow.
    pose proof (proj1 (Forall_forall _ _) (proj2 Htar) _ Htrow) as HlenT.
    pose proof (proj1 (Forall_forall _ _) (proj2 Hlog) _ Hrow) as HlenL.
    destruct (proj1 (Forall_forall _ _) Hdist _ Htrow) as [Hnd Hv].
    apply example_loss_nonneg.
    - intros ->. simpl in HlenL. lia.
    - intros ->. simpl in HlenT. lia.
    - exact Hnd.
    - now rewrite HlenL. }
  apply Rsum_ge_bound in Hall. rewrite Rmult_0_r in Hall.
  assert (0 < INR (length logits)).
  { apply lt_0_INR. destruct Hlog. lia. }
  apply Rmult_le_reg_l with (INR (length logits)); [assumption|].
  rewrite Rmult_0_r.
  replace (INR (length logits) *
           (Rsum (map (fun rt : list R * list Z =>
                         example_loss (fst rt) (snd rt))
                      (combine logits target)) / INR (length logits)))
    with (Rsum (map (fun rt : list R * list Z =>
                       example_loss (fst rt) (snd rt))
                    (combine logits target)))
    by (field; lra).
  exact Hall.
Qed.

Lemma span_loss_nonneg_on_distinct_targets_witness :
  exists v : R,
    or_softmax_cross_entropy_loss_one_doc
      [[5; 1; 1; 1]; [2; 0; 3; 1]] [[0; 3]; [2; 1]]%Z (-1) = Fin v
    /\ 0 <= v.
Proof.
  apply (span_loss_nonneg_on_distinct_targets 2 4 2); try lia.
  - split; [reflexivity | repeat constructor].
  - split; [reflexivity | repeat constructor].
  - repeat constructor; simpl; try lia; intuition lia.
Defined.

Lemma g_row_app (row : list R) (t1 t2 : list Z) :
  g_row row (t1 ++ t2) = g_row row t1 ++ g_row row t2.
Proof.
  unfold g_row, placeholder.
  induction t1 as [|t t1 IH]; [reflexivity|].
  cbn [app map combine]. now rewrite IH.
Qed.

(** X4: on one example, filling an ignored slot with a valid position
    whose logit is not below the sentinel never raises the loss, whatever
    the other slots hold. *)
Theorem span_loss_gold_slot_does_not_raise_loss
  (row : list R) (pre post : list Z) (x : Z) :
  (0 <= x < Z.of_nat (length row))%Z ->
  -10000 <= nth (Z.to_nat x) row 0 ->
  Forall (fun t => t = (-1)%Z \/ (0 <= t < Z.of_nat (length row))%Z)
         (pre ++ post) ->
  exists v_gold v_ignored : R,
    or_softmax_cross_entropy_loss_one_doc [row] [pre ++ x :: post] (-1)
      = Fin v_gold
    /\ or_softmax_cross_entropy_loss_one_doc [row]
         [pre ++ (-1)%Z :: post] (-1) = Fin v_ignored
    /\ v_gold <= v_ignored.
Proof.
  intros Hx Hlogit Hr.
  assert (HL : (0 < length row)%nat) by lia.
  apply Forall_app in Hr as [Hpre Hpost].
  assert (Hside : forall y, (y = (-1)%Z \/ (0 <= y < Z.of_nat (length row))%Z) ->
            or_softmax_cross_entropy_loss_one_doc [row] [pre ++ y :: post] (-1)
            = Fin (marginal_span_loss [row] [pre ++ y :: post])).
  { intros y Hy.
    apply (or_softmax_value 1 (length row) (length (pre ++ y :: post))).
    - lia.
    - exact HL.
    - rewrite length_app. simpl. lia.
    - split; [reflexivity | repeat constructor].
    - split; [reflexivity | repeat constructor].
    - constructor; [|constructor].
      apply Forall_app; split; [exact Hpre | now constructor]. }
  do 2 eexists. split; [apply Hside; now right|].
  split; [apply Hside; now left|].
  unfold marginal_span_loss, example_loss, lse.
  cbn [combine map fst snd Rsum fold_right length INR].
  rewrite !g_row_app, !map_app, !Rsum_app.
  change (x :: post) with ([x] ++ post).
  change ((-1)%Z :: post) with ([(-1)%Z] ++ post).
  rewrite !g_row_app, !map_app, !Rsum_app.
  unfold g_row at 2 5, placeholder. cbn [map combine fst snd].
  destruct (Z.eqb_spec x (-1)) as [E|_]; [lia|].
  cbn [Z.eqb Pos.eqb Rsum fold_right].
  set (A := Rsum (map exp (g_row row pre))).
  set (B := Rsum (map exp (g_row row post))).
  assert (HA : 0 <= A).
  { unfold A. destruct (g_row row pre) as [|g gs]; [simpl; lra|].
    left. apply (Rsum_exp_pos (g :: gs)). discriminate. }
  assert (HB : 0 <= B).
  { unfold B. destruct (g_row row post) as [|g gs]; [simpl; lra|].
    left. apply (Rsum_exp_pos (g :: gs)). discriminate. }
  pose proof (exp_pos sentinel) as Hs.
  assert (Hle : exp sentinel <= exp (nth (Z.to_nat x) row 0)).
  { destruct Hlogit as [Hlt|Heq].
    - left. apply exp_increasing. unfold sentinel. lra.
    - right. unfold sentinel. now rewrite Heq. }
  assert (ln (A + (exp sentinel + 0 + B))
          <= ln (A + (exp (nth (Z.to_nat x) row 0) + 0 + B))).
  { destruct Hle as [Hlt|Heq].
    - left. apply ln_increasing; lra.
    - rewrite Heq. lra. }
  lra.
Qed.

Lemma span_loss_gold_slot_does_not_raise_loss_witness :
  exists v_gold v_ignored : R,
    or_softmax_cross_entropy_loss_one_doc [[5; 4; 1; 1]]
      [[0%Z] ++ 3%Z :: [(-1)%Z]] (-1) = Fin v_gold
    /\ or_softmax_cross_entropy_loss_one_doc [[5; 4; 1; 1]]
         [[0%Z] ++ (-1)%Z :: [(-1)%Z]] (-1) = Fin v_ignored
    /\ v_gold <= v_ignored.
Proof.
  apply (span_loss_gold_slot_does_not_raise_loss
           [5; 4; 1; 1] [0%Z] [(-1)%Z] 3).
  - simpl; lia.
  - simpl; lra.
  - repeat constructor; simpl; lia.
Defined.

End SpanLossMore.

(** ** RobertaForTransE: weights, evaluation path, subsampling, errors *)

Lemma val_dsum (l : list dual) : val (dsum l) = Rsum (map val l).
Proof.
  induction l as [|x l IH]; [reflexivity|].
  cbn [dsum fold_right map Rsum val dadd].
  change (fold_right dadd (dconst 0) l) with (dsum l).
  change (fold_right Rplus 0 (map val l)) with (Rsum (map val l)).
  now rewrite IH.
Qed.

Lemma Rsum_map_div {A : Type} (f : A -> R) (z : R) (l : list A) :
  Rsum (map (fun a => f a / z) l) = Rsum (map f l) / z.
Proof.
  induction l as [|a l IH]; cbn [map Rsum fold_right].
  - unfold Rdiv. ring.
  - unfold Rsum in IH. rewrite IH. unfold Rdiv. ring.
Qed.

Lemma Rsum_exp_val_pos (row : list dual) :
  row <> [] -> 0 < Rsum (map (fun x => exp (val x)) row).
Proof.
  intros Hne. rewrite <- (map_map val exp).
  apply Rsum_exp_pos. destruct row; [congruence | discriminate].
Qed.

(** X5: the self-adversarial weights of one query, as the code computes
    them ([F.softmax(negative_score * 1.0, dim = 1).detach()]), are
    positive, sum to one and carry no derivative. *)
Theorem self_adversarial_weights_are_a_distribution (row : list dual) :
  row <> [] ->
  let w := map detach (softmax (map (fun s => dmul s (dconst 1)) row)) in
  Rsum (map val w) = 1
  /\ Forall (fun x => 0 < val x /\ tan x = 0) w
  /\ length w = length row.
Proof.
  intros Hne w. unfold w. rewrite detached_softmax.
  pose proof (Rsum_exp_val_pos row Hne) as HZ.
  split; [|split].
  - rewrite map_map. cbn [val dconst]. rewrite map_id.
    unfold softmax_weights. rewrite Rsum_map_div. field. lra.
  - apply Forall_forall. intros x Hx.
    apply in_map_iff in Hx as [r [<- Hr]]. cbn [val tan dconst].
    split; [|reflexivity]. unfold softmax_weights in Hr.
    apply in_map_iff in Hr as [s [<- _]].
    apply Rdiv_lt_0_compat; [apply exp_pos | exact HZ].
  - unfold softmax_weights. now rewrite !length_map.
Qed.

Lemma self_adversarial_weights_are_a_distribution_witness :
  let row := [Dual 1 3; Dual (-2) 1; Dual 0 0] in
  let w := map detach (softmax (map (fun s => dmul s (dconst 1)) row)) in
  Rsum (map val w) = 1
  /\ Forall (fun x => 0 < val x /\ tan x = 0) w
  /\ length w = length row.
Proof.
  apply (self_adversarial_weights_are_a_distribution
           [Dual 1 3; Dual (-2) 1; Dual 0 0]).
  discriminate.
Defined.

Lemma val_norm1_nonneg (x : list dual) : 0 <= val (norm 1 x).
Proof.
  cbn [norm]. rewrite val_dsum, map_map. cbn [val dabs].
  induction x as [|a x IH]; cbn [map Rsum fold_right]; [lra|].
  pose proof (Rabs_pos (val a)). unfold Rsum in IH. lra.
Qed.

(** X6: without [input_ids] and without [subsampling_weight] the head is
    in evaluation: on a batch given example by example, with the relation
    looked up by [relation_idx], it returns no loss but the matrix of the
    negative scores, [gamma - ||n + r - t||_1] when the head is replaced
    ([neg_e1_idxs] given) and [gamma - ||h + r - n||_1] when the tail is;
    no score exceeds [gamma]. *)
Theorem transe_evaluation_returns_bounded_scores
  (tokens : Type) (ent_embeddings rel_embeddings : Z -> list dual)
  (roberta_rel_head : tokens -> list (list dual)) (gamma : R) (d : nat)
  (batch : list triple_sample)
  (neg_e1_idxs neg_e2_idxs : option (list (list Z)))
  (corrupt_head : bool) :
  (forall i, length (ent_embeddings i) = d) ->
  (forall i, length (rel_embeddings i) = d) ->
  (neg_e1_idxs = Some (map neg_ids batch) /\ corrupt_head = true)
  \/ (neg_e1_idxs = None /\ neg_e2_idxs = Some (map neg_ids batch)
      /\ corrupt_head = false) ->
  let r := fun s : triple_sample => rel_embeddings (rel_id s) in
  let h := fun s : triple_sample => ent_embeddings (head_id s) in
  let t := fun s : triple_sample => ent_embeddings (tail_id s) in
  let negative_score :=
    map (fun s =>
           map (fun j =>
                  if corrupt_head
                  then translational_score gamma (ent_embeddings j) (r s)
                         (t s)
                  else translational_score gamma (h s) (r s)
                         (ent_embeddings j))
               (neg_ids s))
        batch in
  RobertaForTransE.forward tokens ent_embeddings rel_embeddings
    roberta_rel_head gamma
    (RobertaForTransE.Inputs tokens None (map head_id batch)
       (map tail_id batch) neg_e1_idxs neg_e2_idxs
       (Some (map rel_id batch)) None)
  = Fin (RobertaForTransE.Scores negative_score)
  /\ Forall (Forall (fun s => val s <= gamma)) negative_score.
Proof.
  intros Hent Hrel Hneg r h t negative_score. split.
  - assert (Hneg' :
      (Some (map rel_id batch) <> None
       /\ neg_e1_idxs = Some (map neg_ids batch) /\ corrupt_head = true)
      \/ (Some (map rel_id batch) <> None /\ neg_e1_idxs = None
          /\ neg_e2_idxs = Some (map neg_ids batch)
          /\ corrupt_head = false)
      \/ (Some (map rel_id batch) = None
          /\ neg_e2_idxs = Some (map neg_ids batch)
          /\ corrupt_head = false)).
    { destruct Hneg as [[H1 H2]|[H1 [H2 H3]]].
      - left. repeat split; try assumption. discriminate.
      - right. left. repeat split; try assumption. discriminate. }
    pose proof (transe_residuals_value tokens ent_embeddings rel_embeddings
                  roberta_rel_head d Hent Hrel batch None
                  (Some (map rel_id batch)) neg_e1_idxs neg_e2_idxs None
                  corrupt_head eq_refl Hneg') as Hres.
    cbv zeta in Hres.
    unfold RobertaForTransE.forward. rewrite Hres.
    cbn [bind fst snd RobertaForTransE.input_ids
         RobertaForTransE.subsampling_weight RobertaForTransE.is_none andb].
    now rewrite (transe_scores_of_residuals ent_embeddings gamma batch).
  - apply Forall_forall. intros row Hrow.
    apply in_map_iff in Hrow as [s [<- _]].
    apply Forall_forall. intros x Hx.
    apply in_map_iff in Hx as [j [<- _]].
    assert (Hb : forall a b c : list dual,
              val (translational_score gamma a b c) <= gamma).
    { intros a b c. unfold translational_score. cbn [val dsub dconst].
      pose proof (val_norm1_nonneg (vsub (vadd a b) c)) as Hn.
      cbn [norm] in Hn. lra. }
    destruct corrupt_head; apply Hb.
Qed.

Lemma transe_evaluation_returns_bounded_scores_witness :
  let ent := fun i : Z => [Dual (IZR i) 1; dconst 2] in
  let rel := fun _ : Z => [Dual 3 1; dconst 1] in
  let head := fun _ : unit => [[Dual 20 1; dconst 40]] in
  let batch := [Sample 1 2 0 [] [3; 4]%Z] in
  let negative_score :=
    map (fun s =>
           map (fun j =>
                  if true
                  then translational_score 12 (ent j) (rel (rel_id s))
                         (ent (tail_id s))
                  else translational_score 12 (ent (head_id s))
                         (rel (rel_id s)) (ent j))
               (neg_ids s))
        batch in
  RobertaForTransE.forward unit ent rel head 12
    (RobertaForTransE.Inputs unit None (map head_id batch)
       (map tail_id batch) (Some (map neg_ids batch)) None
       (Some (map rel_id batch)) None)
  = Fin (RobertaForTransE.Scores negative_score)
  /\ Forall (Forall (fun s => val s <= 12)) negative_score.
Proof.
  apply (transe_evaluation_returns_bounded_scores unit
           (fun i : Z => [Dual (IZR i) 1; dconst 2])
           (fun _ : Z => [Dual 3 1; dconst 1])
           (fun _ : unit => [[Dual 20 1; dconst 40]]) 12 2
           [Sample 1 2 0 [] [3; 4]%Z] (Some [[3; 4]%Z]) None true).
  - reflexivity.
  - reflexivity.
  - left. split; reflexivity.
Defined.

Lemma transe_final_expression (gamma : R)
  (p_score : list (list dual)) (n_score : list (list (list dual))) :
  let positive_score :=
    map logsigmoid (map (RobertaForTransE.score gamma) p_score) in
  let negative_score :=
    map RobertaForTransE.weighted_row
        (map (map (RobertaForTransE.score gamma)) n_score) in
  dquot (dadd
           (dneg (dquot (dsum positive_score)
                        (dconst (INR (length positive_score)))))
           (dneg (dquot (dsum negative_score)
                        (dconst (INR (length negative_score))))))
        (dconst 2)
  = self_adversarial_loss (map (RobertaForTransE.score gamma) p_score)
      (map (map (RobertaForTransE.score gamma)) n_score).
Proof.
  cbv zeta. unfold self_adversarial_loss. rewrite !map_map.
  rewrite (dneg_mean (fun x => logsigmoid (RobertaForTransE.score gamma x))).
  rewrite (dneg_mean (fun x => RobertaForTransE.weighted_row
                                 (map (RobertaForTransE.score gamma) x))).
  rewrite (map_ext
             (fun x => dneg (RobertaForTransE.weighted_row
                               (map (RobertaForTransE.score gamma) x)))
             (fun x => dneg (dsum (map (fun ws : R * dual =>
                                dmul (dconst (fst ws))
                                     (logsigmoid (dneg (snd ws))))
                             (combine
                                (softmax_weights
                                   (map (RobertaForTransE.score gamma) x))
                                (map (RobertaForTransE.score gamma) x))))))
    by (intros x; now rewrite weighted_row_constants).
  reflexivity.
Qed.

Lemma combine_repeat_l {A B : Type} (c : A) (l : list B) :
  combine (repeat c (length l)) l = map (fun x => (c, x)) l.
Proof. induction l as [|x l IH]; simpl; [reflexivity | now rewrite IH]. Qed.

Lemma dsum_scaled (c : R) (l : list dual) :
  dsum (map (fun x => dmul (dconst c) x) l)
  = Dual (c * val (dsum l)) (c * tan (dsum l)).
Proof.
  induction l as [|x l IH]; cbn [map dsum fold_right].
  - apply dual_eq; cbn [val tan dconst]; ring.
  - change (fold_right dadd (dconst 0)) with dsum. rewrite IH.
    apply dual_eq; cbn [val tan dadd dmul dconst]; ring.
Qed.

Lemma dsum_repeat_const (c : R) (n : nat) :
  dsum (repeat (dconst c) n) = Dual (INR n * c) 0.
Proof.
  induction n as [|n IH]; cbn [repeat dsum fold_right].
  - apply dual_eq; cbn [val tan dconst INR]; ring.
  - change (fold_right dadd (dconst 0)) with dsum. rewrite IH, S_INR.
    apply dual_eq; cbn [val tan dadd dconst]; ring.
Qed.

(** A mean with one constant weight on every term is the plain mean. *)
Lemma constant_weight_mean (c : R) (l : list dual) :
  c <> 0 -> l <> [] ->
  (wl <- op1 dmul (repeat (dconst c) (length l)) l ;;
   ddiv (dsum wl) (dsum (repeat (dconst c) (length l))))
  = Fin (dquot (dsum l) (dconst (INR (length l)))).
Proof.
  intros Hc Hne.
  rewrite op1_zip by (now rewrite repeat_length).
  cbn [bind]. rewrite combine_repeat_l, map_map. cbn [fst snd].
  rewrite dsum_scaled, dsum_repeat_const.
  assert (Hn : INR (length l) <> 0).
  { apply not_0_INR. destruct l; [congruence | discriminate]. }
  unfold ddiv. cbn [val].
  destruct (Req_dec_T (INR (length l) * c) 0) as [E|_].
  - exfalso. apply Rmult_integral in E. tauto.
  - f_equal. apply dual_eq; cbn [val tan dquot dconst]; field; tauto.
Qed.

(** X7: a subsampling weight that is the same non-zero constant for every
    example gives the loss of the unweighted formula, in value and in
    derivative (and with a subsampling weight the loss is computed even
    without [input_ids]). *)
Theorem transe_constant_subsampling_weight_is_plain_mean
  (tokens : Type) (ent_embeddings rel_embeddings : Z -> list dual)
  (roberta_rel_head : tokens -> list (list dual)) (gamma c : R)
  (a : RobertaForTransE.inputs tokens)
  (p_score : list (list dual)) (n_score : list (list (list dual))) :
  RobertaForTransE.residuals tokens ent_embeddings rel_embeddings
    roberta_rel_head a = Fin (p_score, n_score) ->
  RobertaForTransE.subsampling_weight tokens a
    = Some (repeat (dconst c) (length p_score)) ->
  c <> 0 -> p_score <> [] -> length n_score = length p_score ->
  RobertaForTransE.forward tokens ent_embeddings rel_embeddings
    roberta_rel_head gamma a
  = Fin (RobertaForTransE.Loss
           (self_adversarial_loss
              (map (RobertaForTransE.score gamma) p_score)
              (map (map (RobertaForTransE.score gamma)) n_score))).
Proof.
  intros Hres Hw Hc Hp Hlen.
  unfold RobertaForTransE.forward. rewrite Hres. cbn [bind fst snd].
  rewrite Hw. cbn [RobertaForTransE.is_none]. rewrite andb_false_r.
  set (P := map logsigmoid (map (RobertaForTransE.score gamma) p_score)).
  set (Nn := map RobertaForTransE.weighted_row
                 (map (map (RobertaForTransE.score gamma)) n_score)).
  assert (LP : length P = length p_score)
    by (unfold P; now rewrite !length_map).
  assert (LN : length Nn = length p_score)
    by (unfold Nn; now rewrite !length_map).
  assert (HP : P <> []).
  { intros E. rewrite E in LP. destruct p_score; [congruence|discriminate]. }
  assert (HN : Nn <> []).
  { intros E. rewrite E in LN. destruct p_score; [congruence|discriminate]. }
  pose proof (constant_weight_mean c P Hc HP) as EP.
  pose proof (constant_weight_mean c Nn Hc HN) as EN.
  rewrite LP in EP. rewrite LN in EN.
  destruct (op1 dmul (repeat (dconst c) (length p_score)) P) as [wp| |];
    cbn [bind] in EP |- *; try discriminate.
  rewrite EP. cbn [bind].
  destruct (op1 dmul (repeat (dconst c) (length p_score)) Nn) as [wn| |];
    cbn [bind] in EN |- *; try discriminate.
  rewrite EN. cbn [bind fst snd].
  rewrite <- LP at 1. rewrite <- LN.
  unfold P, Nn. now rewrite transe_final_expression.
Qed.

Lemma transe_constant_subsampling_weight_is_plain_mean_witness :
  let ent := fun i : Z => [Dual (IZR i) 1] in
  let rel := fun _ : Z => [Dual 3 1] in
  let head := fun _ : unit => [[Dual 20 1]] in
  let a := RobertaForTransE.Inputs unit None [1%Z] [2%Z] None
             (Some [[3; 4]%Z]) (Some [0%Z]) (Some [dconst 7]) in
  RobertaForTransE.forward unit ent rel head 12 a
  = Fin (RobertaForTransE.Loss
           (self_adversarial_loss
              (map (RobertaForTransE.score 12)
                   [[dsub (dadd (Dual 1 1) (Dual 3 1)) (Dual 2 1)]])
              (map (map (RobertaForTransE.score 12))
                   [[[dsub (dadd (Dual 1 1) (Dual 3 1)) (Dual 3 1)];
                     [dsub (dadd (Dual 1 1) (Dual 3 1)) (Dual 4 1)]]]))).
Proof.
  apply (transe_constant_subsampling_weight_is_plain_mean unit
           (fun i : Z => [Dual (IZR i) 1]) (fun _ : Z => [Dual 3 1])
           (fun _ : unit => [[Dual 20 1]]) 12 7).
  - reflexivity.
  - reflexivity.
  - lra.
  - discriminate.
  - reflexivity.
Defined.

Lemma Rsum_nonneg (l : list R) : Forall (fun x => 0 <= x) l -> 0 <= Rsum l.
Proof.
  induction 1 as [|x l Hx _ IH]; cbn [Rsum fold_right]; [lra|].
  unfold Rsum in IH. lra.
Qed.

Lemma Rsum_nonpos (l : list R) : Forall (fun x => x <= 0) l -> Rsum l <= 0.
Proof.
  induction 1 as [|x l Hx _ IH]; cbn [Rsum fold_right]; [lra|].
  unfold Rsum in IH. lra.
Qed.

Lemma Rsum_neg (l : list R) :
  l <> [] -> Forall (fun x => x < 0) l -> Rsum l < 0.
Proof.
  intros Hne H. destruct H as [|x l Hx H]; [congruence|].
  cbn [Rsum fold_right].
  assert (fold_right Rplus 0 l <= 0).
  { apply Rsum_nonpos. eapply Forall_impl; [|exact H]. intros; lra. }
  lra.
Qed.

Lemma Rsum_pos (l : list R) :
  l <> [] -> Forall (fun x => 0 < x) l -> 0 < Rsum l.
Proof.
  intros Hne H. destruct H as [|x l Hx H]; [congruence|].
  cbn [Rsum fold_right].
  assert (0 <= fold_right Rplus 0 l).
  { apply Rsum_nonneg. eapply Forall_impl; [|exact H]. intros; lra. }
  lra.
Qed.

Lemma val_dmean_of (l : list dual) :
  val (dmean_of l) = Rsum (map val l) / INR (length l).
Proof. unfold dmean_of. cbn [val dquot dconst]. now rewrite val_dsum. Qed.

Lemma val_neg_logsigmoid_pos (s : dual) : 0 < val (dneg (logsigmoid s)).
Proof.
  unfold logsigmoid. cbn [val dneg dln dadd dconst dexp].
  rewrite Ropp_involutive, <- ln_1.
  apply ln_increasing; [lra|]. pose proof (exp_pos (- val s)). lra.
Qed.

Lemma softmax_weights_nonneg (row : list dual) :
  Forall (fun w => 0 <= w) (softmax_weights row).
Proof.
  destruct row as [|s row]; [constructor|].
  pose proof (Rsum_exp_val_pos (s :: row) ltac:(discriminate)) as HZ.
  apply Forall_forall. intros w Hw. unfold softmax_weights in Hw.
  apply in_map_iff in Hw as [x [<- _]]. left.
  apply Rdiv_lt_0_compat; [apply exp_pos | exact HZ].
Qed.

Lemma self_adversarial_loss_pos (pos : list dual) (neg : list (list dual)) :
  pos <> [] -> neg <> [] -> 0 < val (self_adversarial_loss pos neg).
Proof.
  intros Hp Hn. unfold self_adversarial_loss.
  cbn [val dquot dadd dconst]. rewrite !val_dmean_of, !length_map.
  assert (HP : 0 < Rsum (map val (map (fun s => dneg (logsigmoid s)) pos))).
  { apply Rsum_pos; [destruct pos; [congruence|discriminate]|].
    apply Forall_forall. intros x Hx.
    apply in_map_iff in Hx as [y [<- Hy]].
    apply in_map_iff in Hy as [s [<- _]]. apply val_neg_logsigmoid_pos. }
  assert (HN : 0 <= Rsum (map val
             (map (fun row =>
                     dneg (dsum (map (fun ws : R * dual =>
                                        dmul (dconst (fst ws))
                                             (logsigmoid (dneg (snd ws))))
                                     (combine (softmax_weights row) row))))
                  neg))).
  { apply Rsum_nonneg. apply Forall_forall. intros x Hx.
    apply in_map_iff in Hx as [y [<- Hy]].
    apply in_map_iff in Hy as [row [<- _]].
    cbn [val dneg]. rewrite val_dsum, map_map.
    assert (Rsum (map (fun ws : R * dual =>
                         val (dmul (dconst (fst ws))
                                   (logsigmoid (dneg (snd ws)))))
                      (combine (softmax_weights row) row)) <= 0); [|lra].
    apply Rsum_nonpos. apply Forall_forall. intros z Hz.
    apply in_map_iff in Hz as [[w s] [<- Hin]]. cbn [fst snd].
    pose proof (proj1 (Forall_forall _ _) (softmax_weights_nonneg row) w
                  (in_combine_l _ _ _ _ Hin)) as Hw.
    pose proof (val_neg_logsigmoid_pos (dneg s)) as Hs.
    cbn [val dneg] in Hs. cbn [val dmul dconst]. nra. }
  assert (0 < INR (length pos))
    by (apply lt_0_INR; destruct pos; [congruence | simpl; lia]).
  assert (0 < INR (length neg))
    by (apply lt_0_INR; destruct neg; [congruence | simpl; lia]).
  assert (0 < Rsum (map val (map (fun s => dneg (logsigmoid s)) pos))
              / INR (length pos)) by (now apply Rdiv_lt_0_compat).
  assert (0 <= Rsum (map val
             (map (fun row =>
                     dneg (dsum (map (fun ws : R * dual =>
                                        dmul (dconst (fst ws))
                                             (logsigmoid (dneg (snd ws))))
                                     (combine (softmax_weights row) row))))
                  neg)) / INR (length neg)).
  { apply Rmult_le_pos; [exact HN|]. left. now apply Rinv_0_lt_compat. }
  lra.
Qed.

(** The loss of [forward] when no subsampling weight is given. *)
Lemma transe_forward_plain (tokens : Type)
  (ent_embeddings rel_embeddings : Z -> list dual)
  (roberta_rel_head : tokens -> list (list dual)) (gamma : R)
  (a : RobertaForTransE.inputs tokens)
  (p_score : list (list dual)) (n_score : list (list (list dual))) :
  RobertaForTransE.residuals tokens ent_embeddings rel_embeddings
    roberta_rel_head a = Fin (p_score, n_score) ->
  RobertaForTransE.input_ids tokens a <> None ->
  RobertaForTransE.subsampling_weight tokens a = None ->
  p_score <> [] -> n_score <> [] ->
  RobertaForTransE.forward tokens ent_embeddings rel_embeddings
    roberta_rel_head gamma a
  = Fin (RobertaForTransE.Loss
           (self_adversarial_loss
              (map (RobertaForTransE.score gamma) p_score)
              (map (map (RobertaForTransE.score gamma)) n_score))).
Proof.
  intros Hres Hids Hw Hp Hn.
  unfold RobertaForTransE.forward. rewrite Hres. cbn [bind fst snd].
  destruct (RobertaForTransE.input_ids tokens a) as [ids|]; [|congruence].
  cbn [RobertaForTransE.is_none andb]. rewrite Hw.
  rewrite dmean_nonempty by (destruct p_score; [congruence|discriminate]).
  cbn [bind].
  rewrite dmean_nonempty by (destruct n_score; [congruence|discriminate]).
  cbn [bind fst snd]. now rewrite transe_final_expression.
Qed.

(** X8: a loss computed by [RobertaForTransE.forward] is strictly
    positive. *)
Theorem transe_loss_is_positive
  (tokens : Type) (ent_embeddings rel_embeddings : Z -> list dual)
  (roberta_rel_head : tokens -> list (list dual)) (gamma : R)
  (a : RobertaForTransE.inputs tokens)
  (p_score : list (list dual)) (n_score : list (list (list dual))) :
  RobertaForTransE.residuals tokens ent_embeddings rel_embeddings
    roberta_rel_head a = Fin (p_score, n_score) ->
  RobertaForTransE.input_ids tokens a <> None ->
  RobertaForTransE.subsampling_weight tokens a = None ->
  p_score <> [] -> n_score <> [] ->
  exists l,
    RobertaForTransE.forward tokens ent_embeddings rel_embeddings
      roberta_rel_head gamma a = Fin (RobertaForTransE.Loss l)
    /\ 0 < val l.
Proof.
  intros Hres Hids Hw Hp Hn. eexists. split.
  - now apply (transe_forward_plain tokens ent_embeddings rel_embeddings
                 roberta_rel_head gamma a p_score n_score).
  - apply self_adversarial_loss_pos.
    + destruct p_score; [congruence|discriminate].
    + destruct n_score; [congruence|discriminate].
Qed.

Lemma transe_loss_is_positive_witness :
  let ent := fun i : Z => [Dual (IZR i) 1] in
  let rel := fun _ : Z => [dconst 0] in
  let head := fun _ : unit => [[Dual 20 1]] in
  let a := RobertaForTransE.Inputs unit (Some tt) [1%Z] [2%Z] None
             (Some [[3; 4]%Z]) None None in
  exists l,
    RobertaForTransE.forward unit ent rel head 12 a
      = Fin (RobertaForTransE.Loss l)
    /\ 0 < val l.
Proof.
  set (r := dmul (dconst RobertaForTransE.bert_ceof) (Dual 20 1)).
  apply (transe_loss_is_positive unit
           (fun i : Z => [Dual (IZR i) 1]) (fun _ : Z => [dconst 0])
           (fun _ : unit => [[Dual 20 1]]) 12
           (RobertaForTransE.Inputs unit (Some tt) [1%Z] [2%Z] None
              (Some [[3; 4]%Z]) None None)
           [[dsub (dadd (Dual 1 1) r) (Dual 2 1)]]
           [[[dsub (dadd (Dual 1 1) r) (Dual 3 1)];
             [dsub (dadd (Dual 1 1) r) (Dual 4 1)]]]).
  - reflexivity.
  - discriminate.
  - reflexivity.
  - discriminate.
  - discriminate.
Defined.

(** X9: with [relation_idx] but neither [neg_e1_idxs] nor [neg_e2_idxs],
    [forward] stops on its [assert(False)], once [h + r - t] has been
    formed; when both are given, the head negatives [neg_e1_idxs] are the
    ones used. *)
Theorem transe_needs_a_negative_side
  (tokens : Type) (ent_embeddings rel_embeddings : Z -> list dual)
  (roberta_rel_head : tokens -> list (list dual)) (gamma : R) (d : nat)
  (ids : option tokens) (e1 e2 ridx : list Z) (w : option (list dual)) :
  (forall i, length (ent_embeddings i) = d) ->
  (forall i, length (rel_embeddings i) = d) ->
  length e2 = length e1 -> length ridx = length e1 ->
  RobertaForTransE.forward tokens ent_embeddings rel_embeddings
    roberta_rel_head gamma
    (RobertaForTransE.Inputs tokens ids e1 e2 None None (Some ridx) w)
  = Exn AssertionFailed
  /\ forall n1 n2,
       RobertaForTransE.residuals tokens ent_embeddings rel_embeddings
         roberta_rel_head
         (RobertaForTransE.Inputs tokens ids e1 e2 (Some n1) (Some n2)
            (Some ridx) w)
       = RobertaForTransE.residuals tokens ent_embeddings rel_embeddings
           roberta_rel_head
           (RobertaForTransE.Inputs tokens ids e1 e2 (Some n1) None
              (Some ridx) w).
Proof.
  intros Hent Hrel L2 Lr. split; [|reflexivity].
  unfold RobertaForTransE.forward, RobertaForTransE.residuals.
  cbn [RobertaForTransE.relation_idx RobertaForTransE.e1_idx
       RobertaForTransE.e2_idx RobertaForTransE.neg_e1_idxs
       RobertaForTransE.neg_e2_idxs].
  rewrite op2_zip.
  - cbn [bind]. rewrite op2_zip.
    + reflexivity.
    + rewrite !length_map, length_combine, !length_map. lia.
    + intros x y Hxy. rewrite combine_map in Hxy.
      apply in_map_iff in Hxy as [[[hi ri] k] [E Hin]].
      inversion E; subst. cbn [fst snd].
      apply in_combine_l in Hin.
      pose proof (in_combine_l _ _ _ _ Hin) as Hh.
      pose proof (in_combine_r _ _ _ _ Hin) as Hr.
      apply in_map_iff in Hh as [i [<- _]].
      apply in_map_iff in Hr as [j [<- _]].
      rewrite length_map, length_combine, !Hent, Hrel. lia.
  - rewrite !length_map. lia.
  - intros x y Hxy. rewrite combine_map in Hxy.
    apply in_map_iff in Hxy as [[i j] [E _]]. inversion E; subst.
    now rewrite Hent, Hrel.
Qed.

Lemma transe_needs_a_negative_side_witness :
  let ent := fun i : Z => [Dual (IZR i) 1] in
  let rel := fun _ : Z => [Dual 3 1] in
  let head := fun _ : unit => [[Dual 20 1]] in
  RobertaForTransE.forward unit ent rel head 12
    (RobertaForTransE.Inputs unit None [1%Z] [2%Z] None None (Some [0%Z])
       None)
  = Exn AssertionFailed
  /\ forall n1 n2,
       RobertaForTransE.residuals unit ent rel head
         (RobertaForTransE.Inputs unit None [1%Z] [2%Z] (Some n1) (Some n2)
            (Some [0%Z]) None)
       = RobertaForTransE.residuals unit ent rel head
           (RobertaForTransE.Inputs unit None [1%Z] [2%Z] (Some n1) None
              (Some [0%Z]) None).
Proof.
  apply (transe_needs_a_negative_side unit
           (fun i : Z => [Dual (IZR i) 1]) (fun _ : Z => [Dual 3 1])
           (fun _ : unit => [[Dual 20 1]]) 12 1).
  - reflexivity.
  - reflexivity.
  - reflexivity.
  - reflexivity.
Defined.

(** C2: when [RobertaForTransE.forward] computes a loss without
    subsampling weight ([input_ids] given), on a batch given example by
    example, with the relation vector [r] looked up by [relation_idx] or,
    without it, [0.05] times the vector of the encoder's relation head,
    the positive score is [gamma - ||h + r - t||_1], each negative score
    is the same formula on the triple whose head (with [relation_idx] and
    [neg_e1_idxs]) or tail (otherwise) is replaced, and the loss is
    [(mean_i (- log sigmoid pos_i)
      + mean_i (- sum_j w_ij * log sigmoid (- neg_ij))) / 2]
    where [w_ij] is the softmax over [j] of the negative scores, entered
    as constants: the equality holds for the derivative too. *)
Theorem transe_loss_is_self_adversarial
  (tokens : Type) (ent_embeddings rel_embeddings : Z -> list dual)
  (roberta_rel_head : tokens -> list (list dual)) (gamma : R) (d : nat)
  (ids : tokens) (batch : list triple_sample)
  (relation_idx : option (list Z))
  (neg_e1_idxs neg_e2_idxs : option (list (list Z)))
  (corrupt_head : bool) :
  (forall i, length (ent_embeddings i) = d) ->
  (forall i, length (rel_embeddings i) = d) ->
  batch <> [] ->
  match relation_idx with
  | Some l => l = map rel_id batch
  | None => roberta_rel_head ids = map rel_enc batch
            /\ Forall (fun s => length (rel_enc s) = d) batch
  end ->
  (relation_idx <> None /\ neg_e1_idxs = Some (map neg_ids batch)
   /\ corrupt_head = true)
  \/ (relation_idx <> None /\ neg_e1_idxs = None
      /\ neg_e2_idxs = Some (map neg_ids batch) /\ corrupt_head = false)
  \/ (relation_idx = None /\ neg_e2_idxs = Some (map neg_ids batch)
      /\ corrupt_head = false) ->
  let r := fun s : triple_sample =>
    match relation_idx with
    | Some _ => rel_embeddings (rel_id s)
    | None => map (dmul (dconst (5 / 100))) (rel_enc s)
    end in
  let h := fun s : triple_sample => ent_embeddings (head_id s) in
  let t := fun s : triple_sample => ent_embeddings (tail_id s) in
  RobertaForTransE.forward tokens ent_embeddings rel_embeddings
    roberta_rel_head gamma
    (RobertaForTransE.Inputs tokens (Some ids) (map head_id batch)
       (map tail_id batch) neg_e1_idxs neg_e2_idxs relation_idx None)
  = Fin (RobertaForTransE.Loss
           (self_adversarial_loss
              (map (fun s => translational_score gamma (h s) (r s) (t s))
                   batch)
              (map (fun s =>
                      map (fun j =>
                             if corrupt_head
                             then translational_score gamma
                                    (ent_embeddings j) (r s) (t s)
                             else translational_score gamma
                                    (h s) (r s) (ent_embeddings j))
                          (neg_ids s))
                   batch))).
Proof.
  intros Hent Hrel Hne Hr Hneg r h t.
  assert (Hr' : match relation_idx with
                | Some l => l = map rel_id batch
                | None => exists ids', Some ids = Some ids'
                            /\ roberta_rel_head ids' = map rel_enc batch
                            /\ Forall (fun s => length (rel_enc s) = d) batch
                end).
  { destruct relation_idx; [exact Hr|]. exists ids. now split. }
  pose proof (transe_residuals_value tokens ent_embeddings rel_embeddings
                roberta_rel_head d Hent Hrel batch (Some ids) relation_idx
                neg_e1_idxs neg_e2_idxs None corrupt_head Hr' Hneg) as Hres.
  cbv zeta in Hres.
  rewrite (transe_forward_plain tokens ent_embeddings rel_embeddings
             roberta_rel_head gamma _ _ _ Hres).
  - rewrite (transe_scores_of_residuals ent_embeddings gamma batch).
    rewrite map_map. reflexivity.
  - discriminate.
  - reflexivity.
  - destruct batch; [congruence | discriminate].
  - destruct batch; [congruence | discriminate].
Qed.

Lemma transe_loss_is_self_adversarial_witness :
  let ent := fun i : Z => [Dual (IZR i) 1; dconst 2] in
  let rel := fun _ : Z => [dconst 0; dconst 0] in
  let head := fun _ : unit => [[Dual 20 1; dconst 40]] in
  let batch := [Sample 1 2 0 [Dual 20 1; dconst 40] [3; 4]%Z] in
  let r := fun s : triple_sample =>
    map (dmul (dconst (5 / 100))) (rel_enc s) in
  RobertaForTransE.forward unit ent rel head 12
    (RobertaForTransE.Inputs unit (Some tt) (map head_id batch)
       (map tail_id batch) None (Some (map neg_ids batch)) None None)
  = Fin (RobertaForTransE.Loss
           (self_adversarial_loss
              (map (fun s => translational_score 12 (ent (head_id s)) (r s)
                               (ent (tail_id s)))
                   batch)
              (map (fun s =>
                      map (fun j =>
                             if false
                             then translational_score 12 (ent j) (r s)
                                    (ent (tail_id s))
                             else translational_score 12 (ent (head_id s))
                                    (r s) (ent j))
                          (neg_ids s))
                   batch))).
Proof.
  apply (transe_loss_is_self_adversarial unit
           (fun i : Z => [Dual (IZR i) 1; dconst 2])
           (fun _ : Z => [dconst 0; dconst 0])
           (fun _ : unit => [[Dual 20 1; dconst 40]]) 12 2 tt
           [Sample 1 2 0 [Dual 20 1; dconst 40] [3; 4]%Z]
           None None (Some [[3; 4]%Z]) false).
  - reflexivity.
  - reflexivity.
  - discriminate.
  - split; [reflexivity | repeat constructor].
  - right. right. repeat split.
Defined.

(** ** The listwise heads: sign of the loss, RobertaForMerge, errors *)

Lemma listwise_loss_value (bsz : nat) (pos_scores : list dual)
  (neg_scores : list (list dual)) :
  (0 < bsz)%nat -> length pos_scores = bsz -> length neg_scores = bsz ->
  listwise_loss bsz pos_scores neg_scores
  = Fin (dmean_of
           (map (fun pn : dual * list dual =>
                   dsub (dln (dsum (map dexp (fst pn :: snd pn)))) (fst pn))
                (combine pos_scores neg_scores))).
Proof.
  intros Hb Hp Hn. unfold listwise_loss, cat_last, unsqueeze_last.
  rewrite length_map, Hp, Hn, Nat.eqb_refl. cbn [bind].
  unfold cross_entropy_label0.
  rewrite length_map, length_combine, length_map, Hp, Hn, Nat.min_id,
    Nat.eqb_refl.
  rewrite combine_map_l, map_map, mapM_map.
  rewrite (mapM_Fin _ (fun pn : dual * list dual =>
             dsub (dln (dsum (map dexp (fst pn :: snd pn)))) (fst pn))).
  - cbn [bind]. apply dmean_nonempty.
    destruct pos_scores as [|x ps]; [simpl in Hp; lia|].
    destruct neg_scores as [|n ns]; [simpl in Hn; lia|]. discriminate.
  - apply Forall_forall. intros [p n] _. reflexivity.
Qed.

Lemma val_dsum_dexp_pos (l : list dual) :
  0 <= val (dsum (map dexp l)) /\ (l <> [] -> 0 < val (dsum (map dexp l))).
Proof.
  rewrite val_dsum, map_map. cbn [val dexp].
  destruct l as [|x l]; [split; [simpl; lra | congruence]|].
  pose proof (Rsum_exp_val_pos (x :: l) ltac:(discriminate)).
  split; [lra | auto].
Qed.

(** X10: the listwise softmax cross-entropy of the contrastive heads
    (one positive score and one row of negative scores per query, label 0)
    is a real number and is never negative. *)
Theorem listwise_loss_is_nonnegative
  (bsz : nat) (pos_scores : list dual) (neg_scores : list (list dual)) :
  (0 < bsz)%nat -> length pos_scores = bsz -> length neg_scores = bsz ->
  exists l,
    listwise_loss bsz pos_scores neg_scores = Fin l
    /\ 0 <= val l.
Proof.
  intros Hb Hp Hn. eexists. split; [now apply listwise_loss_value|].
  rewrite val_dmean_of, length_map, length_combine, Hp, Hn, Nat.min_id.
  rewrite map_map.
  assert (HN : 0 < INR bsz) by (apply lt_0_INR; lia).
  assert (Hterm : forall (p : dual) (n : list dual),
            0 <= val (dsub (dln (dsum (map dexp (p :: n)))) p)).
  { intros p n. cbn [map dsum fold_right val dsub dln dadd dexp].
    change (fold_right dadd (dconst 0) (map dexp n)) with (dsum (map dexp n)).
    destruct (val_dsum_dexp_pos n) as [H0 _].
    pose proof (exp_pos (val p)) as He.
    pose proof (ln_exp (val p)) as Hln.
    destruct H0 as [H0|H0].
    - assert (ln (exp (val p)) < ln (exp (val p) + val (dsum (map dexp n))))
        by (apply ln_increasing; lra). lra.
    - rewrite <- H0, Rplus_0_r. lra. }
  apply Rmult_le_pos; [|left; now apply Rinv_0_lt_compat].
  apply Rsum_nonneg. apply Forall_forall. intros x Hx.
  apply in_map_iff in Hx as [[p n] [<- _]]. apply Hterm.
Qed.

Lemma listwise_loss_is_nonnegative_witness :
  exists l,
    listwise_loss 2 [dconst 1; dconst 2]
      [[dconst 3; dconst 4]; [dconst 6; dconst 7]] = Fin l
    /\ 0 <= val l.
Proof.
  apply (listwise_loss_is_nonnegative 2); [lia | reflexivity | reflexivity].
Defined.

Lemma length_chunks {A : Type} (w n : nat) (l : list A) :
  length (chunks w n l) = n.
Proof.
  revert l; induction n as [|n IH]; intros l; simpl; [reflexivity|].
  now rewrite IH.
Qed.

Lemma chunks_widths {A : Type} (w n : nat) (l : list A) :
  length l = (n * w)%nat -> Forall (fun g => length g = w) (chunks w n l).
Proof.
  revert l; induction n as [|n IH]; intros l Hl; simpl; constructor.
  - rewrite length_firstn. simpl in Hl. lia.
  - apply IH. rewrite length_skipn. simpl in Hl. lia.
Qed.

Lemma chunks_incl {A : Type} (w n : nat) (l : list A) (g : list A) (x : A) :
  In g (chunks w n l) -> In x g -> In x l.
Proof.
  revert l; induction n as [|n IH]; intros l Hg Hx; simpl in Hg;
    [contradiction|].
  destruct Hg as [<-|Hg].
  - rewrite <- (firstn_skipn w l). apply in_or_app. now left.
  - rewrite <- (firstn_skipn w l). apply in_or_app. right. eauto.
Qed.

Lemma bind_add_zero (r : res dual) (t : dual) :
  (loss <- r ;; Fin (dadd loss (dmul (dconst 0) t))) = r.
Proof.
  destruct r as [l| |]; cbn [bind]; [|reflexivity..].
  f_equal. apply dual_eq; cbn [val tan dadd dmul dconst]; ring.
Qed.

(** X11: on a well-formed batch of [bsz * (K + 2)] rows,
    [RobertaForMerge.forward] is the listwise loss of the inner products:
    query [i] against positive [i] and against its own [K] negatives, rows
    [2 bsz + i K .. 2 bsz + i K + K - 1] of the batch.  The term added for
    the unused parameters changes neither the value nor the derivative. *)
Theorem merge_forward_is_listwise_loss_of_dot_products
  (K bsz d : nat) (entity_rep : list (list dual)) (tmp : list dual) :
  (0 < K)%nat -> (0 < bsz)%nat ->
  length entity_rep = (bsz * (K + 2))%nat ->
  Forall (fun r => length r = d) entity_rep ->
  tmp <> [] ->
  let query_rep := upto bsz entity_rep in
  let pos_rep := slice bsz (2 * bsz) entity_rep in
  let neg_rep := chunks K bsz (from (2 * bsz) entity_rep) in
  RobertaForMerge.forward K entity_rep tmp
  = listwise_loss bsz
      (map (fun qp : list dual * list dual => dotv (fst qp) (snd qp))
           (combine query_rep pos_rep))
      (map (fun qn : list dual * list (list dual) =>
              map (dotv (fst qn)) (snd qn))
           (combine query_rep neg_rep)).
Proof.
  intros HK Hb HB Hd Htmp query_rep pos_rep neg_rep.
  unfold RobertaForMerge.forward.
  assert (Ebsz : (length entity_rep / (K + 2))%nat = bsz).
  { rewrite HB. apply Nat.div_mul. lia. }
  rewrite Ebsz. fold query_rep. fold pos_rep.
  assert (Lq : length query_rep = bsz).
  { unfold query_rep, upto. rewrite length_firstn. nia. }
  assert (Lp : length pos_rep = bsz).
  { unfold pos_rep, slice. rewrite length_firstn, length_skipn. nia. }
  assert (Ln : length (from (2 * bsz) entity_rep) = (bsz * K)%nat).
  { unfold from. rewrite length_skipn. nia. }
  assert (Dq : Forall (fun r => length r = d) query_rep)
    by (now apply Forall_firstn').
  assert (Dp : Forall (fun r => length r = d) pos_rep)
    by (now apply Forall_firstn', Forall_skipn').
  assert (Dn : Forall (fun r => length r = d) (from (2 * bsz) entity_rep))
    by (now apply Forall_skipn').
  unfold view3.
  rewrite (view_rows_id (bsz * K) d) by (try split; auto; nia).
  cbn [bind]. fold neg_rep.
  unfold rowwise_dot. rewrite op2_zip.
  2:{ lia. }
  2:{ intros x y Hxy.
      pose proof (proj1 (Forall_forall _ _) Dq x (in_combine_l _ _ _ _ Hxy)).
      pose proof (proj1 (Forall_forall _ _) Dp y (in_combine_r _ _ _ _ Hxy)).
      congruence. }
  cbn [bind]. unfold op3, unsqueeze1.
  rewrite bcast_same by (unfold neg_rep; rewrite length_map, length_chunks; lia).
  rewrite combine_map_l, mapM_map.
  rewrite (mapM_Fin _ (fun qn : list dual * list (list dual) =>
             map (fun n => map (fun xy : dual * dual => dmul (fst xy) (snd xy))
                               (combine (fst qn) n)) (snd qn))).
  2:{ apply Forall_forall. intros [q g] Hin. cbn [fst snd].
      unfold op2. rewrite bcast_one_l.
      apply mapM_Fin. apply Forall_forall. intros n Hn.
      apply (op1_zip dmul).
      pose proof (proj1 (Forall_forall _ _) Dq q (in_combine_l _ _ _ _ Hin)).
      pose proof (proj1 (Forall_forall _ _) Dn n
                    (chunks_incl _ _ _ _ _ (in_combine_r _ _ _ _ Hin) Hn)).
      congruence. }
  cbn [bind].
  rewrite (view_rows_id bsz K).
  2:{ exact Hb. }
  2:{ split.
      - rewrite !length_map, length_combine. unfold neg_rep.
        rewrite length_chunks. lia.
      - apply Forall_forall. intros row Hrow.
        apply in_map_iff in Hrow as [x [<- Hx]].
        apply in_map_iff in Hx as [[q g] [<- Hin]]. cbn [fst snd].
        rewrite !length_map.
        apply (proj1 (Forall_forall _ _)
                 (chunks_widths K bsz (from (2 * bsz) entity_rep)
                    ltac:(lia))).
        now apply in_combine_r in Hin. }
  cbn [bind].
  destruct tmp as [|t0 tmp']; [congruence|].
  cbn [dmean bind].
  rewrite bind_add_zero. f_equal.
  - rewrite map_map. apply map_ext. intros [q g]. reflexivity.
  - rewrite map_map. apply map_ext. intros [q g]. cbn [fst snd].
    rewrite map_map. reflexivity.
Qed.

Lemma merge_forward_is_listwise_loss_of_dot_products_witness :
  let entity_rep :=
    [[Dual 1 1; Dual 0 1]; [Dual 1 0; Dual 1 0]; [Dual 0 0; Dual 1 0];
     [Dual 2 0; Dual 1 0]] in
  RobertaForMerge.forward 2 entity_rep [dconst 5; dconst 6]
  = listwise_loss 1
      (map (fun qp : list dual * list dual => dotv (fst qp) (snd qp))
           (combine (upto 1 entity_rep) (slice 1 (2 * 1) entity_rep)))
      (map (fun qn : list dual * list (list dual) =>
              map (dotv (fst qn)) (snd qn))
           (combine (upto 1 entity_rep)
                    (chunks 2 1 (from (2 * 1) entity_rep)))).
Proof.
  apply (merge_forward_is_listwise_loss_of_dot_products 2 1 2).
  - lia.
  - lia.
  - reflexivity.
  - repeat constructor.
  - discriminate.
Defined.

Lemma bcast_mismatch {A B C : Type} (f : A -> B -> res C) xs ys :
  length xs <> length ys -> length xs <> 1%nat -> length ys <> 1%nat ->
  bcast f xs ys = Exn ShapeMismatch.
Proof.
  intros Hne Hx Hy. unfold bcast.
  destruct (Nat.eqb_spec (length xs) (length ys)) as [E|_]; [contradiction|].
  destruct xs as [|x [|x' xs]]; destruct ys as [|y [|y' ys]];
    simpl in *; try reflexivity; congruence.
Qed.

(** X12: [RobertaForFix.forward] with in-batch negatives needs one page id
    per negative row: another number of ids (neither number being one,
    which would be broadcast) is a shape error. *)
Theorem fix_forward_rejects_wrong_page_id_count
  (K d : nat) (entity_rep : list (list dual))
  (cur_page_ids : list Z) (neg_page_ids : list (list Z)) :
  let B := length entity_rep in
  let bsz := (B / (K + 2))%nat in
  (0 < bsz)%nat ->
  Forall (fun r => length r = d) entity_rep ->
  length cur_page_ids = bsz ->
  length (concat neg_page_ids) <> (B - 2 * bsz)%nat ->
  length (concat neg_page_ids) <> 1%nat ->
  (B - 2 * bsz)%nat <> 1%nat ->
  RobertaForFix.forward (RobertaForFix.init K) entity_rep
    cur_page_ids neg_page_ids = Exn ShapeMismatch.
Proof.
  intros B bsz Hb Hd Hc Hne H1 H2.
  destruct (layout_slices K entity_rep) as [Lq [Lp [Ln _]]].
  fold B in Lq, Lp, Ln. fold bsz in Lq, Lp, Ln.
  unfold RobertaForFix.forward.
  cbn [RobertaForFix.init RobertaForFix.neg_K RobertaForFix.in_batch].
  fold B. fold bsz.
  destruct (rowwise_dot_succeeds d (upto bsz entity_rep)
              (slice bsz (2 * bsz) entity_rep)) as [ps [Hps Lps]].
  { lia. }
  { now apply Forall_firstn'. }
  { now apply Forall_firstn', Forall_skipn'. }
  rewrite Hps. cbn [bind].
  unfold in_batch_neg_scores.
  rewrite (matmul_nt_value d)
    by (first [now apply Forall_firstn' | now apply Forall_skipn']).
  cbn [bind]. unfold op2, page_mask.
  rewrite bcast_same by (rewrite !length_map; lia).
  rewrite !map_map, combine_map.
  destruct (combine (upto bsz entity_rep) cur_page_ids) as [|[q c] rest] eqn:E.
  { apply (f_equal (@length _)) in E. rewrite length_combine in E.
    simpl in E. lia. }
  cbn [map mapM fst snd]. unfold op1 at 1.
  rewrite bcast_mismatch; [reflexivity | | |].
  - rewrite !length_map. unfold from. rewrite length_skipn. fold B. lia.
  - rewrite length_map. unfold from. rewrite length_skipn. fold B. lia.
  - rewrite !length_map. lia.
Qed.

Lemma fix_forward_rejects_wrong_page_id_count_witness :
  RobertaForFix.forward (RobertaForFix.init 2)
    [[dconst 1; dconst 0]; [dconst 1; dconst 1]; [dconst 0; dconst 1];
     [dconst 2; dconst 1]] [5%Z] [[6; 7; 8]%Z]
  = Exn ShapeMismatch.
Proof.
  apply (fix_forward_rejects_wrong_page_id_count 2 2).
  - simpl; lia.
  - repeat constructor.
  - reflexivity.
  - simpl; lia.
  - simpl; lia.
  - simpl; lia.
Defined.

(** ** RobertaForTogether: the entity loss as initialised *)

Lemma detach_all_widths (d : nat) (m : list (list dual)) :
  Forall (fun r => length r = d) m ->
  Forall (fun r => length r = d) (RobertaForTogether.detach_all m).
Proof.
  intros H. unfold RobertaForTogether.detach_all.
  apply Forall_forall. intros r Hr. apply in_map_iff in Hr as [r' [<- Hr']].
  rewrite length_map. exact (proj1 (Forall_forall _ _) H r' Hr').
Qed.

Lemma detach_all_length (m : list (list dual)) :
  length (RobertaForTogether.detach_all m) = length m.
Proof. unfold RobertaForTogether.detach_all. apply length_map. Qed.

(** The masked log-sigmoid matrix of the in-batch margin branch, before
    the division by [valid]. *)
Lemma in_batch_masked_logsigmoid
  (self : RobertaForTogether.config) (bsz d : nat)
  (query_rep neg_rep : list (list dual))
  (cur_page_ids : list Z) (neg_page_ids : list (list Z)) :
  (0 < bsz * RobertaForTogether.neg_K self)%nat ->
  shape (bsz * RobertaForTogether.neg_K self) d neg_rep ->
  Forall (fun r => length r = d) query_rep ->
  length cur_page_ids = length query_rep ->
  length (concat neg_page_ids) = length neg_rep ->
  RobertaForTogether.in_batch_negative_sample_loss self 1 bsz
    query_rep neg_rep cur_page_ids neg_page_ids
  = (quotients <-
       mapM (mapM (fun x =>
                     ddiv x (dconst (INR (valid_pairs cur_page_ids
                                            (concat neg_page_ids))))))
         (map (fun qc : list dual * Z =>
                 map (fun nm : list dual * Z =>
                        dmul (logsigmoid
                                (dneg (dsub (dconst (RobertaForTogether._gamma self))
                                            (norm 1 (vsub (fst qc) (fst nm))))))
                             (dconst (if xorb true (Z.eqb (snd qc) (snd nm))
                                      then 1 else 0)))
                     (combine neg_rep (concat neg_page_ids)))
              (combine query_rep cur_page_ids)) ;;
     Fin (dneg (dsum (concat quotients)))).
Proof.
  intros HK Hn Hq Hc Hm.
  unfold RobertaForTogether.in_batch_negative_sample_loss.
  rewrite (view_rows_id _ d _ HK Hn). cbn [bind].
  rewrite (all_pairs_difference d _ _ Hq (proj2 Hn)). cbn [bind].
  rewrite valid_is_the_pair_count.
  rewrite !map_map. unfold page_mask.
  rewrite op2_zip.
  2:{ rewrite !length_map. lia. }
  2:{ intros a b Hab. rewrite combine_map in Hab.
      apply in_map_iff in Hab as [[qi c] [E _]]. inversion E; subst.
      rewrite !length_map. lia. }
  cbn [bind]. do 2 f_equal.
  rewrite combine_map, !map_map. apply map_ext. intros [qi c].
  cbn [fst snd]. rewrite !map_map.
  rewrite combine_map, !map_map. apply map_ext. intros [nj m].
  reflexivity.
Qed.

Lemma mapM_NonFin_head {A B : Type} (f : A -> res B) (a : A) (l : list A) :
  f a = NonFin -> mapM f (a :: l) = NonFin.
Proof. intros H. cbn [mapM]. now rewrite H. Qed.

(** The slices of a well-formed batch of [RobertaForTogether]. *)
Lemma together_layout (K bsz d : nat) (entity_rep : list (list dual)) :
  length entity_rep = (bsz * (K + 2))%nat ->
  Forall (fun r => length r = d) entity_rep ->
  length (upto bsz entity_rep) = bsz
  /\ Forall (fun r => length r = d) (upto bsz entity_rep)
  /\ length (slice bsz (2 * bsz) entity_rep) = bsz
  /\ Forall (fun r => length r = d) (slice bsz (2 * bsz) entity_rep)
  /\ shape (bsz * K) d (from (2 * bsz) entity_rep).
Proof.
  intros HB Hd. unfold upto, slice, from. repeat split.
  - rewrite length_firstn. nia.
  - now apply Forall_firstn'.
  - rewrite length_firstn, length_skipn. nia.
  - now apply Forall_firstn', Forall_skipn'.
  - rewrite length_skipn. nia.
  - now apply Forall_skipn'.
Qed.

(** X13: as initialised (margin loss, in-batch negatives), when every
    negative of the batch carries the page id of every query, the count of
    valid pairs is zero and the entity loss is not a number: the masked
    terms are divided by zero. *)
Theorem together_all_colliding_pairs_give_nan
  (K bsz d : nat) (flag : bool) (entity_rep : list (list dual))
  (cur_page_ids : list Z) (neg_page_ids : list (list Z)) :
  (0 < K)%nat -> (0 < bsz)%nat ->
  length entity_rep = (bsz * (K + 2))%nat ->
  Forall (fun r => length r = d) entity_rep ->
  length cur_page_ids = bsz ->
  length (concat neg_page_ids) = (bsz * K)%nat ->
  valid_pairs cur_page_ids (concat neg_page_ids) = 0%nat ->
  RobertaForTogether.ent_loss (RobertaForTogether.init K flag) bsz
    entity_rep cur_page_ids neg_page_ids = NonFin.
Proof.
  intros HK Hb HB Hd Hc Hm Hv.
  destruct (together_layout K bsz d entity_rep HB Hd)
    as [Lq [Dq [Lp [Dp Ln]]]].
  unfold RobertaForTogether.ent_loss.
  cbn [RobertaForTogether.init RobertaForTogether.p
       RobertaForTogether.in_batch RobertaForTogether.is_detach].
  assert (Eneg : (if flag
                  then RobertaForTogether.detach_all
                         (RobertaForTogether.detach_all
                            (from (2 * bsz) entity_rep))
                  else RobertaForTogether.detach_all
                         (from (2 * bsz) entity_rep))
                 = RobertaForTogether.detach_all (from (2 * bsz) entity_rep))
    by (destruct flag; [apply detach_all_idem | reflexivity]).
  rewrite Eneg.
  rewrite (in_batch_masked_logsigmoid _ bsz d).
  - rewrite Hv.
    destruct (combine (upto bsz entity_rep) cur_page_ids)
      as [|[q c] rest] eqn:E1.
    { apply (f_equal (@length _)) in E1.
      rewrite length_combine, Lq, Hc in E1. simpl in E1. lia. }
    destruct (combine (RobertaForTogether.detach_all
                         (from (2 * bsz) entity_rep))
                      (concat neg_page_ids)) as [|[n m] rest'] eqn:E2.
    { apply (f_equal (@length _)) in E2.
      rewrite length_combine, detach_all_length, (proj1 Ln), Hm in E2.
      simpl in E2. nia. }
    cbn [map]. rewrite mapM_NonFin_head; [reflexivity|].
    apply mapM_NonFin_head. unfold ddiv. cbn [val dconst INR].
    destruct (Req_dec_T 0 0); [reflexivity | congruence].
  - cbn [RobertaForTogether.neg_K RobertaForTogether.init]. nia.
  - cbn [RobertaForTogether.neg_K RobertaForTogether.init]. split.
    + rewrite detach_all_length. exact (proj1 Ln).
    + apply detach_all_widths. exact (proj2 Ln).
  - exact Dq.
  - lia.
  - rewrite detach_all_length, (proj1 Ln). lia.
Qed.

Lemma together_all_colliding_pairs_give_nan_witness :
  RobertaForTogether.ent_loss (RobertaForTogether.init 1 false) 1
    [[Dual 1 1; Dual 0 1]; [Dual 1 0; Dual 1 0]; [Dual 0 0; Dual 1 0]]
    [7%Z] [[7%Z]] = NonFin.
Proof.
  apply (together_all_colliding_pairs_give_nan 1 1 2); try lia.
  - reflexivity.
  - repeat constructor.
  - reflexivity.
  - reflexivity.
  - reflexivity.
Defined.

Lemma val_logsigmoid_neg (s : dual) : val (logsigmoid s) < 0.
Proof.
  pose proof (val_neg_logsigmoid_pos s) as H. cbn [val dneg] in H. lra.
Qed.

(** X14: as initialised, on a well-formed batch with at least one pair of
    differing page ids, the entity loss of [RobertaForTogether] is a real
    number and strictly positive. *)
Theorem together_entity_loss_is_positive
  (K bsz d : nat) (flag : bool) (entity_rep : list (list dual))
  (cur_page_ids : list Z) (neg_page_ids : list (list Z)) :
  (0 < K)%nat -> (0 < bsz)%nat ->
  length entity_rep = (bsz * (K + 2))%nat ->
  Forall (fun r => length r = d) entity_rep ->
  length cur_page_ids = bsz ->
  length (concat neg_page_ids) = (bsz * K)%nat ->
  (0 < valid_pairs cur_page_ids (concat neg_page_ids))%nat ->
  exists l,
    RobertaForTogether.ent_loss (RobertaForTogether.init K flag) bsz
      entity_rep cur_page_ids neg_page_ids = Fin l
    /\ 0 < val l.
Proof.
  intros HK Hb HB Hd Hc Hm Hv.
  destruct (together_layout K bsz d entity_rep HB Hd)
    as [Lq [Dq [Lp [Dp Ln]]]].
  unfold RobertaForTogether.ent_loss.
  cbn [RobertaForTogether.init RobertaForTogether.p
       RobertaForTogether.in_batch RobertaForTogether.is_detach].
  assert (Eneg : (if flag
                  then RobertaForTogether.detach_all
                         (RobertaForTogether.detach_all
                            (from (2 * bsz) entity_rep))
                  else RobertaForTogether.detach_all
                         (from (2 * bsz) entity_rep))
                 = RobertaForTogether.detach_all (from (2 * bsz) entity_rep))
    by (destruct flag; [apply detach_all_idem | reflexivity]).
  assert (Epos : (if flag
                  then RobertaForTogether.detach_all
                         (RobertaForTogether.detach_all
                            (slice bsz (2 * bsz) entity_rep))
                  else RobertaForTogether.detach_all
                         (slice bsz (2 * bsz) entity_rep))
                 = RobertaForTogether.detach_all
                     (slice bsz (2 * bsz) entity_rep))
    by (destruct flag; [apply detach_all_idem | reflexivity]).
  rewrite Eneg, Epos.
  set (V := INR (valid_pairs cur_page_ids (concat neg_page_ids))).
  assert (HV : 0 < V) by (apply lt_0_INR; exact Hv).
  rewrite (in_batch_masked_logsigmoid _ bsz d).
  2:{ cbn [RobertaForTogether.neg_K RobertaForTogether.init]. nia. }
  2:{ cbn [RobertaForTogether.neg_K RobertaForTogether.init]. split.
      - rewrite detach_all_length. exact (proj1 Ln).
      - apply detach_all_widths. exact (proj2 Ln). }
  2:{ exact Dq. }
  2:{ lia. }
  2:{ rewrite detach_all_length, (proj1 Ln). lia. }
  fold V.
  rewrite (mapM_Fin _ (map (fun x => dquot x (dconst V)))).
  2:{ apply Forall_forall. intros row _. apply mapM_Fin.
      apply Forall_forall. intros x _. unfold ddiv. cbn [val dconst].
      destruct (Req_dec_T V 0); [lra | reflexivity]. }
  cbn [bind].
  rewrite op2_zip.
  2:{ rewrite detach_all_length. lia. }
  2:{ intros x y Hxy.
      pose proof (proj1 (Forall_forall _ _) Dq x (in_combine_l _ _ _ _ Hxy)).
      pose proof (proj1 (Forall_forall _ _)
                    (detach_all_widths d _ Dp) y (in_combine_r _ _ _ _ Hxy)).
      congruence. }
  cbn [bind].
  rewrite dmean_nonempty.
  2:{ intros E. apply (f_equal (@length _)) in E.
      rewrite !length_map, length_combine, detach_all_length, Lq, Lp in E.
      simpl in E. lia. }
  cbn [bind]. eexists. split; [reflexivity|].
  cbn [val dquot dadd dneg dconst]. rewrite !val_dsum.
  match goal with
  | |- 0 < (- (Rsum ?P / ?n) + - Rsum ?Q) / 2 =>
      assert (HP : Rsum P < 0); [| assert (HQ : Rsum Q <= 0);
                                   [| assert (Hn : 0 < n) ] ]
  end.
  - apply Rsum_neg.
    + intros E. apply (f_equal (@length _)) in E.
      rewrite !length_map, length_combine, detach_all_length, Lq, Lp in E.
      simpl in E. lia.
    + apply Forall_forall. intros x Hx.
      apply in_map_iff in Hx as [y [<- Hy]].
      apply in_map_iff in Hy as [s [<- _]]. apply val_logsigmoid_neg.
  - apply Rsum_nonpos. apply Forall_forall. intros x Hx.
    apply in_map_iff in Hx as [q [<- Hq]].
    apply in_concat in Hq as [row [Hrow Hq]].
    apply in_map_iff in Hrow as [row' [<- Hrow']].
    apply in_map_iff in Hq as [y [<- Hy]].
    apply in_map_iff in Hrow' as [qc [<- _]].
    apply in_map_iff in Hy as [nm [<- _]].
    cbn [val dquot dmul dconst].
    match goal with |- val (logsigmoid ?s) * ?i / V <= 0 =>
      pose proof (val_logsigmoid_neg s) as Hs;
      assert (Hi : 0 <= i) by (destruct (xorb _ _); lra)
    end.
    apply Rmult_le_reg_r with V; [exact HV|].
    unfold Rdiv. rewrite Rmult_assoc, Rinv_l, Rmult_1_r, Rmult_0_l by lra.
    nra.
  - apply lt_0_INR.
    rewrite !length_map, length_combine, detach_all_length, Lq, Lp. lia.
  - match goal with
    | |- 0 < (- (?a / ?n) + - ?b) / 2 =>
        assert (0 < - (a / n))
          by (rewrite <- Rdiv_opp_l; apply Rdiv_lt_0_compat; lra)
    end.
    lra.
Qed.

Lemma together_entity_loss_is_positive_witness :
  exists l,
    RobertaForTogether.ent_loss (RobertaForTogether.init 1 false) 2
      [[Dual 1 1; Dual 0 1]; [Dual 3 1; Dual 1 1];
       [Dual 1 0; Dual 1 0]; [Dual 0 1; Dual 1 0];
       [Dual 0 0; Dual 1 0]; [Dual 2 0; Dual 2 0]]
      [7; 8]%Z [[7]; [9]]%Z = Fin l
    /\ 0 < val l.
Proof.
  apply (together_entity_loss_is_positive 1 2 2); try lia.
  - reflexivity.
  - repeat constructor.
  - reflexivity.
  - reflexivity.
  - vm_compute; lia.
Defined.

(** ** RobertaEmbeddings: position ids made from embeddings *)

(** X15: for embeddings of shape (bsz, L, hidden) the position ids have
    shape (bsz, L); the id at place [j] of every row is
    [j + padding_idx + 1], so ids grow by one along the row and none is the
    padding index or below. *)
Theorem position_ids_from_embeds_skip_padding_idx
  {A : Type} (bsz L : nat) (inputs_embeds : list (list (list A))) :
  shape bsz L inputs_embeds ->
  let ids :=
    RobertaEmbeddings.create_position_ids_from_inputs_embeds inputs_embeds in
  shape bsz L ids
  /\ forall i j row x,
       nth_error ids i = Some row -> nth_error row j = Some x ->
       x = (Z.of_nat j + RobertaEmbeddings.padding_idx + 1)%Z
       /\ (RobertaEmbeddings.padding_idx < x)%Z.
Proof.
  intros [Hlen Hw] ids. unfold ids,
    RobertaEmbeddings.create_position_ids_from_inputs_embeds.
  assert (HL : forall x j,
            nth_error (map (fun k => (RobertaEmbeddings.padding_idx + 1
                                      + Z.of_nat k)%Z) (seq 0 L)) j = Some x ->
            x = (Z.of_nat j + RobertaEmbeddings.padding_idx + 1)%Z
            /\ (RobertaEmbeddings.padding_idx < x)%Z).
  { intros x j Hx. rewrite nth_error_map in Hx.
    destruct (nth_error (seq 0 L) j) as [k|] eqn:E; [|discriminate].
    assert (Hx' : x = (RobertaEmbeddings.padding_idx + 1 + Z.of_nat k)%Z)
      by (cbv beta in Hx; injection Hx as Hx; now symmetry).
    clear Hx.
    assert (Hj : (j < length (seq 0 L))%nat)
      by (apply nth_error_Some; congruence).
    rewrite length_seq in Hj.
    pose proof (nth_error_nth _ _ O E) as E'.
    rewrite seq_nth in E' by exact Hj.
    simpl in E'. subst k x.
    unfold RobertaEmbeddings.padding_idx. lia. }
  destruct inputs_embeds as [|s rest].
  - simpl in Hlen. subst. split; [split; [reflexivity | constructor]|].
    intros i j row x Hi. destruct i; discriminate.
  - inversion Hw as [|? ? Hs _]; subst. split.
    + split; [apply repeat_length|].
      apply Forall_forall. intros r Hr. apply repeat_spec in Hr. subst.
      now rewrite length_map, length_seq.
    + intros i j row x Hi Hj.
      apply nth_error_In, repeat_spec in Hi. subst. eapply HL; eauto.
Qed.

Lemma position_ids_from_embeds_skip_padding_idx_witness :
  let ids :=
    RobertaEmbeddings.create_position_ids_from_inputs_embeds
      [[[1; 2]; [3; 4]; [5; 6]]; [[0; 0]; [0; 0]; [0; 0]]] in
  shape 2 3 ids
  /\ forall i j row x,
       nth_error ids i = Some row -> nth_error row j = Some x ->
       x = (Z.of_nat j + RobertaEmbeddings.padding_idx + 1)%Z
       /\ (RobertaEmbeddings.padding_idx < x)%Z.
Proof.
  apply (position_ids_from_embeds_skip_padding_idx 2 3
           [[[1; 2]; [3; 4]; [5; 6]]; [[0; 0]; [0; 0]; [0; 0]]]).
  split; [reflexivity | repeat constructor].
Defined.

(** ** RobertaForQuestionAnswering: clamped positions *)

Lemma qa_cross_entropy_terms (L : nat) (logits : mat) (positions : list Z) :
  (0 < L)%nat -> Forall (fun r => length r = L) logits ->
  exists terms,
    mapM (fun rt : list R * Z => ce_term (Z.of_nat L) (fst rt) (snd rt))
         (combine logits
            (map (RobertaForQuestionAnswering.clamp 0 (Z.of_nat L)) positions))
    = Fin terms
    /\ kept terms = qa_terms L logits positions.
Proof.
  intros HL Hw. revert positions.
  induction Hw as [|row logits Hrow _ IH]; intros positions.
  - exists []. split; reflexivity.
  - destruct positions as [|s positions].
    + exists []. split; reflexivity.
    + destruct (IH positions) as [terms [Hterms Hkept]].
      cbn [map combine mapM fst snd]. rewrite Hterms.
      unfold qa_terms. cbn [combine filter fst snd].
      unfold ce_term, RobertaForQuestionAnswering.clamp. rewrite Hrow.
      destruct (Z.ltb_spec s (Z.of_nat L)) as [Hlt|Hge].
      * destruct (Z.eqb_spec (Z.min (Z.max s 0) (Z.of_nat L)) (Z.of_nat L))
          as [E|_]; [lia|].
        replace (Z.min (Z.max s 0) (Z.of_nat L)) with (Z.max 0 s) by lia.
        replace ((0 <=? Z.max 0 s)%Z && (Z.max 0 s <? Z.of_nat L)%Z)%bool
          with true
          by (symmetry; apply andb_true_iff; split;
              [apply Z.leb_le | apply Z.ltb_lt]; lia).
        destruct row as [|x row]; [simpl in Hrow; lia|].
        cbn [logsumexp bind]. eexists. split; [reflexivity|].
        cbn [kept flat_map app map fst snd]. f_equal. exact Hkept.
      * replace (Z.min (Z.max s 0) (Z.of_nat L)) with (Z.of_nat L) by lia.
        rewrite Z.eqb_refl. cbn [bind]. eexists. split; [reflexivity|].
        cbn [kept flat_map app]. exact Hkept.
Qed.

Lemma qa_cross_entropy (L : nat) (logits : mat) (positions : list Z) :
  (0 < L)%nat -> Forall (fun r => length r = L) logits ->
  length positions = length logits ->
  cross_entropy (Z.of_nat L) logits
    (map (RobertaForQuestionAnswering.clamp 0 (Z.of_nat L)) positions)
  = mean (qa_terms L logits positions).
Proof.
  intros HL Hw Hlen. unfold cross_entropy.
  rewrite length_map, Hlen, Nat.eqb_refl.
  destruct (qa_cross_entropy_terms L logits positions HL Hw)
    as [terms [-> <-]].
  reflexivity.
Qed.

Lemma qa_terms_nonempty (L : nat) (logits : mat) (positions : list Z) :
  length positions = length logits ->
  Exists (fun s => (s < Z.of_nat L)%Z) positions ->
  qa_terms L logits positions <> [].
Proof.
  intros Hlen Hex. revert logits Hlen.
  induction Hex as [s positions Hs | s positions _ IH];
    intros [|row logits] Hlen; try discriminate;
    unfold qa_terms in *; cbn [combine filter fst snd].
  - replace (s <? Z.of_nat L)%Z with true by (symmetry; now apply Z.ltb_lt).
    discriminate.
  - destruct (s <? Z.of_nat L)%Z; [discriminate|].
    apply IH. simpl in Hlen. lia.
Qed.

Lemma mean_nonempty (l : list R) :
  l <> [] -> mean l = Fin (Rsum l / INR (length l)).
Proof. destruct l; [congruence | reflexivity]. Qed.

Lemma size1_shape {A : Type} (N L : nat) (m : list (list A)) :
  (0 < N)%nat -> shape N L m -> RobertaForQuestionAnswering.size1 m = L.
Proof.
  intros HN [Hlen Hw]. destruct m as [|r m]; [simpl in Hlen; lia|].
  now inversion Hw.
Qed.

(** X16: the span-extraction loss of [RobertaForQuestionAnswering] never
    raises on integer positions.  A position at or beyond the sequence
    length is left out, a negative position is scored as position 0, and
    the loss is the half-sum of the two means of
    [logsumexp(row) - row[position]] over the examples kept. *)
Theorem qa_loss_clamps_positions
  (N L : nat) (start_logits end_logits : mat)
  (start_positions end_positions : list Z) :
  (0 < L)%nat ->
  shape N L start_logits -> shape N L end_logits ->
  length start_positions = N -> length end_positions = N ->
  Exists (fun s => (s < Z.of_nat L)%Z) start_positions ->
  Exists (fun e => (e < Z.of_nat L)%Z) end_positions ->
  let starts := qa_terms L start_logits start_positions in
  let ends := qa_terms L end_logits end_positions in
  RobertaForQuestionAnswering.forward_total_loss start_logits end_logits
    start_positions end_positions
  = Fin ((Rsum starts / INR (length starts)
          + Rsum ends / INR (length ends)) / 2).
Proof.
  intros HL Hs He Ls Le Es Ee starts ends.
  assert (HN : (0 < N)%nat).
  { destruct start_positions; [inversion Es | simpl in Ls; lia]. }
  unfold RobertaForQuestionAnswering.forward_total_loss.
  rewrite (size1_shape N L _ HN Hs).
  rewrite (qa_cross_entropy L start_logits) by (destruct Hs; auto; lia).
  rewrite (qa_cross_entropy L end_logits) by (destruct He; auto; lia).
  rewrite !mean_nonempty.
  - reflexivity.
  - apply qa_terms_nonempty; [destruct He; lia | exact Ee].
  - apply qa_terms_nonempty; [destruct Hs; lia | exact Es].
Qed.

Lemma qa_loss_clamps_positions_witness :
  let start_logits := [[5; 1; 1]; [2; 0; 3]] in
  let end_logits := [[1; 1; 4]; [0; 2; 2]] in
  let starts := qa_terms 3 start_logits [-4; 7]%Z in
  let ends := qa_terms 3 end_logits [2; 1]%Z in
  RobertaForQuestionAnswering.forward_total_loss start_logits end_logits
    [-4; 7]%Z [2; 1]%Z
  = Fin ((Rsum starts / INR (length starts)
          + Rsum ends / INR (length ends)) / 2).
Proof.
  apply (qa_loss_clamps_positions 2 3).
  - lia.
  - split; [reflexivity | repeat constructor].
  - split; [reflexivity | repeat constructor].
  - reflexivity.
  - reflexivity.
  - apply Exists_cons_hd. simpl; lia.
  - apply Exists_cons_hd. simpl; lia.
Defined.


(** ** The marginal span loss on segmented logits *)

Section SegmentedSpanLoss.
Import RobertaForTriviaQuestionAnswering.

Lemma g_row_shifted (L k : nat) (pre seg rest : list R) (trow : list Z) :
  length pre = (k * L)%nat -> length seg = L ->
  Forall (fun t => t = (-1)%Z \/ (0 <= t < Z.of_nat L)%Z) trow ->
  g_row (pre ++ seg ++ rest)
        (map (fun t => if Z.eqb t (-1) then (-1)%Z
                       else (Z.of_nat (k * L) + t)%Z) trow)
  = g_row seg trow.
Proof.
  intros Hpre Hseg Hr. unfold g_row, placeholder.
  induction Hr as [|t trow Ht _ IH]; [reflexivity|].
  cbn [map combine fst snd]. rewrite IH. f_equal.
  destruct Ht as [->|Ht]; [reflexivity|].
  destruct (Z.eqb_spec t (-1)) as [E|_]; [lia|].
  destruct (Z.eqb_spec (Z.of_nat (k * L) + t) (-1)) as [E|_]; [lia|].
  replace (Z.to_nat (Z.of_nat (k * L) + t))
    with (length pre + Z.to_nat t)%nat by lia.
  rewrite app_nth2_plus. apply app_nth1. lia.
Qed.

Lemma g_row_flat_targets (L k : nat) (pre : list R)
  (segs : mat) (tsegs : list (list Z)) :
  length pre = (k * L)%nat ->
  Forall (fun r => length r = L) segs ->
  length tsegs = length segs ->
  in_range L tsegs ->
  g_row (pre ++ concat segs) (flat_targets_from L k tsegs)
  = concat (map (fun rt : list R * list Z => g_row (fst rt) (snd rt))
                (combine segs tsegs)).
Proof.
  intros Hpre Hw. revert k pre Hpre tsegs.
  induction Hw as [|seg segs Hseg _ IH]; intros k pre Hpre tsegs Hlen Hr.
  - destruct tsegs; [reflexivity | discriminate].
  - destruct tsegs as [|trow tsegs]; [discriminate|].
    inversion Hr as [|? ? Htrow Hr']; subst.
    cbn [flat_targets_from concat combine map fst snd].
    rewrite g_row_app. f_equal.
    + now apply g_row_shifted.
    + rewrite app_assoc. apply IH.
      * rewrite length_app, Hpre. simpl. lia.
      * simpl in Hlen. lia.
      * exact Hr'.
Qed.

Lemma length_flat_targets_from (L k T : nat) (tsegs : list (list Z)) :
  Forall (fun r => length r = T) tsegs ->
  length (flat_targets_from L k tsegs) = (length tsegs * T)%nat.
Proof.
  intros H. revert k. induction H as [|trow tsegs Ht _ IH]; intros k;
    [reflexivity|].
  cbn [flat_targets_from length]. rewrite length_app, length_map, IH, Ht.
  lia.
Qed.

Lemma flat_targets_in_range (L k S : nat) (tsegs : list (list Z)) :
  (k + length tsegs <= S)%nat ->
  in_range L tsegs ->
  Forall (fun t => t = (-1)%Z \/ (0 <= t < Z.of_nat (S * L))%Z)
         (flat_targets_from L k tsegs).
Proof.
  intros Hk Hr. revert k Hk.
  induction Hr as [|trow tsegs Htrow _ IH]; intros k Hk; [constructor|].
  cbn [flat_targets_from]. apply Forall_app. split.
  - apply Forall_forall. intros t' Ht'.
    apply in_map_iff in Ht' as [t [<- Hin]].
    destruct (proj1 (Forall_forall _ _) Htrow t Hin) as [->|Ht];
      [now left|].
    destruct (Z.eqb_spec t (-1)) as [E|_]; [lia|]. right.
    simpl in Hk. nia.
  - apply IH. simpl in Hk. lia.
Qed.

Lemma concat_concat_map {A : Type} (t : list (list (list A))) :
  concat (concat t) = concat (map (@concat A) t).
Proof.
  induction t as [|m t IH]; [reflexivity|].
  cbn [concat map]. now rewrite concat_app, IH.
Qed.

(** [view(bsz, -1)] on a 3-D tensor flattens every example. *)
Lemma view_rows_concat3 {A : Type} (n s w : nat) (t : list (list (list A))) :
  (0 < n)%nat -> shape3 n s w t ->
  view_rows n (concat t) = Fin (map (@concat A) t).
Proof.
  intros Hn [Hlen Hs].
  assert (Hshape : shape n (s * w) (map (@concat A) t)).
  { split; [now rewrite length_map|].
    apply Forall_forall. intros r Hr. apply in_map_iff in Hr as [m [<- Hm]].
    apply concat_shape_length. exact (proj1 (Forall_forall _ _) Hs m Hm). }
  rewrite <- (view_rows_id n (s * w) _ Hn Hshape).
  unfold view_rows. now rewrite concat_concat_map.
Qed.

Lemma gather3_fill (N S L : nat) (logits : list mat)
  (target : list (list (list Z))) :
  (0 < L)%nat -> Forall (shape S L) logits ->
  length target = length logits ->
  Forall (fun t => length t = S /\ in_range L t) target ->
  exists g,
    gather3 logits
      (map (fun t => masked_target t (-1)) target) = Fin g
    /\ map (fun gm : mat * list (list bool) => fill_masked (fst gm) (snd gm))
           (combine g (map (fun t => target_mask t (-1)) target))
       = map (fun lt : mat * list (list Z) =>
                map (fun rt : list R * list Z => g_row (fst rt) (snd rt))
                    (combine (fst lt) (snd lt)))
             (combine logits target).
Proof.
  intros HL Hlog. revert target.
  induction Hlog as [|l logits Hl _ IH]; intros target Hlen Ht.
  - destruct target; [|discriminate]. exists []. split; reflexivity.
  - destruct target as [|t target]; [discriminate|].
    inversion Ht as [|? ? [HtS Htr] Ht']; subst.
    destruct (gather_fill (length t) L l t Hl eq_refl HL Htr) as [g [Hg Hf]].
    destruct (IH target ltac:(simpl in Hlen; lia) Ht') as [gs [Hgs Hfs]].
    exists (g :: gs). cbn [map gather3
                            combine fst snd].
    rewrite Hg, Hgs. cbn [bind]. split; [reflexivity|].
    now rewrite Hf, Hfs.
Qed.

Lemma flattened_shapes (N S L T : nat) (logits : list mat)
  (target : list (list (list Z))) :
  shape3 N S L logits -> shape3 N S T target ->
  Forall (in_range L) target ->
  shape N (S * L) (map (@concat R) logits)
  /\ shape N (S * T) (map (flat_targets L) target)
  /\ in_range (S * L) (map (flat_targets L) target).
Proof.
  intros [LenL ShL] [LenT ShT] Hr. repeat split.
  - now rewrite length_map.
  - apply Forall_forall. intros r Hr'. apply in_map_iff in Hr' as [m [<- Hm]].
    apply concat_shape_length. exact (proj1 (Forall_forall _ _) ShL m Hm).
  - now rewrite length_map.
  - apply Forall_forall. intros r Hr'. apply in_map_iff in Hr' as [t [<- Ht]].
    destruct (proj1 (Forall_forall _ _) ShT t Ht) as [Hlen Hw].
    unfold flat_targets. now rewrite (length_flat_targets_from L 0 T), Hlen.
  - apply Forall_forall. intros r Hr'. apply in_map_iff in Hr' as [t [<- Ht]].
    destruct (proj1 (Forall_forall _ _) ShT t Ht) as [Hlen Hw].
    apply flat_targets_in_range; [simpl; lia|].
    exact (proj1 (Forall_forall _ _) Hr t Ht).
Qed.

Lemma segmented_span_loss_value
  (N S L T : nat) (logits : list mat) (target : list (list (list Z))) :
  (0 < N)%nat -> (0 < S)%nat -> (0 < L)%nat -> (0 < T)%nat ->
  shape3 N S L logits -> shape3 N S T target ->
  Forall (in_range L) target ->
  RobertaForTriviaQuestionAnsweringForward.or_softmax_cross_entropy_loss_one_doc
    logits target (-1)
  = Fin (marginal_span_loss (map (@concat R) logits)
                            (map (flat_targets L) target)).
Proof.
  intros HN HS HL HT H3L H3T Hr.
  destruct (flattened_shapes N S L T logits target H3L H3T Hr)
    as [FlatL [FlatT FlatR]].
  destruct H3L as [LenL ShL]. destruct H3T as [LenT ShT].
  assert (LenL' : @length mat logits = N) by exact LenL.
  unfold RobertaForTriviaQuestionAnsweringForward.or_softmax_cross_entropy_loss_one_doc.
  cbv zeta.
  destruct (gather3_fill N S L logits target HL ShL
              (eq_trans LenT (eq_sym LenL))) as [g [Hg Hf]].
  { apply Forall_forall. intros t Ht. split.
    - exact (proj1 (proj1 (Forall_forall _ _) ShT t Ht)).
    - exact (proj1 (Forall_forall _ _) Hr t Ht). }
  rewrite Hg. cbn [bind]. rewrite Hf.
  change (@length mat logits) with (@length (list (list R)) logits).
  rewrite LenL.
  assert (Key : map (@concat R)
                  (map (fun lt : mat * list (list Z) =>
                          map (fun rt : list R * list Z =>
                                 g_row (fst rt) (snd rt))
                              (combine (fst lt) (snd lt)))
                       (combine logits target))
                = map (fun rt : list R * list Z => g_row (fst rt) (snd rt))
                      (combine (map (@concat R) logits)
                               (map (flat_targets L) target))).
  { rewrite combine_map, !map_map. apply map_ext_in. intros [l t] Hin.
    cbn [fst snd]. symmetry.
    pose proof (in_combine_l _ _ _ _ Hin) as Hl.
    pose proof (in_combine_r _ _ _ _ Hin) as Ht.
    destruct (proj1 (Forall_forall _ _) ShL l Hl) as [Hll Hlw].
    destruct (proj1 (Forall_forall _ _) ShT t Ht) as [Htl Htw].
    apply (g_row_flat_targets L 0 [] l t); [reflexivity | exact Hlw | lia |].
    exact (proj1 (Forall_forall _ _) Hr t Ht). }
  rewrite (view_rows_concat3 N S T).
  2:{ exact HN. }
  2:{ split.
      - rewrite length_map, length_combine, LenL', LenT. apply Nat.min_id.
      - apply Forall_forall. intros m Hm.
        apply in_map_iff in Hm as [[l t] [<- Hin]]. cbn [fst snd].
        pose proof (in_combine_l _ _ _ _ Hin) as Hl.
        pose proof (in_combine_r _ _ _ _ Hin) as Ht.
        destruct (proj1 (Forall_forall _ _) ShL l Hl) as [Hll Hlw].
        apply (g_rows_shape S T l t Hll).
        exact (proj1 (Forall_forall _ _) ShT t Ht). }
  cbn [bind].
  rewrite (view_rows_concat3 N S L) by (try split; assumption).
  cbn [bind]. rewrite Key.
  rewrite (mapM_logsumexp _
             (nonempty_rows N (S * T) _ ltac:(nia)
                (g_rows_shape N (S * T) _ _ (proj1 FlatL) FlatT))).
  cbn [bind].
  rewrite (mapM_logsumexp _ (nonempty_rows N (S * L) _ ltac:(nia) FlatL)).
  cbn [bind].
  apply mean_neg_diff.
  - rewrite !length_map. lia.
  - intros E. apply (f_equal (@length _)) in E.
    rewrite length_map in E. simpl in E. lia.
Qed.

(** X18: on logits of shape (N, S, L) and positions of shape (N, S, T),
    as [forward] passes them, the positions are read inside their own
    segment: the loss is the loss of the flattened examples (N, S * L)
    with position [t] of segment [s] moved to [s * L + t]. *)
Theorem segmented_span_loss_is_flat_loss
  (N S L T : nat) (logits : list mat) (target : list (list (list Z))) :
  (0 < N)%nat -> (0 < S)%nat -> (0 < L)%nat -> (0 < T)%nat ->
  shape3 N S L logits -> shape3 N S T target ->
  Forall (in_range L) target ->
  RobertaForTriviaQuestionAnsweringForward.or_softmax_cross_entropy_loss_one_doc
    logits target (-1)
  = or_softmax_cross_entropy_loss_one_doc
      (map (@concat R) logits) (map (flat_targets L) target) (-1).
Proof.
  intros HN HS HL HT H3L H3T Hr.
  destruct (flattened_shapes N S L T logits target H3L H3T Hr)
    as [FlatL [FlatT FlatR]].
  rewrite (segmented_span_loss_value N S L T) by assumption.
  symmetry. apply (or_softmax_value N (S * L) (S * T)); try assumption; nia.
Qed.

Lemma segmented_span_loss_is_flat_loss_witness :
  RobertaForTriviaQuestionAnsweringForward.or_softmax_cross_entropy_loss_one_doc
    [[[5; 1; 1]; [2; 0; 3]]] [[[0; -1]; [2; 1]]%Z] (-1)
  = or_softmax_cross_entropy_loss_one_doc
      (map (@concat R) [[[5; 1; 1]; [2; 0; 3]]])
      (map (flat_targets 3) [[[0; -1]; [2; 1]]%Z]) (-1).
Proof.
  apply (segmented_span_loss_is_flat_loss 1 2 3 2); try lia.
  - split; [reflexivity|]. repeat constructor.
  - split; [reflexivity|]. repeat constructor.
  - repeat constructor; lia.
Defined.

(** X19: with both position tensors given and well-shaped,
    [RobertaForTriviaQuestionAnswering.forward] returns as total loss the
    half sum of the marginal span losses of the start side and of the end
    side, each taken over the flattened segments. *)
Theorem trivia_total_loss_is_half_sum_of_span_losses
  (N S L T : nat) (start_logits end_logits : list mat)
  (start_positions end_positions : list (list (list Z))) :
  (0 < N)%nat -> (0 < S)%nat -> (0 < L)%nat -> (0 < T)%nat ->
  shape3 N S L start_logits -> shape3 N S L end_logits ->
  shape3 N S T start_positions -> shape3 N S T end_positions ->
  Forall (in_range L) start_positions ->
  Forall (in_range L) end_positions ->
  RobertaForTriviaQuestionAnsweringForward.forward_total_loss
    start_logits end_logits start_positions end_positions
  = Fin ((marginal_span_loss (map (@concat R) start_logits)
                             (map (flat_targets L) start_positions)
          + marginal_span_loss (map (@concat R) end_logits)
                               (map (flat_targets L) end_positions)) / 2).
Proof.
  intros HN HS HL HT Hsl Hel Hsp Hep Hsr Her.
  unfold RobertaForTriviaQuestionAnsweringForward.forward_total_loss.
  rewrite (segmented_span_loss_value N S L T start_logits) by assumption.
  rewrite (segmented_span_loss_value N S L T end_logits) by assumption.
  reflexivity.
Qed.

Lemma trivia_total_loss_is_half_sum_of_span_losses_witness :
  RobertaForTriviaQuestionAnsweringForward.forward_total_loss
    [[[5; 1; 1]; [2; 0; 3]]] [[[0; 4; 1]; [1; 1; 2]]]
    [[[0; -1]; [2; 1]]%Z] [[[1; -1]; [2; 2]]%Z]
  = Fin ((marginal_span_loss (map (@concat R) [[[5; 1; 1]; [2; 0; 3]]])
                             (map (flat_targets 3) [[[0; -1]; [2; 1]]%Z])
          + marginal_span_loss (map (@concat R) [[[0; 4; 1]; [1; 1; 2]]])
                               (map (flat_targets 3) [[[1; -1]; [2; 2]]%Z]))
         / 2).
Proof.
  apply (trivia_total_loss_is_half_sum_of_span_losses 1 2 3 2); try lia;
    try (split; [reflexivity|]; repeat constructor);
    repeat constructor; lia.
Defined.

End SegmentedSpanLoss.

(** ** The masked language modelling loss *)

Lemma bind_assoc {A B C : Type} (c : res A) (f : A -> res B) (g : B -> res C) :
  bind (bind c f) g = bind c (fun a => bind (f a) g).
Proof. destruct c; reflexivity. Qed.

Lemma index_select_nonzero {A : Type} (labels : list Z) :
  forall (pre xs rest : list A),
  length xs = length labels ->
  index_select (pre ++ xs ++ rest)
    (nonzero_from (length pre) (map (fun t => (t + 1)%Z) labels))
  = Fin (unmasked xs labels).
Proof.
  induction labels as [|l labels IH]; intros pre xs rest Hlen.
  - destruct xs; [reflexivity | discriminate].
  - destruct xs as [|x xs]; [discriminate|].
    assert (Hnext : index_select (pre ++ (x :: xs) ++ rest)
                      (nonzero_from (S (length pre))
                         (map (fun t => (t + 1)%Z) labels))
                    = Fin (unmasked xs labels)).
    { specialize (IH (pre ++ [x]) xs rest ltac:(simpl in Hlen; lia)).
      rewrite length_app, Nat.add_1_r, <- app_assoc in IH. exact IH. }
    cbn [map nonzero_from unmasked].
    destruct (Z.eqb_spec l (-1)) as [->|Hl].
    + cbn [Z.add Z.eqb Z.pos_sub]. exact Hnext.
    + destruct (Z.eqb_spec (l + 1) 0) as [E|_]; [lia|].
      unfold index_select in *. cbn [mapM]. rewrite Hnext.
      replace ((0 <=? Z.of_nat (length pre))%Z
               && (Z.of_nat (length pre)
                   <? Z.of_nat (length (pre ++ (x :: xs) ++ rest)))%Z)%bool
        with true.
      2:{ symmetry. apply andb_true_iff. split;
            [apply Z.leb_le | apply Z.ltb_lt];
            rewrite ?length_app; simpl; lia. }
      rewrite Nat2Z.id, nth_error_app2, Nat.sub_diag by lia.
      reflexivity.
Qed.

Lemma index_select_nonzero_prefix {A : Type} (labels : list Z)
  (xs rest : list A) :
  length xs = length labels ->
  index_select (xs ++ rest)
    (nonzero (map (fun t => (t + 1)%Z) labels))
  = Fin (unmasked xs labels).
Proof. exact (index_select_nonzero labels [] xs rest). Qed.

Lemma length_unmasked {A B : Type} (xs : list A) (ys : list B)
  (labels : list Z) :
  length xs = length labels -> length ys = length labels ->
  length (unmasked xs labels) = length (unmasked ys labels).
Proof.
  revert xs ys. induction labels as [|l labels IH]; intros xs ys Hx Hy.
  - destruct xs, ys; try discriminate. reflexivity.
  - destruct xs as [|x xs], ys as [|y ys]; try discriminate.
    cbn [unmasked]. destruct (Z.eqb l (-1)); cbn [length];
      rewrite (IH xs ys) by (simpl in *; lia); reflexivity.
Qed.

(** The cross-entropy terms of the unmasked rows are the terms the loss
    keeps among all rows. *)
Lemma cross_entropy_terms_unmasked {C : Type} (logits : mat) :
  forall (labels : list Z) (k : list R -> res C),
  length logits = length labels ->
  bind (mapM (fun rt : list R * Z => ce_term (-1) (fst rt) (snd rt))
             (combine (unmasked logits labels) (unmasked labels labels)))
       (fun terms => k (kept terms))
  = bind (mapM (fun rt : list R * Z => ce_term (-1) (fst rt) (snd rt))
               (combine logits labels))
         (fun terms => k (kept terms)).
Proof.
  induction logits as [|row logits IH]; intros labels k Hlen.
  - destruct labels; [reflexivity | discriminate].
  - destruct labels as [|l labels]; [discriminate|].
    assert (Hlen' : length logits = length labels) by (simpl in Hlen; lia).
    cbn [unmasked].
    destruct (Z.eqb_spec l (-1)) as [->|Hl].
    + rewrite (IH labels k Hlen').
      cbn [combine mapM fst snd]. unfold ce_term at 2.
      cbn [Z.eqb Pos.eqb bind]. rewrite bind_assoc. reflexivity.
    + cbn [combine mapM fst snd].
      destruct (ce_term (-1) row l) as [o| |e]; cbn [bind];
        [|reflexivity|reflexivity].
      rewrite !bind_assoc. cbn [bind].
      exact (IH labels
               (fun rest =>
                  k ((match o with Some x => [x] | None => [] end) ++ rest))
               Hlen').
Qed.

Lemma cross_entropy_unmasked (logits : mat) (labels : list Z) :
  length logits = length labels ->
  cross_entropy (-1) (unmasked logits labels) (unmasked labels labels)
  = cross_entropy (-1) logits labels.
Proof.
  intros Hlen. unfold cross_entropy.
  rewrite (length_unmasked logits labels labels Hlen eq_refl).
  rewrite Hlen, !Nat.eqb_refl.
  exact (cross_entropy_terms_unmasked logits labels mean Hlen).
Qed.

Lemma unmasked_map {A B : Type} (f : A -> B) (xs : list A) (labels : list Z) :
  unmasked (map f xs) labels = map f (unmasked xs labels).
Proof.
  revert labels. induction xs as [|x xs IH]; intros [|l labels];
    try reflexivity.
  cbn [map unmasked]. destruct (Z.eqb l (-1)); cbn [map]; now rewrite IH.
Qed.

Lemma view_width_id {A : Type} (w : nat) (m : list (list A)) :
  (0 < w)%nat -> Forall (fun r => length r = w) m ->
  view_width w m = Fin m.
Proof.
  intros Hw Hall. unfold view_width.
  assert (Hs : shape (length m) w m) by (split; [reflexivity | exact Hall]).
  destruct w as [|w']; [lia|].
  rewrite (concat_shape_length _ _ _ Hs).
  rewrite Nat.Div0.mod_mul, Nat.eqb_refl.
  rewrite Nat.div_mul by lia.
  now rewrite (chunks_concat _ _ _ Hs).
Qed.

Lemma firstn_concat_shape {A : Type} (B L : nat) (m : list (list A)) :
  Forall (fun r => length r = L) m ->
  firstn (B * L) (concat m) = concat (firstn B m).
Proof.
  intros Hall. revert B. induction Hall as [|r m Hr _ IH]; intros B.
  - now rewrite !firstn_nil.
  - destruct B as [|B]; [reflexivity|].
    cbn [concat firstn]. rewrite firstn_app, Hr.
    replace (S B * L - L)%nat with (B * L)%nat by lia.
    rewrite firstn_all2 by (rewrite Hr; simpl; lia).
    now rewrite IH.
Qed.

Section MaskedLMLoss.

Variable dense_gelu_layer_norm : list R -> list R.
Variable decoder : list R -> list R.
Variable vocab_size : nat.

Hypothesis vocab_size_pos : (0 < vocab_size)%nat.
(** [decoder = nn.Linear(hidden_size, vocab_size)] *)
Hypothesis decoder_width : forall x, length (decoder x) = vocab_size.

(** X20: the loss computed through [nonzero] and [index_select] is the
    cross-entropy with [ignore_index = -1] of the scores of all tokens of
    the first [bsz] sequences, [bsz] being the number of rows of
    [lm_labels]: the sequences after them (the entity rows that
    [RobertaForTogether] passes along) are never selected. *)
Theorem masked_lm_loss_is_cross_entropy_of_first_sequences
  (M bsz L : nat) (sequence_output : list mat) (lm_labels : list (list Z)) :
  shape M L sequence_output -> shape bsz L lm_labels -> (bsz <= M)%nat ->
  Exists (fun l => l <> (-1)%Z) (concat lm_labels) ->
  masked_lm_loss dense_gelu_layer_norm decoder vocab_size
    sequence_output lm_labels
  = cross_entropy (-1)
      (map (fun x => decoder (dense_gelu_layer_norm x))
           (concat (upto bsz sequence_output)))
      (concat lm_labels).
Proof.
  intros [LenS Hs] Hl HbM _.
  pose proof (concat_shape_length _ _ _ Hl) as LenLab.
  assert (LenTok : length (concat (upto bsz sequence_output))
                   = length (concat lm_labels)).
  { rewrite LenLab. apply (concat_shape_length bsz L). split.
    - unfold upto. rewrite length_firstn. apply Nat.min_l.
      unfold mat. rewrite LenS. exact HbM.
    - unfold upto. now apply Forall_firstn'. }
  unfold masked_lm_loss, RobertaLMHead.forward.
  rewrite <- concat_map.
  rewrite <- (firstn_skipn (bsz * L) (concat sequence_output)).
  rewrite (firstn_concat_shape bsz L _ Hs). fold (upto bsz sequence_output).
  rewrite map_app.
  rewrite (index_select_nonzero_prefix (concat lm_labels)
             (map dense_gelu_layer_norm (concat (upto bsz sequence_output))))
    by (now rewrite length_map).
  cbn [bind RobertaLMHead.rows].
  assert (Ht : index_select (concat lm_labels)
                 (nonzero (map (fun t => (t + 1)%Z) (concat lm_labels)))
               = Fin (unmasked (concat lm_labels) (concat lm_labels))).
  { pose proof (index_select_nonzero_prefix (concat lm_labels)
                  (concat lm_labels) [] eq_refl) as H.
    now rewrite app_nil_r in H. }
  rewrite Ht.
  cbn [bind].
  rewrite view_width_id.
  2:{ exact vocab_size_pos. }
  2:{ apply Forall_forall. intros r Hr. apply in_map_iff in Hr as [x [<- _]].
      apply decoder_width. }
  cbn [bind].
  rewrite <- !unmasked_map, map_map.
  apply cross_entropy_unmasked. now rewrite length_map.
Qed.

End MaskedLMLoss.

Lemma masked_lm_loss_is_cross_entropy_of_first_sequences_witness :
  let head := fun x : list R => [Rsum x; 0] in
  let sequence_output :=
    [[[1; 2]; [0; 3]]; [[4; 4]; [1; 0]]; [[7; 7]; [9; 9]]] in
  masked_lm_loss (fun x => x) head 2 sequence_output
    [[-1; 1]; [0; -1]]%Z
  = cross_entropy (-1)
      (map (fun x => head x) (concat (upto 2 sequence_output)))
      (concat [[-1; 1]; [0; -1]]%Z).
Proof.
  apply (masked_lm_loss_is_cross_entropy_of_first_sequences
           (fun x => x) (fun x : list R => [Rsum x; 0]) 2
           ltac:(lia) (fun _ => eq_refl) 3 2 2).
  - split; [reflexivity | repeat constructor].
  - split; [reflexivity | repeat constructor].
  - lia.
  - apply Exists_cons_tl, Exists_cons_hd. discriminate.
Defined.

(** ** RobertaForQuestionAnswering: sign of the loss *)

Lemma cross_entropy_term_nonneg (row : list R) (i : nat) :
  (i < length row)%nat -> 0 <= ln (Rsum (map exp row)) - nth i row 0.
Proof.
  intros Hi.
  pose proof (exp_le_Rsum (nth i row 0) row (nth_In row 0 Hi)) as Hle.
  pose proof (exp_pos (nth i row 0)) as Hpos.
  pose proof (ln_exp (nth i row 0)) as Hln.
  destruct Hle as [Hlt|Heq].
  - pose proof (ln_increasing _ _ Hpos Hlt). lra.
  - rewrite <- Heq. lra.
Qed.

Lemma qa_terms_nonneg (L : nat) (logits : mat) (positions : list Z) :
  (0 < L)%nat -> Forall (fun r => length r = L) logits ->
  Forall (fun x => 0 <= x) (qa_terms L logits positions).
Proof.
  intros HL Hw. unfold qa_terms. apply Forall_forall. intros x Hx.
  apply in_map_iff in Hx as [[row s] [<- Hin]].
  apply filter_In in Hin as [Hin Hs]. cbn [fst snd] in *.
  apply Z.ltb_lt in Hs. apply in_combine_l in Hin.
  apply cross_entropy_term_nonneg.
  rewrite (proj1 (Forall_forall _ _) Hw row Hin). lia.
Qed.

(** X21: whenever each side keeps at least one example, the
    span-extraction loss of [RobertaForQuestionAnswering] is a real number
    and is not negative. *)
Theorem qa_loss_is_nonnegative
  (N L : nat) (start_logits end_logits : mat)
  (start_positions end_positions : list Z) :
  (0 < L)%nat ->
  shape N L start_logits -> shape N L end_logits ->
  length start_positions = N -> length end_positions = N ->
  Exists (fun s => (s < Z.of_nat L)%Z) start_positions ->
  Exists (fun e => (e < Z.of_nat L)%Z) end_positions ->
  exists total_loss,
    RobertaForQuestionAnswering.forward_total_loss start_logits end_logits
      start_positions end_positions = Fin total_loss
    /\ 0 <= total_loss.
Proof.
  intros HL Hs He Ls Le Es Ee.
  assert (HN : (0 < N)%nat).
  { destruct start_positions; [inversion Es | simpl in Ls; lia]. }
  unfold RobertaForQuestionAnswering.forward_total_loss.
  rewrite (size1_shape N L _ HN Hs).
  rewrite (qa_cross_entropy L start_logits) by (destruct Hs; auto; lia).
  rewrite (qa_cross_entropy L end_logits) by (destruct He; auto; lia).
  pose proof (qa_terms_nonempty L start_logits start_positions
                ltac:(destruct Hs; lia) Es) as NEs.
  pose proof (qa_terms_nonempty L end_logits end_positions
                ltac:(destruct He; lia) Ee) as NEe.
  rewrite !mean_nonempty by assumption. cbn [bind].
  eexists. split; [reflexivity|].
  pose proof (Rsum_nonneg _ (qa_terms_nonneg L start_logits start_positions
                               HL (proj2 Hs))) as Ps.
  pose proof (Rsum_nonneg _ (qa_terms_nonneg L end_logits end_positions
                               HL (proj2 He))) as Pe.
  assert (Is : 0 < INR (length (qa_terms L start_logits start_positions))).
  { apply lt_0_INR. destruct (qa_terms L start_logits start_positions);
      [congruence | simpl; lia]. }
  assert (Ie : 0 < INR (length (qa_terms L end_logits end_positions))).
  { apply lt_0_INR. destruct (qa_terms L end_logits end_positions);
      [congruence | simpl; lia]. }
  apply Rmult_le_pos; [|lra].
  apply Rplus_le_le_0_compat; apply Rmult_le_pos; try assumption;
    left; now apply Rinv_0_lt_compat.
Qed.

Lemma qa_loss_is_nonnegative_witness :
  exists total_loss,
    RobertaForQuestionAnswering.forward_total_loss
      [[5; 1; 1]; [2; 0; 3]] [[1; 1; 4]; [0; 2; 2]] [-4; 7]%Z [2; 1]%Z
    = Fin total_loss
    /\ 0 <= total_loss.
Proof.
  apply (qa_loss_is_nonnegative 2 3).
  - lia.
  - split; [reflexivity | repeat constructor].
  - split; [reflexivity | repeat constructor].
  - reflexivity.
  - reflexivity.
  - apply Exists_cons_hd. simpl; lia.
  - apply Exists_cons_hd. simpl; lia.
Defined.

(** ** RobertaForPair: which vectors the entity loss contrasts *)

Lemma nth_concat_uniform {A : Type} (w : nat) (M : list (list A)) (d : A) :
  Forall (fun r => length r = w) M ->
  forall i j, (i < length M)%nat -> (j < w)%nat ->
  nth (i * w + j) (concat M) d = nth j (nth i M []) d.
Proof.
  induction 1 as [|r M Hr _ IH]; intros i j Hi Hj; [simpl in Hi; lia|].
  destruct i as [|i]; cbn [concat nth].
  - rewrite app_nth1 by lia. reflexivity.
  - rewrite app_nth2 by (rewrite Hr; simpl; lia).
    replace (S i * w + j - length r)%nat with (i * w + j)%nat
      by (rewrite Hr; simpl; lia).
    apply IH; [simpl in Hi; lia | exact Hj].
Qed.

Lemma kept_map_Some {A B : Type} (f : A -> B) (l : list A) :
  kept (map (fun a => Some (f a)) l) = map f l.
Proof.
  induction l as [|a l IH]; [reflexivity|].
  cbn [map kept flat_map app]. f_equal. exact IH.
Qed.

Section PairLoss.

Variable sim : list R -> list R -> R.

Lemma pair_terms (K : nat) (cands : mat) (G : list mat) :
  forall k : nat,
  (2 <= K)%nat ->
  (forall i, (i < length G)%nat ->
     ((k + i) * (K - 1) < length cands)%nat
     /\ nth ((k + i) * (K - 1)) cands [] = nth 1 (nth i G []) []) ->
  mapM (fun rt : list R * Z => ce_term (-1) (fst rt) (snd rt))
       (combine (map (fun x => map (fun y => sim x y) cands)
                     (map (fun g : mat => nth 0 g []) G))
                (map (fun i => (Z.of_nat i * (Z.of_nat K - 1))%Z)
                     (seq k (length G))))
  = Fin (map (fun g : mat =>
                Some (ln (Rsum (map exp (map (sim (nth 0 g [])) cands)))
                      - sim (nth 0 g []) (nth 1 g [])))
             G).
Proof.
  induction G as [|g G IH]; intros k HK Hidx; [reflexivity|].
  cbn [length seq map combine mapM fst snd].
  rewrite (IH (S k) HK).
  2:{ intros i Hi. specialize (Hidx (S i) ltac:(simpl; lia)).
      replace (S k + i)%nat with (k + S i)%nat by lia. exact Hidx. }
  destruct (Hidx 0%nat ltac:(simpl; lia)) as [Hlt Hnth].
  rewrite Nat.add_0_r in Hlt, Hnth. cbn [nth] in Hnth.
  unfold ce_term. rewrite length_map.
  replace (Z.of_nat k * (Z.of_nat K - 1))%Z
    with (Z.of_nat (k * (K - 1))) by lia.
  pose proof (Nat2Z.is_nonneg (k * (K - 1))) as Hnn.
  destruct (Z.eqb_spec (Z.of_nat (k * (K - 1))) (-1)) as [E|_];
    [rewrite E in Hnn; lia|].
  replace ((0 <=? Z.of_nat (k * (K - 1)))%Z
           && (Z.of_nat (k * (K - 1)) <? Z.of_nat (length cands))%Z)%bool
    with true
    by (symmetry; apply andb_true_iff; split;
        [apply Z.leb_le; exact Hnn | apply Z.ltb_lt; now apply Nat2Z.inj_lt]).
  rewrite Nat2Z.id.
  destruct cands as [|c cands]; [simpl in Hlt; lia|].
  cbn [map logsumexp bind]. do 3 f_equal.
  change (sim (nth 0 g []) c :: map (fun y => sim (nth 0 g []) y) cands)
    with (map (fun y => sim (nth 0 g []) y) (c :: cands)).
  rewrite (nth_indep _ 0 (sim (nth 0 g []) []))
    by (rewrite length_map; exact Hlt).
  rewrite (map_nth (fun y => sim (nth 0 g []) y)). now rewrite Hnth.
Qed.

(** X22: on the row-major layout of [bsz] groups of [K >= 2] vectors, the
    entity loss of [RobertaForPair] takes the first vector of each group
    as query, the second vector of the same group as its positive (that
    is where the label [i * (K - 1)] points), and the non-first vectors of
    all groups as candidates: it is the mean over the groups of
    [logsumexp(sim(query, candidates)) - sim(query, positive)]. *)
Theorem pair_entity_loss_contrasts_group_mates
  (bsz K d : nat) (groups : list mat) :
  (0 < bsz)%nat -> (2 <= K)%nat -> shape3 bsz K d groups ->
  let candidates := concat (map (fun g : mat => from 1 g) groups) in
  RobertaForPair.entity_loss sim bsz K (concat groups)
  = Fin (Rsum (map (fun g : mat =>
                      ln (Rsum (map exp (map (sim (nth 0 g [])) candidates)))
                      - sim (nth 0 g []) (nth 1 g []))
                   groups)
         / INR bsz).
Proof.
  intros Hb HK [Len Sh] candidates.
  assert (Len' : @length mat groups = bsz) by exact Len.
  assert (HG : shape bsz K groups).
  { split; [exact Len|]. eapply Forall_impl; [|exact Sh].
    now intros g [Hg _]. }
  assert (Hrows : shape (bsz * K) d (concat groups)).
  { split.
    - exact (concat_shape_length _ _ _ HG).
    - apply Forall_forall. intros r Hr. apply in_concat in Hr as [g [Hg Hr]].
      destruct (proj1 (Forall_forall _ _) Sh g Hg) as [_ Hw].
      exact (proj1 (Forall_forall _ _) Hw r Hr). }
  unfold RobertaForPair.entity_loss, view3.
  rewrite (view_rows_id (bsz * K) d) by (try exact Hrows; nia).
  cbn [bind]. rewrite (chunks_concat _ _ _ HG).
  assert (Hfirst : RobertaForPair.first_members groups
                   = Fin (map (fun g : mat => nth 0 g []) groups)).
  { apply mapM_Fin. eapply Forall_impl; [|exact (proj2 HG)].
    intros [|r g] Hg; [simpl in Hg; lia | reflexivity]. }
  rewrite Hfirst. cbn [bind]. fold candidates.
  unfold cross_entropy. rewrite !length_map, length_seq, Len', Nat.eqb_refl.
  rewrite <- Len' at 1.
  rewrite (pair_terms K candidates groups 0 HK).
  2:{ intros i Hi. cbn [Nat.add].
      assert (Hc : Forall (fun r : mat => length r = (K - 1)%nat)
                          (map (fun g : mat => from 1 g) groups)).
      { apply Forall_forall. intros r Hr.
        apply in_map_iff in Hr as [g [<- Hg]].
        unfold from. rewrite length_skipn.
        now rewrite (proj1 (Forall_forall _ _) (proj2 HG) g Hg). }
      split.
      - unfold candidates.
        rewrite (concat_shape_length (length groups) (K - 1)).
        + nia.
        + split; [now rewrite length_map | exact Hc].
      - unfold candidates.
        replace (i * (K - 1))%nat with (i * (K - 1) + 0)%nat by lia.
        rewrite (nth_concat_uniform (K - 1) _ [] Hc)
          by (rewrite ?length_map; lia).
        change (@nil (list R)) with ((fun g : mat => from 1 g) []) at 1.
        rewrite map_nth. unfold from.
        destruct (nth i groups []) as [|a [|b g]]; reflexivity. }
  cbn [bind].
  rewrite (kept_map_Some
             (fun g : mat =>
                ln (Rsum (map exp (map (sim (nth 0 g [])) candidates)))
                - sim (nth 0 g []) (nth 1 g []))).
  unfold mean.
  destruct groups as [|g G]; [simpl in Len'; lia|].
  cbn [map]. rewrite <- Len'. cbn [length]. now rewrite length_map.
Qed.

End PairLoss.

Lemma pair_entity_loss_contrasts_group_mates_witness :
  let sim := fun x y : list R => Rsum (map (fun p => fst p * snd p)
                                           (combine x y)) in
  let groups := [[[1; 0]; [2; 1]; [0; 3]]; [[1; 1]; [0; 2]; [4; 4]]] in
  let candidates := concat (map (fun g : mat => from 1 g) groups) in
  RobertaForPair.entity_loss sim 2 3 (concat groups)
  = Fin (Rsum (map (fun g : mat =>
                      ln (Rsum (map exp (map (sim (nth 0 g [])) candidates)))
                      - sim (nth 0 g []) (nth 1 g []))
                   groups)
         / INR 2).
Proof.
  apply (pair_entity_loss_contrasts_group_mates _ 2 3 2).
  - lia.
  - lia.
  - split; [reflexivity|].
    repeat constructor.
Defined.

(** ** RobertaForWikihopMulti: the candidate scores *)

Section WikihopScores.
Import RobertaForTriviaQuestionAnswering.

Lemma combine_self {A : Type} (l : list A) :
  combine l l = map (fun x => (x, x)) l.
Proof. induction l as [|x l IH]; [reflexivity|]. simpl. now rewrite IH. Qed.

Lemma map_snd_combine {A B C : Type} (f : B -> C) (l : list A) (l' : list B) :
  length l = length l' ->
  map f l' = map (fun x : A * B => f (snd x)) (combine l l').
Proof.
  revert l. induction l' as [|b l' IH]; intros [|a l] H; try discriminate;
    [reflexivity|].
  cbn [combine map snd]. f_equal. apply IH. simpl in H. lia.
Qed.

Lemma rscale_row (xs : list R) (y : R) :
  bcast rmul xs [y] = Fin (map (fun x => x * y) xs).
Proof.
  rewrite bcast_one_r. apply mapM_Fin. apply Forall_forall. reflexivity.
Qed.

Lemma rscale_mat (m : mat) (v : list R) :
  length m = length v ->
  bcast (bcast rmul) m (unsqueeze_last v)
  = Fin (map (fun rv : list R * R => map (fun x => x * snd rv) (fst rv))
             (combine m v)).
Proof.
  intros Hlen. unfold unsqueeze_last.
  rewrite bcast_same by (now rewrite length_map).
  rewrite combine_map_r.
  rewrite mapM_map. apply mapM_Fin. apply Forall_forall.
  intros [r x] _. cbn [fst snd]. apply rscale_row.
Qed.

Lemma rscale_tensor (t : list mat) (M : mat) :
  length t = length M ->
  (forall m v, In (m, v) (combine t M) -> length m = length v) ->
  bcast (bcast (bcast rmul)) t (map (@unsqueeze_last R) M)
  = Fin (map (fun mv : mat * list R =>
                map (fun rv : list R * R =>
                       map (fun x => x * snd rv) (fst rv))
                    (combine (fst mv) (snd mv)))
             (combine t M)).
Proof.
  intros Hlen Hin.
  rewrite bcast_same by (now rewrite length_map).
  rewrite combine_map_r.
  rewrite mapM_map. apply mapM_Fin. apply Forall_forall.
  intros [m v] Hmv. cbn [fst snd]. apply rscale_mat. now apply Hin.
Qed.

Lemma rdiv_row (xs : list R) (d : R) :
  d <> 0 -> bcast rdiv xs [d] = Fin (map (fun x => x / d) xs).
Proof.
  intros Hd. rewrite bcast_one_r. apply mapM_Fin. apply Forall_forall.
  intros x _. unfold rdiv. now destruct (Req_dec_T d 0).
Qed.

Lemma rdiv_rows (rows : mat) (d : list R) :
  length rows = length d -> Forall (fun x => x <> 0) d ->
  bcast (bcast rdiv) rows (unsqueeze_last d)
  = Fin (map (fun rd : list R * R => map (fun x => x / snd rd) (fst rd))
             (combine rows d)).
Proof.
  intros Hlen Hd. unfold unsqueeze_last.
  rewrite bcast_same by (now rewrite length_map).
  rewrite combine_map_r.
  rewrite mapM_map. apply mapM_Fin. apply Forall_forall.
  intros [r x] Hin. cbn [fst snd]. apply rdiv_row.
  apply in_combine_r in Hin. exact (proj1 (Forall_forall _ _) Hd x Hin).
Qed.

Lemma mapM_NonFin {A B : Type} (f : A -> res B) (l : list A) :
  Forall (fun a => f a = NonFin \/ exists b, f a = Fin b) l ->
  Exists (fun a => f a = NonFin) l ->
  mapM f l = NonFin.
Proof.
  induction 1 as [|a l Ha Hl IH]; intros Hex; [inversion Hex|].
  cbn [mapM]. destruct Ha as [->|[b Hb]]; [reflexivity|].
  inversion Hex as [? ? Hn|? ? Hex']; subst; [congruence|].
  rewrite Hb. cbn [bind]. now rewrite (IH Hex').
Qed.

Lemma rdiv_rows_zero (w : nat) (rows : mat) (d : list R) :
  (0 < w)%nat -> shape (length d) w rows ->
  Exists (fun x => x = 0) d ->
  bcast (bcast rdiv) rows (unsqueeze_last d) = NonFin.
Proof.
  intros Hw [Hlen Hrows] Hex. unfold unsqueeze_last.
  rewrite bcast_same by (now rewrite length_map).
  rewrite combine_map_r.
  rewrite mapM_map. apply mapM_NonFin.
  - apply Forall_forall. intros [r x] Hin. cbn [fst snd].
    rewrite bcast_one_r.
    destruct (Req_dec_T x 0) as [Hx|Hx].
    + left. apply in_combine_l in Hin.
      pose proof (proj1 (Forall_forall _ _) Hrows r Hin) as Hr.
      destruct r as [|a r]; [simpl in Hr; lia|].
      cbn [mapM]. unfold rdiv at 1. now destruct (Req_dec_T x 0).
    + right. eexists. apply mapM_Fin. apply Forall_forall.
      intros a _. unfold rdiv. destruct (Req_dec_T x 0); [contradiction|].
      reflexivity.
  - revert rows Hlen Hrows.
    induction Hex as [x d Hx|x d _ IH]; intros [|r rows] Hlen Hrows;
      try discriminate.
    + apply Exists_cons_hd. cbn [fst snd combine]. rewrite bcast_one_r.
      pose proof (Forall_inv Hrows) as Hr. cbv beta in Hr.
      destruct r as [|a r]; [simpl in Hr; lia|].
      cbn [mapM]. unfold rdiv at 1. rewrite Hx.
      now destruct (Req_dec_T 0 0).
    + apply Exists_cons_tl. apply IH; [simpl in Hlen; lia|].
      exact (Forall_inv_tail Hrows).
Qed.

Lemma combine_repeat {A B : Type} (l : list A) (b : B) :
  combine l (repeat b (length l)) = map (fun a => (a, b)) l.
Proof. induction l as [|a l IH]; [reflexivity|]. simpl. now rewrite IH. Qed.

Lemma nth_g_row (row : list R) (cand : list Z) (j : nat) (t : Z) :
  nth_error cand j = Some t ->
  nth j (g_row row cand) 0
  = if Z.eqb t (-1) then sentinel else nth (Z.to_nat t) row 0.
Proof.
  revert j. unfold g_row, placeholder.
  induction cand as [|c cand IH]; intros [|j] H; try discriminate.
  - injection H as ->. cbn [map combine nth fst snd].
    destruct (Z.eqb t (-1)); reflexivity.
  - cbn [map combine nth]. now apply IH.
Qed.

(** the scores of one example, as the tensor operations compute them *)
Lemma example_scores (segments : mat) (mask : list R) (cand : list Z) :
  length segments = length mask ->
  map (fun x => x / Rsum mask)
      (sum_rows (length cand)
         (map (fun rv : list R * R => map (fun x => x * snd rv) (fst rv))
              (combine
                 (map (fun rt : list R * list Z => g_row (fst rt) (snd rt))
                      (combine segments (repeat cand (length segments))))
                 mask)))
  = map (candidate_score segments mask) cand.
Proof.
  intros Hlen. rewrite combine_repeat, map_map. cbn [fst snd].
  rewrite combine_map_l, map_map. cbn [fst snd].
  unfold sum_rows. rewrite map_map.
  assert (Hc : cand = map (fun j => nth j cand 0%Z) (seq 0 (length cand))).
  { clear. induction cand as [|c cand IH]; [reflexivity|].
    cbn [length seq map nth]. rewrite <- seq_shift, map_map.
    now rewrite <- IH. }
  replace (map (candidate_score segments mask) cand)
    with (map (fun j => candidate_score segments mask (nth j cand 0%Z))
              (seq 0 (length cand)))
    by (rewrite <- (map_map (fun j => nth j cand 0%Z)
                            (candidate_score segments mask)), <- Hc;
        reflexivity).
  apply map_ext_in. intros j Hj. apply in_seq in Hj.
  unfold candidate_score. f_equal. f_equal.
  rewrite map_map. apply map_ext. intros [row m]. cbn [fst snd].
  assert (Ht : nth_error cand j = Some (nth j cand 0%Z))
    by (apply nth_error_nth'; lia).
  rewrite (nth_indep _ 0 (0 * m)) by (rewrite length_map, g_row_length; lia).
  rewrite (map_nth (fun x => x * m)).
  now rewrite (nth_g_row row cand j _ Ht).
Qed.

Lemma wikihop_scores_value (bsz S L C : nat) (logits : list mat)
  (cand_positions : list (list Z)) (instance_mask : mat) :
  (0 < L)%nat ->
  shape3 bsz S L logits -> shape bsz C cand_positions ->
  shape bsz S instance_mask -> in_range L cand_positions ->
  Forall (fun m => Rsum m <> 0) instance_mask ->
  RobertaForWikihopMulti.forward_scores S logits cand_positions instance_mask
  = Fin (map (fun e : mat * list Z * list R =>
                map (candidate_score (fst (fst e)) (snd e)) (snd (fst e)))
             (combine (combine logits cand_positions) instance_mask)).
Proof.
  intros HL [LenL ShL] [LenC ShC] [LenM ShM] Hr Hnz.
  assert (LenL' : @length mat logits = bsz) by exact LenL.
  unfold RobertaForWikihopMulti.forward_scores. cbv zeta.
  destruct (gather3_fill bsz S L logits
              (map (fun c => repeat c S) cand_positions) HL ShL)
    as [g [Hg Hf]].
  { rewrite length_map. lia. }
  { apply Forall_forall. intros t Ht. apply in_map_iff in Ht as [c [<- Hc]].
    split; [apply repeat_length|].
    apply Forall_forall. intros r Hr'. apply repeat_spec in Hr'. subst r.
    exact (proj1 (Forall_forall _ _) Hr c Hc). }
  rewrite Hg. cbn [bind]. rewrite Hf.
  rewrite rscale_tensor.
  2:{ rewrite length_map, length_combine, length_map. lia. }
  2:{ intros m v Hin. pose proof (in_combine_l _ _ _ _ Hin) as Hm.
      pose proof (in_combine_r _ _ _ _ Hin) as Hv.
      apply in_map_iff in Hm as [[l t] [<- Hlt]]. cbn [fst snd].
      pose proof (in_combine_l _ _ _ _ Hlt) as Hl.
      pose proof (in_combine_r _ _ _ _ Hlt) as Ht.
      apply in_map_iff in Ht as [c [<- _]].
      rewrite length_map, length_combine, repeat_length.
      rewrite (proj1 (proj1 (Forall_forall _ _) ShL l Hl)).
      rewrite (proj1 (Forall_forall _ _) ShM v Hv). lia. }
  cbn [bind].
  rewrite rdiv_rows.
  2:{ repeat rewrite ?length_map, ?length_combine.
      unfold mat in *. lia. }
  2:{ apply Forall_forall. intros x Hx. apply in_map_iff in Hx as [m [<- Hm]].
      exact (proj1 (Forall_forall _ _) Hnz m Hm). }
  f_equal.
  (* every list is a map over the examples *)
  unfold unsqueeze_last in *.
  rewrite (combine_map_r (fun c : list Z => repeat c S) logits cand_positions).
  rewrite (map_map (fun xy : mat * list Z => (fst xy, repeat (snd xy) S))).
  rewrite (combine_map_l _ (combine logits cand_positions) instance_mask).
  rewrite !map_map.
  rewrite (map_snd_combine Rsum (combine logits cand_positions) instance_mask)
    by (rewrite length_combine; unfold mat in *; lia).
  rewrite combine_map, combine_self, !map_map. cbn [fst snd].
  apply map_ext_in. intros [[l c] m] Hin. cbn [fst snd].
  pose proof (in_combine_l _ _ _ _ Hin) as Hlc.
  pose proof (in_combine_r _ _ _ _ Hin) as Hm.
  pose proof (in_combine_l _ _ _ _ Hlc) as Hl.
  pose proof (in_combine_r _ _ _ _ Hlc) as Hc.
  pose proof (proj1 (proj1 (Forall_forall _ _) ShL l Hl)) as El.
  pose proof (proj1 (Forall_forall _ _) ShM m Hm) as Em.
  pose proof (proj1 (Forall_forall _ _) ShC c Hc) as Ec.
  cbv beta in Em, Ec.
  replace (match cand_positions with [] => 0%nat | c0 :: _ => length c0 end)
    with (length c).
  2:{ destruct cand_positions as [|c0 cs]; [contradiction|].
      pose proof (Forall_inv ShC) as E0. cbv beta in E0. lia. }
  rewrite <- El. apply example_scores. lia.
Qed.

Lemma Rsum_scaled_mask {A : Type} (c : R) (l : list A) (mask : list R) :
  length l = length mask ->
  Rsum (map (fun rm : A * R => c * snd rm) (combine l mask)) = c * Rsum mask.
Proof.
  revert l. induction mask as [|m mask IH]; intros [|a l] H; try discriminate;
    cbn [combine map Rsum fold_right snd]; [lra|].
  unfold Rsum in IH. rewrite (IH l) by (simpl in H; lia). lra.
Qed.

(** X23: with a well-shaped batch and an instance mask that does not sum
    to zero on any example, the score of candidate slot [j] of example [e]
    is the mask-weighted mean over the segments of the logit at the
    candidate's position; an ignored slot (position -1) scores exactly
    -10000, whatever the mask. *)
Theorem wikihop_scores_are_mask_weighted_means
  (bsz S L C : nat) (logits : list mat)
  (cand_positions : list (list Z)) (instance_mask : mat) :
  (0 < L)%nat ->
  shape3 bsz S L logits -> shape bsz C cand_positions ->
  shape bsz S instance_mask -> in_range L cand_positions ->
  Forall (fun m => Rsum m <> 0) instance_mask ->
  exists scores,
    RobertaForWikihopMulti.forward_scores S logits cand_positions
      instance_mask = Fin scores
    /\ forall e j segments cand mask t,
         nth_error logits e = Some segments ->
         nth_error cand_positions e = Some cand ->
         nth_error instance_mask e = Some mask ->
         nth_error cand j = Some t ->
         nth j (nth e scores []) 0
         = if Z.eqb t (-1) then -10000
           else Rsum (map (fun rm : list R * R =>
                             nth (Z.to_nat t) (fst rm) 0 * snd rm)
                          (combine segments mask))
                / Rsum mask.
Proof.
  intros HL H3 HC HM Hr Hnz.
  rewrite (wikihop_scores_value bsz S L C) by assumption.
  eexists. split; [reflexivity|].
  intros e j segments cand mask t Hl Hc Hm Ht.
  pose proof (nth_error_combine _ _ _ _ _
                (nth_error_combine _ _ _ _ _ Hl Hc) Hm) as He.
  rewrite (nth_error_nth _ _ _
             (map_nth_error
                (fun e : mat * list Z * list R =>
                   map (candidate_score (fst (fst e)) (snd e)) (snd (fst e)))
                _ _ He)).
  cbn [fst snd].
  rewrite (nth_error_nth _ _ _ (map_nth_error _ _ _ Ht)).
  unfold candidate_score.
  destruct (Z.eqb t (-1)); [|reflexivity].
  apply nth_error_In in Hl, Hm.
  destruct H3 as [_ H3]. destruct HM as [_ HM].
  pose proof (proj1 (proj1 (Forall_forall _ _) H3 _ Hl)) as El.
  pose proof (proj1 (Forall_forall _ _) HM _ Hm) as Em. cbv beta in Em.
  pose proof (proj1 (Forall_forall _ _) Hnz _ Hm) as Hne. cbv beta in Hne.
  rewrite (Rsum_scaled_mask sentinel segments mask) by lia.
  unfold sentinel. field. exact Hne.
Qed.

Lemma wikihop_scores_are_mask_weighted_means_witness :
  exists scores,
    RobertaForWikihopMulti.forward_scores 2
      [[[5; 1; 1]; [2; 0; 3]]] [[2; -1]%Z] [[1; 3]] = Fin scores
    /\ forall e j segments cand mask t,
         nth_error [[[5; 1; 1]; [2; 0; 3]]] e = Some segments ->
         nth_error [[2; -1]%Z] e = Some cand ->
         nth_error [[1; 3]] e = Some mask ->
         nth_error cand j = Some t ->
         nth j (nth e scores []) 0
         = if Z.eqb t (-1) then -10000
           else Rsum (map (fun rm : list R * R =>
                             nth (Z.to_nat t) (fst rm) 0 * snd rm)
                          (combine segments mask))
                / Rsum mask.
Proof.
  apply (wikihop_scores_are_mask_weighted_means 1 2 3 2).
  - lia.
  - split; [reflexivity|]. repeat constructor.
  - split; [reflexivity|]. repeat constructor.
  - split; [reflexivity|]. repeat constructor.
  - repeat constructor; lia.
  - repeat constructor. simpl. lra.
Defined.

(** X24: when the instance mask of some example sums to zero, the
    division by [torch.sum(instance_mask, dim=1)] divides every score of
    that example by zero: the candidate scores that
    [RobertaForWikihopMulti.forward] returns are not all finite. *)
Theorem wikihop_empty_instance_mask_gives_nonfinite_scores
  (bsz S L C : nat) (logits : list mat)
  (cand_positions : list (list Z)) (instance_mask : mat) :
  (0 < L)%nat -> (0 < C)%nat ->
  shape3 bsz S L logits -> shape bsz C cand_positions ->
  shape bsz S instance_mask -> in_range L cand_positions ->
  Exists (fun m => Rsum m = 0) instance_mask ->
  RobertaForWikihopMulti.forward_scores S logits cand_positions instance_mask
  = NonFin.
Proof.
  intros HL HC0 [LenL ShL] [LenC ShC] [LenM ShM] Hr Hex.
  assert (LenL' : @length mat logits = bsz) by exact LenL.
  unfold RobertaForWikihopMulti.forward_scores. cbv zeta.
  destruct (gather3_fill bsz S L logits
              (map (fun c => repeat c S) cand_positions) HL ShL)
    as [g [Hg Hf]].
  { rewrite length_map. lia. }
  { apply Forall_forall. intros t Ht. apply in_map_iff in Ht as [c [<- Hc]].
    split; [apply repeat_length|].
    apply Forall_forall. intros r Hr'. apply repeat_spec in Hr'. subst r.
    exact (proj1 (Forall_forall _ _) Hr c Hc). }
  rewrite Hg. cbn [bind]. rewrite Hf.
  rewrite rscale_tensor.
  2:{ rewrite length_map, length_combine, length_map. lia. }
  2:{ intros m v Hin. pose proof (in_combine_l _ _ _ _ Hin) as Hm.
      pose proof (in_combine_r _ _ _ _ Hin) as Hv.
      apply in_map_iff in Hm as [[l t] [<- Hlt]]. cbn [fst snd].
      pose proof (in_combine_l _ _ _ _ Hlt) as Hl.
      pose proof (in_combine_r _ _ _ _ Hlt) as Ht.
      apply in_map_iff in Ht as [c [<- _]].
      rewrite length_map, length_combine, repeat_length.
      rewrite (proj1 (proj1 (Forall_forall _ _) ShL l Hl)).
      rewrite (proj1 (Forall_forall _ _) ShM v Hv). lia. }
  cbn [bind].
  apply (rdiv_rows_zero C); [exact HC0 | | ].
  - split.
    + repeat rewrite ?length_map, ?length_combine. unfold mat in *. lia.
    + apply Forall_forall. intros r Hr'.
      apply in_map_iff in Hr' as [w [<- _]].
      unfold sum_rows. rewrite length_map, length_seq.
      destruct cand_positions as [|c0 cs].
      * destruct instance_mask; [inversion Hex | simpl in *; lia].
      * exact (Forall_inv ShC).
  - apply Exists_exists in Hex as [m [Hm Hz]].
    apply Exists_exists. exists (Rsum m). split; [|exact Hz].
    now apply in_map.
Qed.

Lemma wikihop_empty_instance_mask_gives_nonfinite_scores_witness :
  RobertaForWikihopMulti.forward_scores 2
    [[[5; 1; 1]; [2; 0; 3]]] [[2; -1]%Z] [[0; 0]] = NonFin.
Proof.
  apply (wikihop_empty_instance_mask_gives_nonfinite_scores 1 2 3 2).
  - lia.
  - lia.
  - split; [reflexivity|]. repeat constructor.
  - split; [reflexivity|]. repeat constructor.
  - split; [reflexivity|]. repeat constructor.
  - repeat constructor; lia.
  - apply Exists_cons_hd. simpl. lra.
Defined.

End WikihopScores.

(** ** RobertaForQuestionAnsweringHotpotSeg *)

Section HotpotLoss.
Import RobertaForTriviaQuestionAnswering.

(** X25: the loss branch of [RobertaForQuestionAnsweringHotpotSeg.forward]
    needs the sentence scores: with well-shaped start and end positions
    but no [sent_start_mapping] (so [sent_logits] is [None]), the two span
    losses are computed and the call then fails on [sent_logits.view],
    with or without [sent_labels]. *)
Theorem hotpot_loss_needs_sentence_mapping
  (N S L T : nat) (start_logits end_logits : list mat)
  (start_positions end_positions : list (list (list Z)))
  (sent_labels : option (list (list Z))) :
  (0 < N)%nat -> (0 < S)%nat -> (0 < L)%nat -> (0 < T)%nat ->
  shape3 N S L start_logits -> shape3 N S L end_logits ->
  shape3 N S T start_positions -> shape3 N S T end_positions ->
  Forall (in_range L) start_positions ->
  Forall (in_range L) end_positions ->
  RobertaForQuestionAnsweringHotpotSeg.forward_total_loss
    start_logits end_logits start_positions end_positions None sent_labels
  = Exn MissingArgument.
Proof.
  intros HN HS HL HT Hsl Hel Hsp Hep Hsr Her.
  unfold RobertaForQuestionAnsweringHotpotSeg.forward_total_loss.
  rewrite (segmented_span_loss_value N S L T start_logits) by assumption.
  rewrite (segmented_span_loss_value N S L T end_logits) by assumption.
  reflexivity.
Qed.

Lemma hotpot_loss_needs_sentence_mapping_witness :
  RobertaForQuestionAnsweringHotpotSeg.forward_total_loss
    [[[5; 1; 1]; [2; 0; 3]]] [[[0; 4; 1]; [1; 1; 2]]]
    [[[0; -1]; [2; 1]]%Z] [[[1; -1]; [2; 2]]%Z] None (Some [[1; 0]%Z])
  = Exn MissingArgument.
Proof.
  apply (hotpot_loss_needs_sentence_mapping 1 2 3 2); try lia;
    try (split; [reflexivity|]; repeat constructor);
    repeat constructor; lia.
Defined.

End HotpotLoss.
